(** * CAFE decoder: a shallow embedding of the Go sources

    The development follows the three stages of the decoder: the lexer
    ([newLexer], [lexByte], [lexInput]), the value transformer
    ([transformItem] and its helpers in parser_items.go and
    parser_functions.go) and the parser ([parseItem], [parseItems],
    [Decode]).

    Conventions.
    - A Go [string] is a Rocq [string], a sequence of bytes.  A loop
      [for i, v := range s] is modelled byte by byte, which agrees with Go
      on ASCII text (every delimiter of the language is ASCII).
    - A Go [int] is a [Z]; slice bounds are checked as the Go runtime does.
    - A run-time panic is the outcome [Panic]; loops that Go runs with
      [for !done] take fuel.
    - A [float64] is a [spec_float] of precision 53 and maximal exponent
      1024 (the IEEE 754 specification of the Standard Library).
    - The lexer's input is the slice built by [readCAFEFile]: one string
      per rune, inside a backing array that may be longer than the slice
      (Go slices may be re-sliced up to their capacity). *)

From Stdlib Require Import ZArith List String Ascii Bool Lia.
From Stdlib Require Import Floats.SpecFloat.
Import ListNotations.

Open Scope string_scope.
Open Scope Z_scope.

(* ================================================================== *)
(** ** Outcomes *)

Inductive panicKind : Type :=
| IndexOutOfRange
| SliceBoundsOutOfRange
| AssignToNilMap
| LexerError (msg : string)
| ParserError (msg : string).

Inductive result (A : Type) : Type :=
| Ok (a : A)
| Panic (p : panicKind)
| OutOfFuel.

Arguments Ok {A} a.
Arguments Panic {A} p.
Arguments OutOfFuel {A}.

Definition bind {A B : Type} (r : result A) (k : A -> result B) : result B :=
  match r with
  | Ok a => k a
  | Panic p => Panic p
  | OutOfFuel => OutOfFuel
  end.

Notation "'do' x <- r ;; k" := (bind r (fun x => k))
  (at level 10, x pattern, r at level 100, k at level 200).

Definition isOk {A : Type} (r : result A) : bool :=
  match r with Ok _ => true | _ => false end.

Definition isPanic {A : Type} (r : result A) : bool :=
  match r with Panic _ => true | _ => false end.

(* ================================================================== *)
(** ** Go strings *)

Module GoStrings.

Definition len (s : string) : Z := Z.of_nat (String.length s).

Definition chars (s : string) : list ascii := list_ascii_of_string s.

Definition ofChars (l : list ascii) : string := string_of_list_ascii l.

Definition str1 (c : ascii) : string := String c EmptyString.

(** [unicode.IsSpace] on a byte: tab, newline, vertical tab, form feed,
    carriage return and space. *)
Definition isSpace (c : ascii) : bool :=
  let n := nat_of_ascii c in
  (Nat.leb 9 n && Nat.leb n 13) || Nat.eqb n 32.

Fixpoint dropWhile (p : ascii -> bool) (s : string) : string :=
  match s with
  | EmptyString => EmptyString
  | String c s' => if p c then dropWhile p s' else s
  end.

(** Drops the longest suffix whose characters all satisfy [p]. *)
Fixpoint dropWhileEnd (p : ascii -> bool) (s : string) : string :=
  match s with
  | EmptyString => EmptyString
  | String c s' =>
      match dropWhileEnd p s' with
      | EmptyString => if p c then EmptyString else str1 c
      | r => String c r
      end
  end.

Definition TrimLeftFunc (p : ascii -> bool) (s : string) : string := dropWhile p s.
Definition TrimRightFunc (p : ascii -> bool) (s : string) : string := dropWhileEnd p s.

Definition TrimSpace (s : string) : string :=
  dropWhileEnd isSpace (dropWhile isSpace s).

(** [strings.Trim s cutset], [TrimLeft], [TrimRight] for a cutset of one
    character, the only use in the sources. *)
Definition Trim (s : string) (cut : ascii) : string :=
  dropWhileEnd (Ascii.eqb cut) (dropWhile (Ascii.eqb cut) s).
Definition TrimLeft (s : string) (cut : ascii) : string := dropWhile (Ascii.eqb cut) s.
Definition TrimRight (s : string) (cut : ascii) : string := dropWhileEnd (Ascii.eqb cut) s.

Definition HasPrefix (s p : string) : bool := String.prefix p s.

Fixpoint skipn (n : nat) (s : string) : string :=
  match n, s with
  | O, _ => s
  | S n', String _ s' => skipn n' s'
  | S _, EmptyString => EmptyString
  end.

Fixpoint firstn (n : nat) (s : string) : string :=
  match n, s with
  | S n', String c s' => String c (firstn n' s')
  | _, _ => EmptyString
  end.

Definition HasSuffix (s p : string) : bool :=
  Nat.leb (String.length p) (String.length s)
  && String.eqb (skipn (String.length s - String.length p) s) p.

(** The slice expression [s[a:b]]: panics unless [0 <= a <= b <= len s]. *)
Definition slice (s : string) (a b : Z) : result string :=
  if (0 <=? a) && (a <=? b) && (b <=? len s)
  then Ok (firstn (Z.to_nat (b - a)) (skipn (Z.to_nat a) s))
  else Panic SliceBoundsOutOfRange.

(** [s[a:]] *)
Definition sliceFrom (s : string) (a : Z) : result string := slice s a (len s).

(** The index expression [s[i]]. *)
Definition index (s : string) (i : Z) : result ascii :=
  if (0 <=? i) && (i <? len s)
  then match String.get (Z.to_nat i) s with
       | Some c => Ok c
       | None => Panic IndexOutOfRange
       end
  else Panic IndexOutOfRange.

(** [strings.Index s sub]: the first position of [sub], or -1. *)
Fixpoint IndexFrom (s sub : string) (i : Z) : Z :=
  if String.prefix sub s then i
  else match s with
       | EmptyString => -1
       | String _ s' => IndexFrom s' sub (i + 1)
       end.

Definition Index (s sub : string) : Z := IndexFrom s sub 0.

Definition Contains (s sub : string) : bool := 0 <=? Index s sub.

Fixpoint Join (l : list string) (sep : string) : string :=
  match l with
  | [] => EmptyString
  | [x] => x
  | x :: rest => x ++ sep ++ Join rest sep
  end.

(** [strings.Split s sep] for a non-empty separator.  [cur] holds, in
    reverse, the characters of the piece being read. *)
Fixpoint splitAux (fuel : nat) (s sep : string) (cur : list ascii) : list string :=
  match fuel with
  | O => [ofChars (rev cur ++ chars s)]
  | S fuel' =>
      if String.prefix sep s
      then ofChars (rev cur) :: splitAux fuel' (skipn (String.length sep) s) sep []
      else match s with
           | EmptyString => [ofChars (rev cur)]
           | String c s' => splitAux fuel' s' sep (c :: cur)
           end
  end.

Definition Split (s sep : string) : list string :=
  splitAux (S (String.length s)) s sep [].

Definition upperChar (c : ascii) : ascii :=
  let n := nat_of_ascii c in
  if Nat.leb 97 n && Nat.leb n 122 then ascii_of_nat (n - 32) else c.

Definition lowerChar (c : ascii) : ascii :=
  let n := nat_of_ascii c in
  if Nat.leb 65 n && Nat.leb n 90 then ascii_of_nat (n + 32) else c.

Fixpoint mapChars (f : ascii -> ascii) (s : string) : string :=
  match s with
  | EmptyString => EmptyString
  | String c s' => String (f c) (mapChars f s')
  end.

(** [strings.ToUpper] and [strings.ToLower] on ASCII letters. *)
Definition ToUpper (s : string) : string := mapChars upperChar s.
Definition ToLower (s : string) : string := mapChars lowerChar s.

End GoStrings.

(* ================================================================== *)
(** ** IEEE 754 binary64 and binary32 *)

Module F64.

Definition float64 : Type := spec_float.

Definition prec : Z := 53.
Definition emax : Z := 1024.

Definition NaN : float64 := S754_nan.
Definition Inf (neg : bool) : float64 := S754_infinity neg.
Definition zero : float64 := S754_zero false.

(** The binary64 value nearest to m * 2^e. *)
Definition ofZ2 (m e : Z) (szero : bool) : float64 := binary_normalize prec emax m e szero.

Definition ofZ (n : Z) : float64 := ofZ2 n 0 false.

Definition mul (x y : float64) : float64 := SFmul prec emax x y.
Definition add (x y : float64) : float64 := SFadd prec emax x y.
Definition sub (x y : float64) : float64 := SFsub prec emax x y.
Definition div (x y : float64) : float64 := SFdiv prec emax x y.

Definition eqb (x y : float64) : bool := SFeqb x y.
Definition ltb (x y : float64) : bool := SFltb x y.
Definition leb (x y : float64) : bool := SFleb x y.

Definition isNaN (x : float64) : bool :=
  match x with S754_nan => true | _ => false end.

Definition signbit (x : float64) : bool :=
  match x with
  | S754_zero s | S754_infinity s | S754_finite s _ _ => s
  | S754_nan => false
  end.

(** The value nearest to p/q (p, q > 0) in the format (prc, emx), ties to
    even.  The quotient keeps at least three bits more than the format
    and a sticky bit for the remainder. *)
Definition roundRatio (prc emx : Z) (neg : bool) (p q : Z) : spec_float :=
  let k := Z.max 0 (prc + 4 + Z.log2 q - Z.log2 p) in
  let n := p * 2 ^ k in
  let m := 2 * (n / q) + (if n mod q =? 0 then 0 else 1) in
  binary_normalize prc emx (if neg then - m else m) (- k - 1) neg.

(** Re-rounds a value of a narrower format to binary64 (exact), so that the
    mantissa is canonical for the comparisons of [SpecFloat]. *)
Definition widen (x : spec_float) : float64 :=
  match x with
  | S754_finite s m e => ofZ2 (if s then Zneg m else Zpos m) e s
  | _ => x
  end.

(** [math.Round]: nearest integer, halves away from zero. *)
Definition Round (x : float64) : float64 :=
  match x with
  | S754_finite s m e =>
      if 0 <=? e then x
      else
        let d := 2 ^ (- e) in
        let q := Zpos m / d in
        let r := if 2 * (Zpos m mod d) >=? d then q + 1 else q in
        ofZ2 (if s then - r else r) 0 s
  | _ => x
  end.

(** [math.Floor]: greatest integer not above x. *)
Definition Floor (x : float64) : float64 :=
  match x with
  | S754_finite s m e =>
      if 0 <=? e then x
      else
        let d := 2 ^ (- e) in
        let q := Zpos m / d in
        let r := if s then (if Zpos m mod d =? 0 then q else q + 1) else q in
        ofZ2 (if s then - r else r) 0 s
  | _ => x
  end.

(** [math.Mod x y]: the remainder of x/y with the sign of x. *)
Definition Mod (x y : float64) : float64 :=
  match x, y with
  | S754_nan, _ | _, S754_nan => NaN
  | S754_infinity _, _ => NaN
  | _, S754_zero _ => NaN
  | _, S754_infinity _ => x
  | S754_zero _, _ => x
  | S754_finite sx mx ex, S754_finite _ my ey =>
      let e := Z.min ex ey in
      let r := Z.rem (Zpos mx * 2 ^ (ex - e)) (Zpos my * 2 ^ (ey - e)) in
      ofZ2 (if sx then - r else r) e sx
  end.

Definition minInt64 : Z := - 2 ^ 63.
Definition maxInt64 : Z := 2 ^ 63 - 1.

(** The conversion [int(x)]: truncation towards zero.  A NaN, an infinity
    or a value outside int64 gives the amd64 result, the least int64. *)
Definition toInt (x : float64) : Z :=
  match x with
  | S754_zero _ => 0
  | S754_finite s m e =>
      let a := if 0 <=? e then Zpos m * 2 ^ e else Zpos m / 2 ^ (- e) in
      let v := if s then - a else a in
      if (minInt64 <=? v) && (v <=? maxInt64) then v else minInt64
  | _ => minInt64
  end.

End F64.

Abbreviation float64 := F64.float64.

(* ================================================================== *)
(** ** strconv *)

Module Strconv.

Import GoStrings.

Definition isDigit (c : ascii) : bool :=
  let n := nat_of_ascii c in Nat.leb 48 n && Nat.leb n 57.

Definition digitVal (c : ascii) : Z := Z.of_nat (nat_of_ascii c) - 48.

(** [lower(c)] of strconv: sets the bit 0x20. *)
Definition lower (c : ascii) : ascii :=
  let '(Ascii b0 b1 b2 b3 b4 _ b6 b7) := c in Ascii b0 b1 b2 b3 b4 true b6 b7.

Definition isHexLetter (c : ascii) : bool :=
  let n := nat_of_ascii (lower c) in Nat.leb 97 n && Nat.leb n 102.

Definition hexLetterVal (c : ascii) : Z := Z.of_nat (nat_of_ascii (lower c)) - 87.

Fixpoint allDigits (s : string) : bool :=
  match s with
  | EmptyString => true
  | String c s' => isDigit c && allDigits s'
  end.

Fixpoint decimalValue (s : string) (acc : Z) : Z :=
  match s with
  | EmptyString => acc
  | String c s' => decimalValue s' (10 * acc + digitVal c)
  end.

(** [strconv.Atoi] as a value and a flag that is [true] when the error is
    nil: an optional sign and one or more decimal digits.  A syntax error
    returns 0; a value outside the 64-bit int returns the nearest bound
    with a range error. *)
Definition AtoiFull (s : string) : Z * bool :=
  let '(neg, body) :=
    match s with
    | String "-" r => (true, r)
    | String "+" r => (false, r)
    | _ => (false, s)
    end in
  match body with
  | EmptyString => (0, false)
  | _ =>
      if allDigits body then
        let v := if neg then - decimalValue body 0 else decimalValue body 0 in
        if v <? F64.minInt64 then (F64.minInt64, false)
        else if F64.maxInt64 <? v then (F64.maxInt64, false)
        else (v, true)
      else (0, false)
  end.

(** [strconv.Atoi] where only success matters: [None] is a non-nil error. *)
Definition Atoi (s : string) : option Z :=
  let '(v, ok) := AtoiFull s in if ok then Some v else None.

(** [strconv.ParseBool]. *)
Definition ParseBool (s : string) : option bool :=
  if String.eqb s "1" || String.eqb s "t" || String.eqb s "T"
     || String.eqb s "TRUE" || String.eqb s "true" || String.eqb s "True"
  then Some true
  else if String.eqb s "0" || String.eqb s "f" || String.eqb s "F"
     || String.eqb s "FALSE" || String.eqb s "false" || String.eqb s "False"
  then Some false
  else None.

(** *** ParseFloat *)

Definition eqIgnoreCase (s t : string) : bool :=
  String.eqb (ToLower s) t.

(** [special]: the spellings of the infinities and of NaN. *)
Definition special (s : string) : option float64 :=
  let '(signed, neg, body) :=
    match s with
    | String "-" r => (true, true, r)
    | String "+" r => (true, false, r)
    | _ => (false, false, s)
    end in
  if eqIgnoreCase body "inf" || eqIgnoreCase body "infinity" then Some (F64.Inf neg)
  else if negb signed && eqIgnoreCase body "nan" then Some F64.NaN
  else None.

(** [underscoreOK]: an underscore stands only between digits, or between a
    base prefix and a digit.  [saw] is the class of the last character:
    0 for a digit, 1 for an underscore, 2 for anything else. *)
Fixpoint underscoreLoop (hex : bool) (s : string) (saw : nat) : bool :=
  match s with
  | EmptyString => negb (Nat.eqb saw 1)
  | String c s' =>
      if isDigit c || (hex && isHexLetter c) then underscoreLoop hex s' 0
      else if Ascii.eqb c "_" then
        if Nat.eqb saw 0 then underscoreLoop hex s' 1 else false
      else if Nat.eqb saw 1 then false
      else underscoreLoop hex s' 2
  end.

Definition underscoreOK (s : string) : bool :=
  let s1 := match s with
            | String "-" r | String "+" r => r
            | _ => s
            end in
  match s1 with
  | String "0" (String x r) =>
      let lx := lower x in
      if Ascii.eqb lx "b" || Ascii.eqb lx "o" || Ascii.eqb lx "x"
      then underscoreLoop (Ascii.eqb lx "x") r 0
      else underscoreLoop false s1 2
  | _ => underscoreLoop false s1 2
  end.

(** State of the mantissa loop of [readFloat]; the mantissa keeps every
    digit. *)
Record mant : Type := mkMant {
  sawdot : bool;
  sawdigits : bool;
  nd : Z;
  dp : Z;
  mantissa : Z;
  underscores : bool
}.

Fixpoint readMantissa (hex : bool) (s : string) (st : mant) : mant * string :=
  match s with
  | EmptyString => (st, s)
  | String c s' =>
      if Ascii.eqb c "_" then
        readMantissa hex s'
          (mkMant (sawdot st) (sawdigits st) (nd st) (dp st) (mantissa st) true)
      else if Ascii.eqb c "." then
        if sawdot st then (st, s)
        else readMantissa hex s'
               (mkMant true (sawdigits st) (nd st) (nd st) (mantissa st) (underscores st))
      else if isDigit c then
        if Ascii.eqb c "0" && (nd st =? 0) then
          readMantissa hex s'
            (mkMant (sawdot st) true (nd st) (dp st - 1) (mantissa st) (underscores st))
        else
          readMantissa hex s'
            (mkMant (sawdot st) true (nd st + 1) (dp st)
               ((if hex then 16 else 10) * mantissa st + digitVal c) (underscores st))
      else if hex && isHexLetter c then
        readMantissa hex s'
          (mkMant (sawdot st) true (nd st + 1) (dp st)
             (16 * mantissa st + hexLetterVal c) (underscores st))
      else (st, s)
  end.

(** Digits of the exponent; the value stops growing at 10000. *)
Fixpoint readExpDigits (s : string) (e : Z) (us : bool) : Z * bool * string :=
  match s with
  | EmptyString => (e, us, s)
  | String c s' =>
      if Ascii.eqb c "_" then readExpDigits s' e true
      else if isDigit c then
        readExpDigits s' (if e <? 10000 then e * 10 + digitVal c else e) us
      else (e, us, s)
  end.

Record parsed : Type := mkParsed {
  p_neg : bool;
  p_hex : bool;
  p_mantissa : Z;
  p_exp : Z
}.

(** [readFloat] followed by the test that the whole text was read. *)
Definition readFloat (s : string) : option parsed :=
  let '(neg, s1) :=
    match s with
    | String "+" r => (false, r)
    | String "-" r => (true, r)
    | _ => (false, s)
    end in
  match s with
  | EmptyString => None
  | _ =>
    let '(hex, s2) :=
      match s1 with
      | String "0" (String x (String y r)) =>
          if Ascii.eqb (lower x) "x" then (true, String y r) else (false, s1)
      | _ => (false, s1)
      end in
    let '(st, s3) := readMantissa hex s2 (mkMant false false 0 0 0 false) in
    if negb (sawdigits st) then None
    else
      let dp0 := if sawdot st then dp st else nd st in
      let dp1 := if hex then dp0 * 4 else dp0 in
      let ndm := if hex then nd st * 4 else nd st in
      let expChar := if hex then "p"%char else "e"%char in
      let after :=
        match s3 with
        | String c s4 =>
            if Ascii.eqb (lower c) expChar then
              match s4 with
              | EmptyString => None
              | String c1 s5 =>
                  let '(esign, s6) :=
                    if Ascii.eqb c1 "+" then (1, s5)
                    else if Ascii.eqb c1 "-" then (-1, s5)
                    else (1, s4) in
                  match s6 with
                  | String d _ =>
                      if isDigit d then
                        let '(e, us, rest) := readExpDigits s6 0 (underscores st) in
                        Some (dp1 + e * esign, us, rest)
                      else None
                  | EmptyString => None
                  end
              end
            else if hex then None else Some (dp1, underscores st, s3)
        | EmptyString => if hex then None else Some (dp1, underscores st, s3)
        end in
      match after with
      | None => None
      | Some (dp2, us, rest) =>
          if negb (String.eqb rest "") then None
          else if us && negb (underscoreOK s) then None
          else Some (mkParsed neg hex (mantissa st)
                       (if mantissa st =? 0 then 0 else dp2 - ndm))
      end
  end.

Fixpoint countDigits (fuel : nat) (n : Z) : Z :=
  match fuel with
  | O => 1
  | S f => if n <? 10 then 1 else 1 + countDigits f (n / 10)
  end.

Definition numDigits (n : Z) : Z := countDigits (Z.to_nat (Z.log2 n)) n.

(** The value of a parsed literal rounded to the format (prc, emx), ties to
    even.  Magnitudes far outside the format are decided without computing
    the power. *)
Definition convert (prc emx : Z) (p : parsed) : spec_float :=
  let m := p_mantissa p in
  if m =? 0 then S754_zero (p_neg p)
  else if p_hex p then
    let b := Z.log2 m + 1 + p_exp p in
    if b >? emx + 8 then S754_infinity (p_neg p)
    else if b <? 3 - emx - prc - 8 then S754_zero (p_neg p)
    else binary_normalize prc emx (if p_neg p then - m else m) (p_exp p) (p_neg p)
  else
    let d := numDigits m + p_exp p in
    if d >? emx then S754_infinity (p_neg p)
    else if d <? 3 - emx - prc - 8 then S754_zero (p_neg p)
    else if 0 <=? p_exp p then
      binary_normalize prc emx (if p_neg p then - (m * 10 ^ p_exp p) else m * 10 ^ p_exp p)
        0 (p_neg p)
    else F64.roundRatio prc emx (p_neg p) m (10 ^ (- p_exp p)).

(** [strconv.ParseFloat s bitSize] as a value and a flag that is [true]
    when the error is nil.  A syntax error returns 0; a magnitude beyond
    the format returns the infinity of that sign with a range error. *)
Definition parseFloatBits (prc emx : Z) (s : string) : float64 * bool :=
  match special s with
  | Some v => (v, true)
  | None =>
      match readFloat s with
      | None => (F64.zero, false)
      | Some p =>
          match convert prc emx p with
          | S754_infinity sg => (S754_infinity sg, false)
          | v => (F64.widen v, true)
          end
      end
  end.

Definition ParseFloat32 (s : string) : float64 * bool := parseFloatBits 24 128 s.
Definition ParseFloat64 (s : string) : float64 * bool := parseFloatBits 53 1024 s.

End Strconv.

(* ================================================================== *)
(** ** fmt.Sprint on the dynamic values of the evaluators *)

Module Fmt.

Import GoStrings.

Definition digitChar (d : Z) : ascii := ascii_of_nat (Z.to_nat d + 48).

Fixpoint natDigits (fuel : nat) (n : Z) (acc : string) : string :=
  match fuel with
  | O => acc
  | S f =>
      let acc' := String (digitChar (n mod 10)) acc in
      if n <? 10 then acc' else natDigits f (n / 10) acc'
  end.

(** Decimal digits of a non-negative integer. *)
Definition formatNat (n : Z) : string := natDigits (S (Z.to_nat (Z.log2 n))) n "".

(** [fmt.Sprint] of an [int]. *)
Definition formatInt (n : Z) : string :=
  if n <? 0 then "-" ++ formatNat (- n) else formatNat n.

(** Comparison of c * 10^j with the rational n/d (d > 0). *)
Definition cmpDec (c j n d : Z) : comparison :=
  if 0 <=? j then Z.compare (c * 10 ^ j * d) n
  else Z.compare (c * d) (n * 10 ^ (- j)).

(** The greatest k with 10^k <= n/d, searched upwards from an
    under-estimate. *)
Fixpoint log10Up (fuel : nat) (k n d : Z) : Z :=
  match fuel with
  | O => k
  | S f =>
      match cmpDec 1 (k + 1) n d with
      | Gt => k
      | _ => log10Up f (k + 1) n d
      end
  end.

Definition floorLog10 (n d : Z) : Z :=
  let k0 := (Z.log2 n - Z.log2 d - 1) * 30102 / 100000 - 1 in
  log10Up 8 k0 n d.

(** floor ((n/d) / 10^j) *)
Definition floorDec (n d j : Z) : Z :=
  if 0 <=? j then n / (d * 10 ^ j) else (n * 10 ^ (- j)) / d.

Definition inside (incl : bool) (c j ln un d : Z) : bool :=
  match cmpDec c j ln d, cmpDec c j un d with
  | Gt, Lt => true
  | Eq, (Lt | Eq) => incl
  | Gt, Eq => incl
  | _, _ => false
  end.

(** Shortest decimal that reads back as the value f = fn/d whose rounding
    interval is [ln/d, un/d]: the first digit count with a candidate
    inside the interval, and of two candidates the nearer to f. *)
Fixpoint shortestLoop (fuel : nat) (ndig k : Z) (incl : bool) (fn ln un d : Z) : Z * Z :=
  let j := k - ndig + 1 in
  let lo := floorDec fn d j in
  let hi := lo + 1 in
  let okLo := inside incl lo j ln un d in
  let okHi := inside incl hi j ln un d in
  let pick :=
    if okLo && okHi then
      (* distance to lo against distance to hi: compare 2f with lo+hi *)
      match cmpDec (lo + hi) j (2 * fn) d with
      | Gt => Some lo
      | Lt => Some hi
      | Eq => Some (if Z.even lo then lo else hi)
      end
    else if okLo then Some lo
    else if okHi then Some hi
    else None in
  match pick with
  | Some c => (c, j)
  | None =>
      match fuel with
      | O => (lo, j)
      | S f => shortestLoop f (ndig + 1) k incl fn ln un d
      end
  end.

Fixpoint stripZeros (fuel : nat) (c j : Z) : Z * Z :=
  match fuel with
  | O => (c, j)
  | S f => if (c mod 10 =? 0) && negb (c =? 0) then stripZeros f (c / 10) (j + 1) else (c, j)
  end.

(** Digits and decimal point of the shortest representation of the
    positive binary64 value m * 2^e: the value is 0.d1d2...dn * 10^dp. *)
Definition shortest (m : positive) (e : Z) : string * Z :=
  let boundary := (Pos.eqb m (2 ^ 52)%positive) && (-1074 <? e) in
  let fn4 := 4 * Zpos m in
  let ln4 := if boundary then fn4 - 1 else fn4 - 2 in
  let un4 := fn4 + 2 in
  let e4 := e - 2 in
  let '(fn, ln, un, d) :=
    if 0 <=? e4 then (fn4 * 2 ^ e4, ln4 * 2 ^ e4, un4 * 2 ^ e4, 1)
    else (fn4, ln4, un4, 2 ^ (- e4)) in
  let k := floorLog10 fn d in
  let '(c0, j0) := shortestLoop 20 1 k (Z.even (Zpos m)) fn ln un d in
  let '(c, j) := stripZeros 20 c0 j0 in
  let ds := formatNat c in
  (ds, len ds + j).

Fixpoint zeros (n : nat) : string :=
  match n with
  | O => ""
  | S n' => String "0" (zeros n')
  end.

(** The [%e] form of strconv with the shortest digits. *)
Definition fmtE (ds : string) (dp : Z) : string :=
  let ex := dp - 1 in
  let head := match ds with
              | String c EmptyString => str1 c
              | String c rest => String c (String "." rest)
              | EmptyString => "0"
              end in
  let ea := Z.abs ex in
  head ++ "e" ++ (if ex <? 0 then "-" else "+")
       ++ (if ea <? 10 then "0" else "") ++ formatNat ea.

(** The [%f] form of strconv with the shortest digits. *)
Definition fmtF (ds : string) (dp : Z) : string :=
  let n := len ds in
  let ip :=
    if 0 <? dp then
      firstn (Z.to_nat (Z.min n dp)) ds ++ zeros (Z.to_nat (dp - n))
    else "0" in
  let fracLen := Z.max (n - dp) 0 in
  if fracLen =? 0 then ip
  else ip ++ "." ++ zeros (Z.to_nat (Z.min fracLen (- dp)))
          ++ skipn (Z.to_nat (Z.max dp 0)) ds.

(** [fmt.Sprint] of a [float64]: the verb [%v], that is [%g] with the
    shortest digits, in exponent form when the decimal exponent is below
    -4 or at least 6. *)
Definition formatFloat (x : float64) : string :=
  match x with
  | S754_nan => "NaN"
  | S754_infinity s => if s then "-Inf" else "+Inf"
  | S754_zero s => if s then "-0" else "0"
  | S754_finite s m e =>
      let '(ds, dp) := shortest m e in
      let ex := dp - 1 in
      (if s then "-" else "")
        ++ (if (ex <? -4) || (6 <=? ex) then fmtE ds dp else fmtF ds dp)
  end.

End Fmt.

(* ================================================================== *)
(** ** Kinds and values (lexer and parser declarations) *)

(** [keyKind]: the kinds of lexer items. *)
Inductive keyKind : Type :=
| keyNIL | keyEOF | keyTab | keyError | keyComment | keyAttrDef
| keyBlockStart | keyBlockEnd | keyAttrCall | keyString | keyMultiString
| keyInt | keyFloat | keyBool | keyArrayStart | keyArrayEnd | keyArrayElem
| keyArithmetic | keyComparison | keyCondition | keyFunction.

Definition keyKind_eqb (a b : keyKind) : bool :=
  match a, b with
  | keyNIL, keyNIL | keyEOF, keyEOF | keyTab, keyTab | keyError, keyError
  | keyComment, keyComment | keyAttrDef, keyAttrDef
  | keyBlockStart, keyBlockStart | keyBlockEnd, keyBlockEnd
  | keyAttrCall, keyAttrCall | keyString, keyString
  | keyMultiString, keyMultiString | keyInt, keyInt | keyFloat, keyFloat
  | keyBool, keyBool | keyArrayStart, keyArrayStart
  | keyArrayEnd, keyArrayEnd | keyArrayElem, keyArrayElem
  | keyArithmetic, keyArithmetic | keyComparison, keyComparison
  | keyCondition, keyCondition | keyFunction, keyFunction => true
  | _, _ => false
  end.

(** [attrKind]: the kinds of attributes. *)
Inductive attrKind : Type :=
| attrNIL | attrString | attrInt | attrFloat | attrBool | attrArray
| attrArithmetic | attrComparison | attrCondition | attrFunction.

(** The dynamic values ([interface{}]) stored in attributes. *)
#[warnings="-register-all"]
Inductive value : Type :=
| VNil
| VString (s : string)
| VInt (n : Z)
| VFloat (f : float64)
| VBool (b : bool)
| VArray (l : list value).

(** [keyKindStr] *)
Definition keyKindStr (k : keyKind) : string :=
  match k with
  | keyNIL => "NULL"
  | keyEOF => "EOF"
  | keyTab => "TAB"
  | keyError => "ERROR"
  | keyComment => "comment"
  | keyAttrDef => "attribute definition"
  | keyBlockStart => "block start"
  | keyBlockEnd => "block end"
  | keyAttrCall => "attribute call"
  | keyString => "string"
  | keyMultiString => "multiline string"
  | keyInt => "int"
  | keyFloat => "float"
  | keyBool => "boolean"
  | keyArrayStart => "array start"
  | keyArrayEnd => "array end"
  | keyArrayElem => "array element"
  | keyArithmetic => "arithmetic operation"
  | keyComparison => "comparison"
  | keyCondition => "condition"
  | keyFunction => "unknown"
  end.

(** [keyKindToAttrKind] *)
Definition keyKindToAttrKind (k : keyKind) : attrKind :=
  match k with
  | keyString => attrString
  | keyMultiString => attrString
  | keyInt => attrInt
  | keyFloat => attrFloat
  | keyBool => attrBool
  | keyArrayStart => attrArray
  | keyArrayElem => attrArray
  | keyArithmetic => attrArithmetic
  | keyComparison => attrComparison
  | keyCondition => attrCondition
  | keyFunction => attrFunction
  | _ => attrNIL
  end.

(* ================================================================== *)
(** ** Helpers of the package *)

Import GoStrings.

(** [equalsToMany] *)
Definition equalsToMany (target : string) (values : list string) : bool :=
  existsb (fun val => String.eqb (TrimSpace target) (TrimSpace val)) values.

(** [hasPrefixToMany] *)
Definition hasPrefixToMany (target : string) (values : list string) : bool :=
  existsb (fun val => HasPrefix (TrimSpace target) (TrimSpace val)) values.

(** Elements of the [[]interface{}] arrays of the evaluators. *)
Inductive dyn : Type :=
| DInt (n : Z)
| DFloat (f : float64)
| DStr (s : string).

(** [fmt.Sprint] of such an element. *)
Definition Sprint (d : dyn) : string :=
  match d with
  | DInt n => Fmt.formatInt n
  | DFloat f => Fmt.formatFloat f
  | DStr s => s
  end.

(** The index expression [l[i]] on a slice. *)
Definition idx {A : Type} (l : list A) (i : Z) : result A :=
  if (0 <=? i) && (i <? Z.of_nat (List.length l))
  then match nth_error l (Z.to_nat i) with
       | Some a => Ok a
       | None => Panic IndexOutOfRange
       end
  else Panic IndexOutOfRange.

(** The slice expression [l[a:]]. *)
Definition sliceFromL {A : Type} (l : list A) (a : Z) : result (list A) :=
  if (0 <=? a) && (a <=? Z.of_nat (List.length l))
  then Ok (List.skipn (Z.to_nat a) l)
  else Panic SliceBoundsOutOfRange.

(** The assignment [l[0] = x]. *)
Definition set0 {A : Type} (l : list A) (x : A) : result (list A) :=
  match l with
  | [] => Panic IndexOutOfRange
  | _ :: t => Ok (x :: t)
  end.

Definition lenL {A : Type} (l : list A) : Z := Z.of_nat (List.length l).

(* ================================================================== *)
(** ** The value transformer (parser_items.go, parser_functions.go) *)

Import Strconv.

Definition quote : ascii := Eval cbv in ascii_of_nat 34.
Definition tabChar : ascii := Eval cbv in ascii_of_nat 9.
Definition nlChar : ascii := Eval cbv in ascii_of_nat 10.
Definition backslash : string := Eval cbv in String (ascii_of_nat 92) EmptyString.

Definition arithSymbols : list string := ["+"; "-"; "*"; "/"].

(** The inner loop of the evaluators that looks for #<code>endOfElem</code>#:
    the first index j > i whose character matches one of [seps] (as
    [equalsToMany] matches), 0 when there is none. *)
Fixpoint endOfElemLoop (seps : list string) (rest : string) (j i : Z) : Z :=
  match rest with
  | EmptyString => 0
  | String c rest' =>
      if (i <? j) && equalsToMany (str1 c) seps then j
      else endOfElemLoop seps rest' (j + 1) i
  end.

Definition findEndOfElem (seps : list string) (item : string) (i : Z) : Z :=
  endOfElemLoop seps item 0 i.

(** *** transformItemMultiString *)

Fixpoint multiStringLoop (item : string) (rest : string) (i : Z)
    (found : bool) (start : Z) (acc : list string) : result (list string) :=
  match rest with
  | EmptyString => Ok acc
  | String c rest' =>
      let isSep := Ascii.eqb c tabChar || Ascii.eqb c nlChar in
      if found && isSep then
        do s <- slice item start (i - 2) ;;
        multiStringLoop item rest' (i + 1) false start (acc ++ [s])
      else if found && (i =? len item - 1) then
        do s <- slice item start i ;;
        multiStringLoop item rest' (i + 1) false start (acc ++ [s])
      else if negb found && negb isSep then
        multiStringLoop item rest' (i + 1) true i acc
      else multiStringLoop item rest' (i + 1) found start acc
  end.

Definition transformItemMultiString (item : string) : result value :=
  do multiStrItems <- multiStringLoop item item 0 false 0 [] ;;
  Ok (VString (Join (map (fun s => Trim s quote) multiStrItems) " ")).

(** *** transformItemArithmetic *)

Record arithScan : Type := mkArithScan {
  arithArray : list dyn;
  hasFloat : bool;
  skipItem : Z
}.

(** The number read at position i: the text up to the next separator for
    the first element, the rest of the item otherwise. *)
Definition arithNumberText (item : string) (i : Z) (arr : list dyn) : result (string * Z) :=
  match arr with
  | [] =>
      let endOfElem := findEndOfElem (" " :: arithSymbols) item i in
      do s <- slice item i endOfElem ;;
      Ok (s, len s - 1)
  | _ =>
      do s <- sliceFrom item i ;;
      Ok (s, len s)
  end.

Definition arithParseNumber (text : string) : result (dyn * bool) :=
  match Atoi text with
  | Some n => Ok (DInt n, false)
  | None =>
      match ParseFloat32 text with
      | (f, true) => Ok (DFloat f, true)
      | (_, false) =>
          Panic (ParserError "value in arithmetic operation is not a number")
      end
  end.

Fixpoint arithLoop (item : string) (rest : string) (i : Z) (st : arithScan)
    : result arithScan :=
  match rest with
  | EmptyString => Ok st
  | String v rest' =>
      if negb (skipItem st =? 0) then
        arithLoop item rest' (i + 1)
          (mkArithScan (arithArray st) (hasFloat st) (skipItem st - 1))
      else if Ascii.eqb v " " then arithLoop item rest' (i + 1) st
      else if equalsToMany (str1 v) arithSymbols then
        match arithArray st with
        | [] => Panic (ParserError "arithmetic operation is missing values")
        | first :: _ =>
            if equalsToMany (Sprint first) arithSymbols
            then Panic (ParserError "arithmetic operation is missing values")
            else arithLoop item rest' (i + 1)
                   (mkArithScan (arithArray st ++ [DStr (str1 v)]) (hasFloat st) (skipItem st))
        end
      else
        do (text, skip) <- arithNumberText item i (arithArray st) ;;
        do (numberVal, isFloat) <- arithParseNumber text ;;
        do _ <- (if 2 <=? lenL (arithArray st) then
                   do lastElem <- idx (arithArray st) (lenL (arithArray st) - 1) ;;
                   if equalsToMany (Sprint lastElem) arithSymbols then Ok tt
                   else Panic (ParserError
                     "arithmetic operation value must be preceeded by operation symbol")
                 else Ok tt) ;;
        arithLoop item rest' (i + 1)
          (mkArithScan (arithArray st ++ [numberVal]) (hasFloat st || isFloat) skip)
  end.

(** One binary operation of a pass: the operands are printed and parsed
    again at 32 bits, errors ignored; [result] stays 0 when the element is
    neither symbol. *)
Record arithOps : Type := mkArithOps {
  sym1 : string;
  op1 : float64 -> float64 -> float64;
  sym2 : string;
  op2 : float64 -> float64 -> float64
}.

Definition mulDiv : arithOps := mkArithOps "*" F64.mul "/" F64.div.
Definition addSub : arithOps := mkArithOps "+" F64.add "-" F64.sub.

Definition arithApply (o : arithOps) (v a b : dyn) : float64 :=
  let val1 := fst (ParseFloat32 (Sprint a)) in
  let val2 := fst (ParseFloat32 (Sprint b)) in
  match v with
  | DStr s =>
      if String.eqb s (sym1 o) then op1 o val1 val2
      else if String.eqb s (sym2 o) then op2 o val1 val2
      else F64.zero
  | _ => F64.zero
  end.

(** A pass over [source] (the slice that is ranged over and read) that
    rewrites [work]: at each symbol of the pass, [work = work[i+1:]] and
    [work[0] = result]. *)
Fixpoint arithPass (o : arithOps) (source : list dyn) (rest : list dyn)
    (i : Z) (work : list dyn) : result (list dyn) :=
  match rest with
  | [] => Ok work
  | v :: rest' =>
      if equalsToMany (Sprint v) [sym1 o; sym2 o] then
        do a <- idx source (i - 1) ;;
        do b <- idx source (i + 1) ;;
        do w1 <- sliceFromL work (i + 1) ;;
        do w2 <- set0 w1 (DFloat (arithApply o v a b)) ;;
        arithPass o source rest' (i + 1) w2
      else arithPass o source rest' (i + 1) work
  end.

Definition transformItemArithmetic (item : string) : result value :=
  do st <- arithLoop item item 0 (mkArithScan [] false 0) ;;
  let arithmeticArrayOriginal := arithArray st in
  let printed := map (fun v => DStr (Sprint v)) arithmeticArrayOriginal in
  do arithmeticArrayFirstOperations <-
     arithPass mulDiv arithmeticArrayOriginal arithmeticArrayOriginal 0 printed ;;
  do arithmeticArrayOperations <-
     arithPass addSub arithmeticArrayFirstOperations arithmeticArrayFirstOperations 0
       arithmeticArrayFirstOperations ;;
  if 1 <? lenL arithmeticArrayOperations
  then Panic (ParserError "extra values in arithmetic operation")
  else
    do r <- idx arithmeticArrayOperations 0 ;;
    if negb (hasFloat st)
    then Ok (VInt (fst (AtoiFull (Sprint r))))
    else Ok (VFloat (fst (ParseFloat32 (Sprint r)))).

(** *** transformItemComparison *)

Definition compareStarts : list string := ["="; "!"; ">"; "<"].

Record compScan : Type := mkCompScan {
  comparisonArray : list string;
  skipNext : bool
}.

Fixpoint compLoop (item : string) (rest : string) (i : Z) (st : compScan)
    : result compScan :=
  match rest with
  | EmptyString => Ok st
  | String v rest' =>
      if Ascii.eqb v " " then compLoop item rest' (i + 1) st
      else if skipNext st then
        compLoop item rest' (i + 1) (mkCompScan (comparisonArray st) false)
      else if equalsToMany (str1 v) compareStarts then
        do nextChar <- index item (i + 1) ;;
        let itemRange := if Ascii.eqb nextChar "=" then 2 else 1 in
        match comparisonArray st with
        | [] => Panic (ParserError "comparison operation is missing values")
        | _ =>
            do s <- slice item i (i + itemRange) ;;
            compLoop item rest' (i + 1)
              (mkCompScan (comparisonArray st ++ [s]) (Ascii.eqb nextChar "="))
        end
      else
        if lenL (comparisonArray st) =? 0 then
          let endOfElem := findEndOfElem (" " :: compareStarts) item i in
          do s <- slice item i endOfElem ;;
          compLoop item rest' (i + 1) (mkCompScan (comparisonArray st ++ [s]) (skipNext st))
        else if (1 <? lenL (comparisonArray st)) && (lenL (comparisonArray st) <? 3) then
          do s <- sliceFrom item i ;;
          compLoop item rest' (i + 1) (mkCompScan (comparisonArray st ++ [s]) (skipNext st))
        else compLoop item rest' (i + 1) st
  end.

(** The part of [transformItemComparison] after the scan. *)
Definition compEval (arr : list string) : result value :=
  if 3 <? lenL arr
  then Panic (ParserError "comparison attributes can only compare 2 items")
  else
    do a <- idx arr 0 ;;
    do b <- idx arr 2 ;;
    do cmp <- idx arr 1 ;;
    let numeric :=
      match ParseFloat32 a, ParseFloat32 b with
      | (val1Float, true), (val2Float, true) =>
          if String.eqb cmp "==" then Ok (VBool (F64.eqb val1Float val2Float))
          else if String.eqb cmp "!=" then Ok (VBool (negb (F64.eqb val1Float val2Float)))
          else if String.eqb cmp ">" then Ok (VBool (F64.ltb val2Float val1Float))
          else if String.eqb cmp ">=" then Ok (VBool (F64.leb val2Float val1Float))
          else if String.eqb cmp "<" then Ok (VBool (F64.ltb val1Float val2Float))
          else if String.eqb cmp "<=" then Ok (VBool (F64.leb val1Float val2Float))
          else Ok (VBool false)
      | _, _ => Panic (ParserError "can only compare boolean or numerical values")
      end in
    match ParseBool a, ParseBool b with
    | None, None => numeric
    | checkVal1, checkVal2 =>
        if negb (equalsToMany cmp ["=="; "!="])
        then Panic (ParserError "booleans cannot be compared by this symbol")
        else
          match checkVal1, checkVal2 with
          | Some val1Bool, Some val2Bool =>
              if String.eqb cmp "==" then Ok (VBool (Bool.eqb val1Bool val2Bool))
              else if String.eqb cmp "!=" then Ok (VBool (negb (Bool.eqb val1Bool val2Bool)))
              else numeric
          | _, _ =>
              Panic (ParserError "cannot compare boolean value to numerical value")
          end
    end.

Definition transformItemComparison (item : string) : result value :=
  do st <- compLoop item item 0 (mkCompScan [] false) ;;
  compEval (comparisonArray st).

(** *** The built-in functions (parser_functions.go) *)

(** [stringFunctions] *)
Definition stringFunctions (funcName : string) (funcParams : list string) : result value :=
  let stringValues := map (fun v => Trim (TrimSpace v) quote) funcParams in
  if String.eqb funcName "upper" then
    do a <- idx stringValues 0 ;; Ok (VString (ToUpper a))
  else if String.eqb funcName "lower" then
    do a <- idx stringValues 0 ;; Ok (VString (ToLower a))
  else if String.eqb funcName "append" then
    do a <- idx stringValues 0 ;; do b <- idx stringValues 1 ;; Ok (VString (a ++ b))
  else if String.eqb funcName "concat" then Ok VNil
  else if String.eqb funcName "contains" then
    do a <- idx stringValues 0 ;; do b <- idx stringValues 1 ;; Ok (VBool (Contains a b))
  else if String.eqb funcName "length" then
    do a <- idx stringValues 0 ;; Ok (VInt (len a))
  else Panic (ParserError "function is not implemented").

(** [gateLogicFunctions] *)
Fixpoint gateParams (funcParams : list string) : result (list bool) :=
  match funcParams with
  | [] => Ok []
  | v :: rest =>
      match ParseBool (TrimSpace v) with
      | None => Panic (ParserError "parameter in function is not a boolean")
      | Some valBool => do tl <- gateParams rest ;; Ok (valBool :: tl)
      end
  end.

Definition gateLogicFunctions (funcName : string) (funcParams : list string) : result value :=
  do boolParams <- gateParams funcParams ;;
  if String.eqb funcName "and" then
    do a <- idx boolParams 0 ;; do b <- idx boolParams 1 ;; Ok (VBool (Bool.eqb a b))
  else if String.eqb funcName "or" then
    do a <- idx boolParams 0 ;;
    if a then Ok (VBool true) else do b <- idx boolParams 1 ;; Ok (VBool b)
  else if String.eqb funcName "nand" then
    do a <- idx boolParams 0 ;; do b <- idx boolParams 1 ;; Ok (VBool (negb (Bool.eqb a b)))
  else if String.eqb funcName "nor" then
    do a <- idx boolParams 0 ;;
    if a then Ok (VBool false) else do b <- idx boolParams 1 ;; Ok (VBool (negb b))
  else if String.eqb funcName "xor" then
    do a <- idx boolParams 0 ;; do b <- idx boolParams 1 ;; Ok (VBool (negb (Bool.eqb a b)))
  else if String.eqb funcName "xnor" then
    do a <- idx boolParams 0 ;; do b <- idx boolParams 1 ;; Ok (VBool (Bool.eqb a b))
  else Panic (ParserError "function is not implemented").

Section Transformer.

(** [math.Pow], whose fractional exponents go through [math.Exp] and
    [math.Log]: the transformer is defined for any implementation, and
    evaluated with [powInt] below. *)
Variable math_Pow : float64 -> float64 -> float64.

(** The rounding shared by the float literal, the array elements and the
    numeric parameters:
    [precision := math.Pow(10, float64(len(text)-1))] and
    [math.Round(val*precision) / precision]. *)
Definition roundToTextLength (text : string) (val : float64) : float64 :=
  let precision := math_Pow (F64.ofZ 10) (F64.ofZ (len text - 1)) in
  F64.div (F64.Round (F64.mul val precision)) precision.

(** [numericalFunctions] *)
Fixpoint numericParams (funcParams : list string) : list float64 * bool :=
  match funcParams with
  | [] => ([], false)
  | v :: rest =>
      let '(tl, hasInt) := numericParams rest in
      let t := TrimSpace v in
      let isInt := match Atoi t with Some _ => true | None => false end in
      let p := match ParseFloat32 t with
               | (valFloat, true) => roundToTextLength t valFloat
               | (_, false) => F64.zero
               end in
      (p :: tl, isInt || hasInt)
  end.

Definition numericResult (hasInt : bool) (r : float64) : value :=
  if hasInt then VInt (F64.toInt r) else VFloat r.

Definition numericalFunctions (funcName : string) (funcParams : list string) : result value :=
  let '(floatParams, hasInt) := numericParams funcParams in
  if String.eqb funcName "power" then
    do a <- idx floatParams 0 ;; do b <- idx floatParams 1 ;;
    Ok (numericResult hasInt (math_Pow a b))
  else if String.eqb funcName "floor" then
    do a <- idx floatParams 0 ;; do b <- idx floatParams 1 ;;
    Ok (numericResult hasInt (F64.Floor (F64.div a b)))
  else if String.eqb funcName "remainder" then
    do a <- idx floatParams 0 ;; do b <- idx floatParams 1 ;;
    Ok (numericResult hasInt (F64.Mod a b))
  else Panic (ParserError "function is not implemented").

(** *** transformItemFunction *)

(** Index of the first comma at or after [funcNameIndex]. *)
Fixpoint firstComma (rest : string) (i funcNameIndex : Z) : option Z :=
  match rest with
  | EmptyString => None
  | String v rest' =>
      if i <? funcNameIndex then firstComma rest' (i + 1) funcNameIndex
      else if Ascii.eqb v "," then Some i
      else firstComma rest' (i + 1) funcNameIndex
  end.

Definition transformItemFunction (item : string) : result value :=
  let funcNameIndex := Index item "(" in
  do name <- slice item 0 funcNameIndex ;;
  let funcName := TrimSpace name in
  do funcParams <-
     (if equalsToMany funcName ["upper"; "lower"; "length"] then
        do p <- slice item (funcNameIndex + 1) (len item - 1) ;; Ok [p]
      else
        match firstComma item 0 funcNameIndex with
        | None => Ok []
        | Some i =>
            do p1 <- slice item (funcNameIndex + 1) i ;;
            do p2 <- slice item (i + 1) (len item - 1) ;;
            Ok [p1; p2]
        end) ;;
  if equalsToMany funcName ["upper"; "lower"; "append"; "concat"; "contains"; "length"]
  then stringFunctions funcName funcParams
  else if equalsToMany funcName ["power"; "floor"; "remainder"]
  then numericalFunctions funcName funcParams
  else if equalsToMany funcName ["and"; "or"; "nand"; "nor"; "xor"; "xnor"]
  then gateLogicFunctions funcName funcParams
  else Panic (ParserError "function is not implemented").

(** *** transformItemArray *)

Definition transformArrayElem (elem : string) : value :=
  match Atoi elem with
  | Some valInt => VInt valInt
  | None =>
      match ParseFloat32 elem with
      | (valFloat, true) => VFloat (roundToTextLength elem valFloat)
      | (_, false) =>
          match ParseBool elem with
          | Some valBool => VBool valBool
          | None => VString (Trim elem quote)
          end
      end
  end.

Definition transformItemArray (item : string) : result value :=
  let item1 := TrimRight (TrimLeft item "[") "]" in
  do freeElems <- sliceFromL (Split item1 ", ") 1 ;;
  Ok (VArray (map transformArrayElem freeElems)).

(** *** transformItem *)

Definition transformItem (item : string) (kind : keyKind) : result value :=
  match kind with
  | keyString => Ok (VString (Trim item quote))
  | keyMultiString => transformItemMultiString item
  | keyInt =>
      match Atoi item with
      | Some val => Ok (VInt val)
      | None => Panic (ParserError "non int item tried to be parsed as int")
      end
  | keyFloat =>
      match ParseFloat32 item with
      | (val, true) => Ok (VFloat (roundToTextLength item val))
      | (_, false) => Panic (ParserError "non float item tried to be parsed as float")
      end
  | keyBool =>
      match ParseBool item with
      | Some val => Ok (VBool val)
      | None => Panic (ParserError "non boolean item tried to be parsed as boolean")
      end
  | keyArrayStart | keyArrayElem => transformItemArray item
  | keyArithmetic => transformItemArithmetic item
  | keyComparison => transformItemComparison item
  | keyCondition => Ok VNil
  | keyFunction => transformItemFunction item
  | _ => Panic (ParserError "unknown item kind")
  end.

End Transformer.

(** [math.Pow x y] for an exponent that is a non-negative integer: the
    correctly rounded power, exact whenever the power is a binary64 value
    (as 10^n is up to n = 22).  Other exponents are outside this
    definition and give NaN. *)
Definition powInt (x y : float64) : float64 :=
  match y with
  | S754_zero _ => F64.ofZ 1
  | S754_finite false m e =>
      let d := 2 ^ (- e) in
      let isInteger := (0 <=? e) || (Zpos m mod d =? 0) in
      let n := if 0 <=? e then Zpos m * 2 ^ e else Zpos m / d in
      if isInteger && (e <=? 12) && (n <=? 4096) then
        match x with
        | S754_finite s mx ex =>
            let neg := s && Z.odd n in
            let p := Zpos mx ^ n in
            F64.ofZ2 (if neg then - p else p) (ex * n) neg
        | S754_zero s => S754_zero (s && Z.odd n)
        | S754_infinity s => S754_infinity (s && Z.odd n)
        | S754_nan => F64.NaN
        end
      else F64.NaN
  | _ => F64.NaN
  end.

(* ================================================================== *)
(** ** The lexer *)

(** A [[]string] slice: its elements, and the part of its backing array
    beyond its length, which a slice expression may still reach. *)
Record strSlice : Type := mkSlice {
  elems : list string;
  slack : list string
}.

Definition sliceLen (s : strSlice) : Z := lenL (elems s).
Definition sliceCap (s : strSlice) : Z := lenL (elems s) + lenL (slack s).

(** The slice expression [s[a:b]]: panics unless [0 <= a <= b <= cap s]. *)
Definition subSlice (s : strSlice) (a b : Z) : result (list string) :=
  if (0 <=? a) && (a <=? b) && (b <=? sliceCap s)
  then Ok (List.firstn (Z.to_nat (b - a)) (List.skipn (Z.to_nat a) (elems s ++ slack s)))
  else Panic SliceBoundsOutOfRange.

Record position : Type := mkPosition {
  Line : Z;
  Start : Z;
  Length : Z
}.

Record prototype : Type := mkProto {
  proto_kind : keyKind;
  proto_value : list string;
  proto_position : position
}.

Record item : Type := mkItem {
  item_kind : keyKind;
  item_value : string;
  item_position : position
}.

Record lexer : Type := mkLexer {
  input : strSlice;
  items : list item;
  proto : prototype;
  currentLine : Z;
  currentByteIndex : Z;
  currentByte : string;
  lastEOL : Z;
  atEOF : bool
}.

Definition zeroPosition : position := mkPosition 0 0 0.
Definition nilProto : prototype := mkProto keyNIL [] zeroPosition.

(** The zero [item{}]. *)
Definition zeroItem : item := mkItem keyNIL "" zeroPosition.

(** A prototype as the rules build it: only [Length] is set. *)
Definition protoOf (k : keyKind) (v : list string) (length : Z) : prototype :=
  mkProto k v (mkPosition 0 0 length).

Definition setProto (l : lexer) (p : prototype) : lexer :=
  mkLexer (input l) (items l) p (currentLine l) (currentByteIndex l)
    (currentByte l) (lastEOL l) (atEOF l).

Definition setAtEOF (l : lexer) : lexer :=
  mkLexer (input l) (items l) (proto l) (currentLine l) (currentByteIndex l)
    (currentByte l) (lastEOL l) true.

Definition newline : string := str1 nlChar.
Definition tabString : string := str1 tabChar.

(** [newLexer] *)
Definition newLexer (inp : strSlice) : result lexer :=
  do first <- idx (elems inp) 0 ;;
  Ok (mkLexer inp [] nilProto 1 0 first 0 false).

(** *** Peeking *)

(** The loops of the peek functions run over all of the input with the
    index i; [rest] is the input from index i on. *)
Fixpoint peekAndFindAfterLoop (rest : list string) (i cur after : Z) (key : string)
    : bool * Z :=
  match rest with
  | [] => (false, 0)
  | v :: rest' =>
      if (cur <? i) && (after <? i) then
        if String.eqb v newline && negb (String.eqb key newline) then (false, 0)
        else if String.eqb v key then (true, i)
        else peekAndFindAfterLoop rest' (i + 1) cur after key
      else peekAndFindAfterLoop rest' (i + 1) cur after key
  end.

(** [peekAndFindAfter] *)
Definition peekAndFindAfter (l : lexer) (key : string) (startLookingAfter : Z) : bool * Z :=
  peekAndFindAfterLoop (elems (input l)) 0 (currentByteIndex l) startLookingAfter key.

(** [peekAndFind] *)
Definition peekAndFind (l : lexer) (key : string) : bool * Z :=
  peekAndFindAfterLoop (elems (input l)) 0 (currentByteIndex l) (currentByteIndex l) key.

Fixpoint peekAndFindManyLoop (rest : list string) (i cur : Z) (keys : list string) : bool :=
  match rest with
  | [] => false
  | v :: rest' =>
      if cur <? i then
        if String.eqb v newline then false
        else if existsb (String.eqb v) keys then true
        else peekAndFindManyLoop rest' (i + 1) cur keys
      else peekAndFindManyLoop rest' (i + 1) cur keys
  end.

(** [peekAndFindMany] *)
Definition peekAndFindMany (l : lexer) (keys : list string) : bool :=
  peekAndFindManyLoop (elems (input l)) 0 (currentByteIndex l) keys.

Fixpoint peekEOLLoop (rest : list string) (i cur n : Z) : Z :=
  match rest with
  | [] => 0
  | v :: rest' =>
      if cur <? i then
        if String.eqb v newline then i
        else if i =? n - 1 then i
        else peekEOLLoop rest' (i + 1) cur n
      else peekEOLLoop rest' (i + 1) cur n
  end.

(** [peekEOL] *)
Definition peekEOL (l : lexer) : Z :=
  peekEOLLoop (elems (input l)) 0 (currentByteIndex l) (sliceLen (input l)).

Fixpoint peekCommentLoop (all rest : list string) (i cur after : Z) : result (bool * Z) :=
  match rest with
  | [] => Ok (false, 0)
  | v :: rest' =>
      if (cur <? i) && (after <? i) then
        if String.eqb v newline then Ok (false, 0)
        else if String.eqb v "/" then
          do nxt <- idx all (i + 1) ;;
          if String.eqb nxt "/" then Ok (true, i)
          else peekCommentLoop all rest' (i + 1) cur after
        else peekCommentLoop all rest' (i + 1) cur after
      else peekCommentLoop all rest' (i + 1) cur after
  end.

(** [peekComment] *)
Definition peekComment (l : lexer) (startLookingAfter : Z) : result (bool * Z) :=
  peekCommentLoop (elems (input l)) (elems (input l)) 0 (currentByteIndex l) startLookingAfter.

(** [peek] *)
Definition peek (l : lexer) : result string :=
  idx (elems (input l)) (currentByteIndex l + 1).

(** [previousByte] *)
Definition previousByte (l : lexer) : result string :=
  if currentByteIndex l =? 0 then Ok newline
  else idx (elems (input l)) (currentByteIndex l - 1).

(** [previousItem] *)
Definition previousItem (l : lexer) : result item :=
  idx (items l) (lenL (items l) - 1).

Fixpoint searchLoop (rest : list string) (i cur n firstIndex : Z) : Z * Z :=
  match rest with
  | [] => (firstIndex, 0)
  | v :: rest' =>
      if cur <=? i then
        let blank := String.eqb v " " || String.eqb v newline in
        let firstIndex' := if (firstIndex =? 0) && negb blank then i else firstIndex in
        if negb (firstIndex' =? 0) && blank then (firstIndex', i)
        else if i =? n - 1 then (firstIndex', i + 1)
        else searchLoop rest' (i + 1) cur n firstIndex'
      else searchLoop rest' (i + 1) cur n firstIndex
  end.

(** [searchNonWhitespacedValue] *)
Definition searchNonWhitespacedValue (l : lexer) : result (string * Z * Z) :=
  let '(firstIndex, lastIndex) :=
    searchLoop (elems (input l)) 0 (currentByteIndex l) (sliceLen (input l)) 0 in
  if lastIndex =? 0 then Ok ("", 0, 0)
  else
    do v <- subSlice (input l) firstIndex lastIndex ;;
    Ok (TrimSpace (Join v ""), firstIndex, lastIndex).

(** *** next *)

Definition next (l : lexer) (whitespace eol : bool) : result lexer :=
  let items1 :=
    match proto_kind (proto l) with
    | keyNIL => items l
    | k =>
        (items l ++
          [mkItem k (TrimSpace (Join (proto_value (proto l)) ""))
             (mkPosition (currentLine l) (currentByteIndex l)
                (Length (proto_position (proto l))))])%list
    end in
  let proto1 :=
    match proto_kind (proto l) with
    | keyNIL => proto l
    | _ => nilProto
    end in
  do lastItem <- idx items1 (lenL items1 - 1) ;;
  let lastItemLastByte := Start (item_position lastItem) + Length (item_position lastItem) in
  if lastItemLastByte =? sliceLen (input l) + 1
  then Panic (LexerError "next called at EOF")
  else
    let line1 := if eol then currentLine l + 1 else currentLine l in
    let eol1 := if eol then snd (peekAndFind l newline) else lastEOL l in
    let eof1 := atEOF l || (currentByteIndex l =? sliceLen (input l) - 1) in
    if eof1 then
      Ok (mkLexer (input l) items1 proto1 line1 (currentByteIndex l)
            (currentByte l) eol1 true)
    else
      let index1 := if whitespace then currentByteIndex l + 1 else lastItemLastByte + 1 in
      if index1 =? sliceLen (input l) then
        Ok (mkLexer (input l) items1 proto1 line1 index1 (currentByte l) eol1 true)
      else
        do b <- idx (elems (input l)) index1 ;;
        Ok (mkLexer (input l) items1 proto1 line1 index1 b eol1 false).

(** *** The rules *)

(** A rule returns whether it matched, with the lexer it leaves. *)
Definition rule : Type := lexer -> result (bool * lexer).

Definition noMatch (l : lexer) : result (bool * lexer) := Ok (false, l).

(** Sets the prototype and calls [next]. *)
Definition emit (l : lexer) (p : prototype) (whitespace eol : bool) : result (bool * lexer) :=
  do l' <- next (setProto l p) whitespace eol ;;
  Ok (true, l').

Definition prevKindIs (l : lexer) (k : keyKind) : result bool :=
  do it <- previousItem l ;; Ok (keyKind_eqb (item_kind it) k).

(** [lexEOL] *)
Definition lexEOL : rule := fun l =>
  if String.eqb (currentByte l) newline && negb (currentByteIndex l =? 0)
  then do l' <- next l true true ;; Ok (true, l')
  else noMatch l.

(** [lexTab] *)
Definition lexTab : rule := fun l =>
  do s <- subSlice (input l) (currentByteIndex l) (currentByteIndex l + 3) ;;
  let next4Characters := Join s "" in
  if String.eqb next4Characters "    " then
    do l1 <- next l true false ;;
    do l2 <- next l1 true false ;;
    do l3 <- next l2 true false ;;
    do l4 <- next l3 true false ;;
    Ok (true, l4)
  else noMatch l.

(** [lexEOF] *)
Definition lexEOF : rule := fun l =>
  if currentByteIndex l =? sliceLen (input l) - 1
  then Ok (false, setAtEOF l)
  else noMatch l.

(** [lexWhitespace] *)
Definition lexWhitespace : rule := fun l =>
  if String.eqb (currentByte l) " "
  then do l' <- next l true false ;; Ok (true, l')
  else noMatch l.

(** [lexComment] *)
Definition lexComment : rule := fun l =>
  if negb (String.eqb (currentByte l) "/") then noMatch l
  else
    do p <- peek l ;;
    if negb (String.eqb p "/") then noMatch l
    else
      let nextEOL := peekEOL l in
      do v <- subSlice (input l) (currentByteIndex l) nextEOL ;;
      emit l (protoOf keyComment v (nextEOL - currentByteIndex l)) false true.

(** The loop of [lexAttributeDef] over the characters since the last end
    of line: [false] when one of them is not a space. *)
Fixpoint onlySpacesLoop (rest : list string) (i lo hi : Z) : bool :=
  match rest with
  | [] => true
  | c :: rest' =>
      if (lo <? i) && (i <? hi) && negb (String.eqb c " ") then false
      else onlySpacesLoop rest' (i + 1) lo hi
  end.

(** [lexAttributeDef] *)
Definition lexAttributeDef : rule := fun l =>
  do afterDef <-
     (if negb (lenL (items l) =? 0) then prevKindIs l keyAttrDef else Ok false) ;;
  if afterDef then noMatch l
  else
    do pb <- previousByte l ;;
    if negb (String.eqb pb newline)
       && negb (onlySpacesLoop (elems (input l)) 0 (lastEOL l) (currentByteIndex l))
    then noMatch l
    else
      let '(hasEqual, equalIndex) := peekAndFind l "=" in
      if negb hasEqual then noMatch l
      else
        do v <- subSlice (input l) (currentByteIndex l) equalIndex ;;
        emit l (protoOf keyAttrDef v (equalIndex - currentByteIndex l)) false false.

(** [lexArrayStart] *)
Definition lexArrayStart : rule := fun l =>
  do isDef <- prevKindIs l keyAttrDef ;;
  if negb isDef then noMatch l
  else if String.eqb (currentByte l) (str1 quote) then noMatch l
  else
    let '(hasOpenBracket, openBracketIndex) :=
      if negb (String.eqb (currentByte l) "[") then peekAndFind l "["
      else (true, currentByteIndex l) in
    if negb hasOpenBracket then noMatch l
    else
      do v <- subSlice (input l) (currentByteIndex l) openBracketIndex ;;
      emit l (protoOf keyArrayStart v (openBracketIndex - currentByteIndex l)) false false.

Definition afterArrayItem (l : lexer) : result bool :=
  do it <- previousItem l ;;
  Ok (keyKind_eqb (item_kind it) keyArrayStart || keyKind_eqb (item_kind it) keyArrayElem).

(** [lexArrayEnd] *)
Definition lexArrayEnd : rule := fun l =>
  do inArray <- afterArrayItem l ;;
  if negb inArray then noMatch l
  else if String.eqb (currentByte l) (str1 quote) then noMatch l
  else if fst (peekAndFind l ",") then noMatch l
  else
    let '(hasCloseBracket, closeIndex) :=
      if negb (String.eqb (currentByte l) "]") then peekAndFind l "]"
      else (true, currentByteIndex l) in
    if negb hasCloseBracket then noMatch l
    else if peekEOL l <? closeIndex then noMatch l
    else
      do v <- subSlice (input l) (currentByteIndex l) closeIndex ;;
      emit l (protoOf keyArrayEnd v (closeIndex - currentByteIndex l)) false false.

(** [lexArrayElem] *)
Definition lexArrayElem : rule := fun l =>
  do inArray <- afterArrayItem l ;;
  if negb inArray then noMatch l
  else
    let '(hasComma, commaIndex) := peekAndFind l "," in
    let '(hasEndOfElem, endOfArrayElem0, lengthModifier) :=
      if hasComma then (true, commaIndex, 0)
      else let '(hasBracket, bracketIndex) := peekAndFind l "]" in
           (hasBracket, bracketIndex, 1) in
    let endOfArrayElem := if hasEndOfElem then endOfArrayElem0 else peekEOL l in
    do v <- subSlice (input l) (currentByteIndex l) endOfArrayElem ;;
    emit l (protoOf keyArrayElem v (endOfArrayElem - currentByteIndex l - lengthModifier))
      false (negb hasEndOfElem).

(** [lexAttrCall] *)
Definition lexAttrCall : rule := fun l =>
  do isDef <- prevKindIs l keyAttrDef ;;
  if negb isDef then noMatch l
  else
    do (checkAttrCall, firstIndex, lastIndex) <- searchNonWhitespacedValue l ;;
    if String.eqb checkAttrCall "" then noMatch l
    else
      do v <- subSlice (input l) firstIndex lastIndex ;;
      emit l (protoOf keyAttrCall v (lastIndex - currentByteIndex l)) false false.

(** The opening quote of the two string rules.  The inner search declares
    a new [hasOpenQuote], so that the outer one stays [true], and the
    index moves only when a quote is found. *)
Definition openQuoteIndexOf (l : lexer) : Z :=
  if negb (String.eqb (currentByte l) (str1 quote)) then
    let '(hasOpenQuote, openQuoteQuoteSearch) := peekAndFind l (str1 quote) in
    if hasOpenQuote then openQuoteQuoteSearch else currentByteIndex l
  else currentByteIndex l.

(** [lexAttrString] *)
Definition lexAttrString : rule := fun l =>
  do isDef <- prevKindIs l keyAttrDef ;;
  if negb isDef then noMatch l
  else
    let openQuoteIndex := openQuoteIndexOf l in
    let '(hasCloseQuote, closeQuoteIndex) := peekAndFindAfter l (str1 quote) openQuoteIndex in
    if negb hasCloseQuote then noMatch l
    else
      do v <- subSlice (input l) openQuoteIndex (closeQuoteIndex + 1) ;;
      emit l (protoOf keyString v (closeQuoteIndex - currentByteIndex l)) false false.

(** Whether a backslash stands strictly between the indices lo and hi. *)
Fixpoint backslashBetween (rest : list string) (j lo hi : Z) : bool :=
  match rest with
  | [] => false
  | c :: rest' =>
      ((lo <? j) && (j <? hi) && String.eqb c backslash) || backslashBetween rest' (j + 1) lo hi
  end.

(** The search of [lexAttrMultiString] for the end of the last line. *)
Fixpoint finalEOLLoop (all rest : list string) (i cur : Z)
    (finalEOLIndex lastLineStartCharIndex lines : Z) : Z * Z :=
  match rest with
  | [] => (finalEOLIndex, lines)
  | v :: rest' =>
      if (cur <? i) && String.eqb v newline && (finalEOLIndex =? 0) then
        let lastLine := negb (backslashBetween all 0 lastLineStartCharIndex i) in
        finalEOLLoop all rest' (i + 1) cur (if lastLine then i else finalEOLIndex)
          (i + 1) (lines + 1)
      else finalEOLLoop all rest' (i + 1) cur finalEOLIndex lastLineStartCharIndex lines
  end.

Definition subList (l : list string) (a b : Z) : list string :=
  List.firstn (Z.to_nat (b - a)) (List.skipn (Z.to_nat a) l).

Definition allBlank (l : list string) : bool :=
  String.eqb (TrimSpace (Join l "")) "".

(** The rewriting of runs of spaces into a tab.  The loop ranges over the
    n elements of the first slice header while the variable is re-sliced
    to [curLen] elements of the same backing array: the two [append]s
    write the tab at i-1 and move the elements from i+3 down to i. *)
Fixpoint tabLoop (count : nat) (i : Z) (backing : list string) (curLen : Z)
    : result (list string * Z) :=
  match count with
  | O => Ok (backing, curLen)
  | S count' =>
      do v <- idx backing i ;;
      if (i <=? curLen - 4) && negb (String.eqb v newline)
         && allBlank (subList backing i (i + 3))
      then
        if i - 1 <? 0 then Panic SliceBoundsOutOfRange
        else
          let backing' :=
            (List.firstn (Z.to_nat (i - 1)) backing ++ [tabString]
               ++ subList backing (i + 3) curLen
               ++ List.skipn (Z.to_nat (curLen - 3)) backing)%list in
          tabLoop count' (i + 1) backing' (curLen - 3)
      else tabLoop count' (i + 1) backing curLen
  end.

(** [lexAttrMultiString] *)
Definition lexAttrMultiString : rule := fun l =>
  do isDef <- prevKindIs l keyAttrDef ;;
  if negb isDef then noMatch l
  else
    let openQuoteIndex := openQuoteIndexOf l in
    if negb (fst (peekAndFindAfter l (str1 quote) openQuoteIndex)) then noMatch l
    else if negb (fst (peekAndFindAfter l backslash openQuoteIndex)) then noMatch l
    else
      let '(finalEOLIndex, lines) :=
        finalEOLLoop (elems (input l)) (elems (input l)) 0 (currentByteIndex l)
          0 (currentByteIndex l + 1) 0 in
      if finalEOLIndex =? 0 then Panic (LexerError "multiline string is not closed")
      else
        do copied <- subSlice (input l) (currentByteIndex l) finalEOLIndex ;;
        do (backing, curLen) <- tabLoop (List.length copied) 0 copied (lenL copied) ;;
        let newMultilineStringValue := List.firstn (Z.to_nat curLen) backing in
        let l1 := mkLexer (input l) (items l)
                    (protoOf keyMultiString newMultilineStringValue
                       (finalEOLIndex - currentByteIndex l))
                    (currentLine l + lines) (currentByteIndex l) (currentByte l)
                    (lastEOL l) (atEOF l) in
        do l' <- next l1 false true ;;
        Ok (true, l').

(** The three literal rules share their shape: the run of non-blank
    characters must satisfy [accepts]. *)
Definition lexLiteral (k : keyKind) (accepts : string -> bool) (lengthFix : Z) : rule :=
  fun l =>
  do isDef <- prevKindIs l keyAttrDef ;;
  if negb isDef then noMatch l
  else
    do (text, firstIndex, lastIndex) <- searchNonWhitespacedValue l ;;
    if String.eqb text "" then noMatch l
    else if negb (accepts text) then noMatch l
    else
      do v <- subSlice (input l) firstIndex lastIndex ;;
      emit l (protoOf k v (lastIndex - lengthFix - currentByteIndex l)) false false.

(** [lexAttrInt] *)
Definition lexAttrInt : rule :=
  lexLiteral keyInt (fun s => match Atoi s with Some _ => true | None => false end) 0.

(** [lexAttrFloat] *)
Definition lexAttrFloat : rule :=
  lexLiteral keyFloat (fun s => snd (ParseFloat32 s)) 1.

(** [lexAttrBool] *)
Definition lexAttrBool : rule :=
  lexLiteral keyBool (fun s => match ParseBool s with Some _ => true | None => false end) 1.

(** The end of an expression: the next comma, else the next comment, else
    the end of the line. *)
Definition endOfExpression (l : lexer) : result Z :=
  let '(hasComma, commaIndex) := peekAndFind l "," in
  if hasComma then Ok commaIndex
  else
    do (hasComment, commentIndex) <- peekComment l (currentByteIndex l) ;;
    if hasComment then Ok commentIndex else Ok (peekEOL l).

Definition emitExpression (k : keyKind) (l : lexer) : result (bool * lexer) :=
  do endOfElem <- endOfExpression l ;;
  do v <- subSlice (input l) (currentByteIndex l) endOfElem ;;
  emit l (protoOf k v (endOfElem - 1 - currentByteIndex l)) false false.

(** [lexAttrArithmetic] *)
Definition lexAttrArithmetic : rule := fun l =>
  do isDef <- prevKindIs l keyAttrDef ;;
  if negb isDef then noMatch l
  else if negb (peekAndFindMany l ["+"; "-"; "*"; "/"; "%"]) then noMatch l
  else emitExpression keyArithmetic l.

(** [lexAttrComparison] *)
Definition lexAttrComparison : rule := fun l =>
  do isDef <- prevKindIs l keyAttrDef ;;
  if negb isDef then noMatch l
  else if negb (peekAndFindMany l ["="; ">"; "<"]) then noMatch l
  else emitExpression keyComparison l.

(** The search of [lexAttrCondition] for the words [if] and [for]. *)
Fixpoint conditionLoop (all rest : list string) (i cur eol : Z) : result bool :=
  match rest with
  | [] => Ok false
  | v :: rest' =>
      if (cur <=? i) && (i <? eol) then
        do foundIf <-
           (if String.eqb v "i" then do n1 <- idx all (i + 1) ;; Ok (String.eqb n1 "f")
            else Ok false) ;;
        if foundIf then Ok true
        else
          do foundFor <-
             (if String.eqb v "f" then
                do n1 <- idx all (i + 1) ;;
                if String.eqb n1 "o" then do n2 <- idx all (i + 2) ;; Ok (String.eqb n2 "r")
                else Ok false
              else Ok false) ;;
          if foundFor then Ok true
          else conditionLoop all rest' (i + 1) cur eol
      else conditionLoop all rest' (i + 1) cur eol
  end.

(** [lexAttrCondition] *)
Definition lexAttrCondition : rule := fun l =>
  do isDef <- prevKindIs l keyAttrDef ;;
  if negb isDef then noMatch l
  else
    do hasConditionSymbol <-
       conditionLoop (elems (input l)) (elems (input l)) 0 (currentByteIndex l) (peekEOL l) ;;
    if negb hasConditionSymbol then noMatch l
    else emitExpression keyCondition l.

Definition allFunctionNames : list string :=
  ["upper("; "lower("; "append("; "concat("; "contains("; "length(";
   "power("; "floor("; "remainder(";
   "and("; "or("; "nand("; "nor("; "xor("; "xnor("].

(** [lexAttrFunction] *)
Definition lexAttrFunction : rule := fun l =>
  do isDef <- prevKindIs l keyAttrDef ;;
  if negb isDef then noMatch l
  else
    do (hasComment, commentIndex) <- peekComment l (currentByteIndex l) ;;
    let endOfElem := if hasComment then commentIndex else peekEOL l in
    do v <- subSlice (input l) (currentByteIndex l) endOfElem ;;
    let searchFunctionCall := Join v "" in
    if negb (hasPrefixToMany searchFunctionCall allFunctionNames) then noMatch l
    else emit l (protoOf keyFunction v (endOfElem - 1 - currentByteIndex l)) false false.

(** The two block rules: the brace under the cursor or the next one on the
    line. *)
Definition lexBrace (k : keyKind) (brace : string) : rule := fun l =>
  let '(hasBrace, braceIndex) :=
    if negb (String.eqb (currentByte l) brace) then peekAndFind l brace
    else (true, currentByteIndex l) in
  if negb hasBrace then noMatch l
  else
    do v <- subSlice (input l) (currentByteIndex l) braceIndex ;;
    emit l (protoOf k v (braceIndex - currentByteIndex l)) false false.

(** [lexBlockStart] *)
Definition lexBlockStart : rule := lexBrace keyBlockStart "{".

(** [lexBlockEnd] *)
Definition lexBlockEnd : rule := lexBrace keyBlockEnd "}".

(** [lexError] *)
Definition lexError : rule := fun l =>
  do v <- subSlice (input l) (currentByteIndex l) (currentByteIndex l + 1) ;;
  emit l (protoOf keyError v 1) false false.

(** The rules in the order in which [lexByte] tries them. *)
Definition lexRules : list rule :=
  [lexEOF; lexTab; lexEOL; lexWhitespace; lexComment; lexAttributeDef;
   lexBlockStart; lexBlockEnd; lexAttrFunction; lexArrayStart; lexArrayEnd;
   lexArrayElem; lexAttrMultiString; lexAttrString; lexAttrCondition;
   lexAttrArithmetic; lexAttrComparison; lexAttrInt; lexAttrFloat; lexAttrBool;
   lexAttrCall; lexError].

(** Tries the rules in order and stops at the first that matches. *)
Fixpoint firstMatch (rules : list rule) (l : lexer) : result lexer :=
  match rules with
  | [] => Ok l
  | r :: rest =>
      do (matched, l') <- r l ;;
      if matched then Ok l' else firstMatch rest l'
  end.

(** [lexByte] *)
Definition lexByte (l : lexer) : result lexer := firstMatch lexRules l.

(** [lexInput]: [for !l.atEOF { l.lexByte() }] *)
Fixpoint lexInput (fuel : nat) (l : lexer) : result lexer :=
  if atEOF l then Ok l
  else match fuel with
       | O => OutOfFuel
       | S fuel' => do l' <- lexByte l ;; lexInput fuel' l'
       end.

(* ================================================================== *)
(** ** The parser *)

Record attribute : Type := mkAttribute {
  attr_Name : string;
  attr_Value : value;
  attr_kind : attrKind
}.

(** A Go map with string keys, as an association list with unique keys: an
    assignment replaces the entry of the key or adds one. *)
Fixpoint mapGet {A : Type} (m : list (string * A)) (k : string) : option A :=
  match m with
  | [] => None
  | (k', a) :: rest => if String.eqb k k' then Some a else mapGet rest k
  end.

Fixpoint mapSet {A : Type} (m : list (string * A)) (k : string) (a : A) : list (string * A) :=
  match m with
  | [] => [(k, a)]
  | (k', a') :: rest =>
      if String.eqb k k' then (k, a) :: rest else (k', a') :: mapSet rest k a
  end.

(** [block]: every block owns its two maps. *)
#[warnings="-register-all"]
Inductive block : Type :=
| mkBlock (Name : string) (Attributes : list (string * attribute))
          (Blocks : list (string * block)).

Definition block_Name (b : block) : string :=
  match b with mkBlock n _ _ => n end.
Definition block_Attributes (b : block) : list (string * attribute) :=
  match b with mkBlock _ a _ => a end.
Definition block_Blocks (b : block) : list (string * block) :=
  match b with mkBlock _ _ bs => bs end.

Record Parser : Type := mkParser {
  lx : lexer;
  currentItem : item;
  currentItemIndex : Z;
  Attributes : list (string * attribute);
  currentBlocks : list string;
  Blocks : list (string * block);
  atLastItem : bool
}.

(** [getCurrentBlock] followed by an assignment into one of the maps of the
    block it returns.  The Go code walks the names of [currentBlocks] from
    the root and writes through the map it reaches; a name that is missing
    yields the zero block, whose maps are nil. *)
Fixpoint updateCurrentBlock (path : list string) (f : block -> block)
    (blocks : list (string * block)) : result (list (string * block)) :=
  match path with
  | [] => Ok blocks
  | [b] =>
      match mapGet blocks b with
      | Some blk => Ok (mapSet blocks b (f blk))
      | None => Panic AssignToNilMap
      end
  | b :: rest =>
      match mapGet blocks b with
      | Some (mkBlock n attrs sub) =>
          do sub' <- updateCurrentBlock rest f sub ;;
          Ok (mapSet blocks b (mkBlock n attrs sub'))
      | None => Panic AssignToNilMap
      end
  end.

Definition addAttribute (a : attribute) (b : block) : block :=
  mkBlock (block_Name b) (mapSet (block_Attributes b) (attr_Name a) a) (block_Blocks b).

Definition addBlock (nb : block) (b : block) : block :=
  mkBlock (block_Name b) (block_Attributes b) (mapSet (block_Blocks b) (block_Name nb) nb).

(** [nextItem] *)
Definition nextItem (p : Parser) (nextCount : Z) : result Parser :=
  let i := currentItemIndex p + nextCount in
  if i =? lenL (items (lx p)) then
    Ok (mkParser (lx p) (currentItem p) i (Attributes p) (currentBlocks p) (Blocks p) true)
  else
    do it <- idx (items (lx p)) i ;;
    Ok (mkParser (lx p) it i (Attributes p) (currentBlocks p) (Blocks p) (atLastItem p)).

(** [peekNextItem] *)
Definition peekNextItem (p : Parser) : result item :=
  if currentItemIndex p =? lenL (items (lx p)) - 1 then Ok zeroItem
  else idx (items (lx p)) (currentItemIndex p + 1).

(** The values of the items after the current one, up to the first
    [keyArrayEnd]. *)
Fixpoint arrayItemsLoop (rest : list item) (i cur : Z) : list string :=
  match rest with
  | [] => []
  | v :: rest' =>
      if cur <? i then
        if keyKind_eqb (item_kind v) keyArrayEnd then []
        else item_value v :: arrayItemsLoop rest' (i + 1) cur
      else arrayItemsLoop rest' (i + 1) cur
  end.

Definition parseStep : Type := Parser -> result (bool * Parser).

Section ParserRules.

Variable math_Pow : float64 -> float64 -> float64.

(** [parseAttribute] *)
Definition parseAttribute : parseStep := fun p =>
  if negb (keyKind_eqb (item_kind (currentItem p)) keyAttrDef) then Ok (false, p)
  else
    do itemItem <- peekNextItem p ;;
    let '(itemvalue, nextCount) :=
      if keyKind_eqb (item_kind itemItem) keyArrayStart then
        let arrayItems := arrayItemsLoop (items (lx p)) 0 (currentItemIndex p) in
        (Join arrayItems ", ", 2 + lenL arrayItems)
      else (item_value itemItem, 2) in
    do attrvalue <- transformItem math_Pow itemvalue (item_kind itemItem) ;;
    let newAttr := mkAttribute (item_value (currentItem p)) attrvalue
                     (keyKindToAttrKind (item_kind itemItem)) in
    do p1 <-
       match currentBlocks p with
       | [] =>
           Ok (mkParser (lx p) (currentItem p) (currentItemIndex p)
                 (mapSet (Attributes p) (attr_Name newAttr) newAttr)
                 (currentBlocks p) (Blocks p) (atLastItem p))
       | path =>
           do blocks' <- updateCurrentBlock path (addAttribute newAttr) (Blocks p) ;;
           Ok (mkParser (lx p) (currentItem p) (currentItemIndex p) (Attributes p)
                 (currentBlocks p) blocks' (atLastItem p))
       end ;;
    do p2 <- nextItem p1 nextCount ;;
    Ok (true, p2).

(** [parseArrayElement] *)
Definition parseArrayElement : parseStep := fun p =>
  if negb (keyKind_eqb (item_kind (currentItem p)) keyArrayElem) then Ok (false, p)
  else do p' <- nextItem p 1 ;; Ok (true, p').

(** [parseBlockStart] *)
Definition parseBlockStart : parseStep := fun p =>
  if negb (keyKind_eqb (item_kind (currentItem p)) keyBlockStart) then Ok (false, p)
  else
    let newBlock := mkBlock (item_value (currentItem p)) [] [] in
    do blocks' <-
       match currentBlocks p with
       | [] => Ok (mapSet (Blocks p) (block_Name newBlock) newBlock)
       | path => updateCurrentBlock path (addBlock newBlock) (Blocks p)
       end ;;
    do p' <- nextItem
               (mkParser (lx p) (currentItem p) (currentItemIndex p) (Attributes p)
                  (currentBlocks p ++ [block_Name newBlock])%list blocks' (atLastItem p)) 1 ;;
    Ok (true, p').

(** [parseBlockEnd]: [p.currentBlocks = p.currentBlocks[:len(p.currentBlocks)-1]] *)
Definition parseBlockEnd : parseStep := fun p =>
  if negb (keyKind_eqb (item_kind (currentItem p)) keyBlockEnd) then Ok (false, p)
  else
    if lenL (currentBlocks p) - 1 <? 0 then Panic SliceBoundsOutOfRange
    else
      do p' <- nextItem
                 (mkParser (lx p) (currentItem p) (currentItemIndex p) (Attributes p)
                    (List.removelast (currentBlocks p)) (Blocks p) (atLastItem p)) 1 ;;
      Ok (true, p').

(** [parseEOF] *)
Definition parseEOF : parseStep := fun p =>
  if negb (keyKind_eqb (item_kind (currentItem p)) keyEOF) then Ok (false, p)
  else do p' <- nextItem p 1 ;; Ok (true, p').

(** [parseOthers] *)
Definition parseOthers : parseStep := fun p =>
  let k := item_kind (currentItem p) in
  if negb (keyKind_eqb k keyComment) && negb (keyKind_eqb k keyNIL)
     && negb (keyKind_eqb k keyError)
  then Ok (false, p)
  else do p' <- nextItem p 1 ;; Ok (true, p').

(** [parseItem] *)
Definition parseItem (p : Parser) : result Parser :=
  do (m1, p1) <- parseEOF p ;;
  if m1 then Ok p1 else
  do (m2, p2) <- parseAttribute p1 ;;
  if m2 then Ok p2 else
  do (m3, p3) <- parseArrayElement p2 ;;
  if m3 then Ok p3 else
  do (m4, p4) <- parseBlockStart p3 ;;
  if m4 then Ok p4 else
  do (m5, p5) <- parseBlockEnd p4 ;;
  if m5 then Ok p5 else
  do (m6, p6) <- parseOthers p5 ;;
  if m6 then Ok p6 else
  nextItem p6 1.

(** [parseItems]: [for !p.atLastItem { p.parseItem() }] *)
Fixpoint parseItems (fuel : nat) (p : Parser) : result Parser :=
  if atLastItem p then Ok p
  else match fuel with
       | O => OutOfFuel
       | S fuel' => do p' <- parseItem p ;; parseItems fuel' p'
       end.

(** [newParser] *)
Definition newParser (fuel : nat) (inp : strSlice) : result Parser :=
  do l0 <- newLexer inp ;;
  do l <- lexInput fuel l0 ;;
  do first <- idx (items l) 0 ;;
  Ok (mkParser l first 0 [] [] [] false).

(** *** Reading the file and Decode *)

(** The files that can be opened, each as its sequence of runes (one string
    per rune, as [bufio.ScanRunes] yields them). *)
Definition fileSystem : Type := string -> option (list string).

(** [readCAFEFile]: the data and a nil error, or an error.  [spare] is the
    capacity that the successive [append]s leave beyond the length, which
    the Go runtime chooses; the spare elements are empty strings. *)
Definition readCAFEFile (fs : fileSystem) (spare : nat) (filepath : string)
    : strSlice + string :=
  if negb (HasSuffix filepath ".cafe") then inr (filepath ++ " is not a .cafe file")
  else
    match fs filepath with
    | None => inr "open: no such file"
    | Some runes => inl (mkSlice runes (List.repeat "" spare))
    end.

(** [Decode]: the parser and a nil error, or an error. *)
Definition Decode (fuel : nat) (fs : fileSystem) (spare : nat) (filename : string)
    : result (Parser + string) :=
  match readCAFEFile fs spare filename with
  | inr err => Ok (inr err)
  | inl inp =>
      do p <- newParser fuel inp ;;
      do p' <- parseItems fuel p ;;
      Ok (inl p')
  end.

End ParserRules.

(** The runes of an ASCII text. *)
Definition runesOf (s : string) : list string := map str1 (chars s).

(* ================================================================== *)
(** * Properties *)

(** ** Shapes of values *)



(** An integer literal is a text that [strconv.Atoi] accepts. *)
Definition isIntLiteral (s : string) : bool :=
  match Atoi s with Some _ => true | None => false end.

(** A float literal is a text that only [strconv.ParseFloat] accepts. *)
Definition isFloatLiteral (s : string) : bool :=
  negb (isIntLiteral s) && snd (ParseFloat32 s).


(** A lexer positioned on a text, as [newLexer] leaves it. *)
Definition lexerOn (text : string) (spare : nat) : result lexer :=
  newLexer (mkSlice (runesOf text) (List.repeat "" spare)).

(** The file system with one file. *)
Definition oneFile (name text : string) : fileSystem :=
  fun path => if String.eqb path name then Some (runesOf text) else None.

(** The top-level attribute of a decoded document. *)
Definition decodedAttribute (r : result (Parser + string)) (name : string)
    : option attribute :=
  match r with
  | Ok (inl p) => mapGet (Attributes p) name
  | _ => None
  end.

(* ------------------------------------------------------------------ *)
(** ** Gate logic (C2) *)

(** The four gates whose Go expression is the gate's truth table. *)
Lemma gate_or_nor_xor_xnor (a b : bool) (sa sb : string) :
  ParseBool (TrimSpace sa) = Some a ->
  ParseBool (TrimSpace sb) = Some b ->
  gateLogicFunctions "or" [sa; sb] = Ok (VBool (a || b))
  /\ gateLogicFunctions "nor" [sa; sb] = Ok (VBool (negb (a || b)))
  /\ gateLogicFunctions "xor" [sa; sb] = Ok (VBool (xorb a b))
  /\ gateLogicFunctions "xnor" [sa; sb] = Ok (VBool (negb (xorb a b))).
Proof.
  intros Ha Hb. unfold gateLogicFunctions. simpl gateParams.
  rewrite Ha, Hb. destruct a, b; repeat split; reflexivity.
Qed.

(** A parameter that is not a boolean makes every gate fail. *)
Lemma gate_non_boolean (name sa sb : string) :
  ParseBool (TrimSpace sa) = None \/ ParseBool (TrimSpace sb) = None ->
  gateLogicFunctions name [sa; sb]
  = Panic (ParserError "parameter in function is not a boolean").
Proof.
  intros [H | H]; unfold gateLogicFunctions; simpl gateParams.
  - rewrite H. reflexivity.
  - rewrite H. destruct (ParseBool (TrimSpace sa)); reflexivity.
Qed.

(** What the Go expressions of [and] and [nand] compute on booleans. *)
Lemma gate_and_nand_compare (a b : bool) (sa sb : string) :
  ParseBool (TrimSpace sa) = Some a ->
  ParseBool (TrimSpace sb) = Some b ->
  gateLogicFunctions "and" [sa; sb] = Ok (VBool (Bool.eqb a b))
  /\ gateLogicFunctions "nand" [sa; sb] = Ok (VBool (negb (Bool.eqb a b))).
Proof.
  intros Ha Hb. unfold gateLogicFunctions. simpl gateParams.
  rewrite Ha, Hb. split; reflexivity.
Qed.

(** C2 (code defect).  [and] is computed as the equality of its two
    parameters and [nand] as its negation: on two false parameters [and]
    answers true and [nand] answers false, against the truth tables of the
    gates.  On the parameters of the specification's examples the answers
    are the expected ones. *)
Theorem gate_and_is_equality :
  transformItemFunction powInt "and(false, false)" = Ok (VBool true)
  /\ transformItemFunction powInt "nand(false, false)" = Ok (VBool false)
  /\ transformItemFunction powInt "and(true, true)" = Ok (VBool true)
  /\ transformItemFunction powInt "xor(true, false)" = Ok (VBool true).
Proof. repeat split; reflexivity. Qed.

(* ------------------------------------------------------------------ *)
(** ** Boolean literals (C7) *)

Definition trueTexts : list string := ["1"; "t"; "T"; "TRUE"; "true"; "True"].
Definition falseTexts : list string := ["0"; "f"; "F"; "FALSE"; "false"; "False"].

Lemma ParseBool_true (s : string) : ParseBool s = Some true <-> In s trueTexts.
Proof.
  unfold ParseBool, trueTexts. simpl In.
  repeat match goal with
         | |- context [String.eqb s ?t] => destruct (String.eqb_spec s t)
         end; subst; simpl; split; intros H; try discriminate; try tauto;
    intuition congruence.
Qed.

Lemma ParseBool_false (s : string) : ParseBool s = Some false <-> In s falseTexts.
Proof.
  unfold ParseBool, falseTexts. simpl In.
  repeat match goal with
         | |- context [String.eqb s ?t] => destruct (String.eqb_spec s t)
         end; subst; simpl; split; intros H; try discriminate; try tauto;
    intuition congruence.
Qed.

(** The claim as the specification words it fails: the text [True] is a
    boolean-kind token text (the lexer emits it as one) and evaluates to
    true. *)
Lemma bool_True_accepted :
  transformItem powInt "True" keyBool = Ok (VBool true)
  /\ transformItem powInt "1" keyBool = Ok (VBool true)
  /\ (do l <- lexerOn ("x = True" ++ newline) 7 ;; do l' <- lexInput 20 l ;;
      Ok (map (fun it => (item_kind it, item_value it)) (items l')))
     = Ok [(keyAttrDef, "x"); (keyBool, "True")].
Proof. repeat split; vm_compute; reflexivity. Qed.

(** C7 (amended).  A boolean-kind text evaluates to true exactly for the six
    spellings 1, t, T, TRUE, true, True, to false exactly for 0, f, F,
    FALSE, false, False, and every other text fails with the parser's
    non-boolean error. *)
Theorem bool_literal_spellings (pow : float64 -> float64 -> float64) (s : string) :
  (transformItem pow s keyBool = Ok (VBool true) <-> In s trueTexts)
  /\ (transformItem pow s keyBool = Ok (VBool false) <-> In s falseTexts)
  /\ (~ In s (trueTexts ++ falseTexts) <->
      transformItem pow s keyBool
      = Panic (ParserError "non boolean item tried to be parsed as boolean")).
Proof.
  unfold transformItem.
  pose proof (ParseBool_true s) as Ht. pose proof (ParseBool_false s) as Hf.
  destruct (ParseBool s) as [[|]|] eqn:E.
  - repeat split; intros H; try tauto; try discriminate.
    + apply Hf in H. discriminate.
    + exfalso. apply H. apply in_or_app. left. tauto.
  - repeat split; intros H; try tauto; try discriminate.
    + apply Ht in H. discriminate.
    + exfalso. apply H. apply in_or_app. right. tauto.
  - repeat split; intros H; try discriminate.
    + apply Ht in H. discriminate.
    + apply Hf in H. discriminate.
    + intros Hin. apply in_app_or in Hin. destruct Hin as [Hin | Hin].
      * apply Ht in Hin. discriminate.
      * apply Hf in Hin. discriminate.
Qed.

(* ------------------------------------------------------------------ *)
(** ** Numeric functions (C4) *)

Definition numericNames : list string := ["power"; "floor"; "remainder"].

(** The float parameter that [numericalFunctions] computes from a text. *)
Definition numericParam (pow : float64 -> float64 -> float64) (v : string) : float64 :=
  match ParseFloat32 (TrimSpace v) with
  | (valFloat, true) => roundToTextLength pow (TrimSpace v) valFloat
  | (_, false) => F64.zero
  end.

(** The floating-point result of a numeric function. *)
Definition numericCompute (pow : float64 -> float64 -> float64) (name : string)
    (a b : float64) : float64 :=
  if String.eqb name "power" then pow a b
  else if String.eqb name "floor" then F64.Floor (F64.div a b)
  else F64.Mod a b.

(** The claim as the specification words it fails: with one float literal
    among the parameters the result is still an integer. *)
Lemma numeric_mixed_parameters_int :
  isFloatLiteral (TrimSpace "7.5") = true
  /\ isIntLiteral (TrimSpace " 2") = true
  /\ numericalFunctions powInt "floor" ["7.5"; " 2"] = Ok (VInt 3)
  /\ transformItemFunction powInt "floor(7.5, 2)" = Ok (VInt 3).
Proof. repeat split; vm_compute; reflexivity. Qed.

(** C4 (amended).  A numeric function of two parameters computes in floating
    point and returns the result converted to an integer exactly when at
    least one parameter is an integer literal; when no parameter is an
    integer literal the float is returned. *)
Theorem numeric_narrowing (pow : float64 -> float64 -> float64)
    (name p1 p2 : string) :
  In name numericNames ->
  let r := numericCompute pow name (numericParam pow p1) (numericParam pow p2) in
  let anyInt := isIntLiteral (TrimSpace p1) || isIntLiteral (TrimSpace p2) in
  numericalFunctions pow name [p1; p2]
  = Ok (if anyInt then VInt (F64.toInt r) else VFloat r).
Proof.
  intros Hname r anyInt. subst r anyInt.
  unfold numericalFunctions, numericParams, numericParam, numericCompute, isIntLiteral,
    numericResult.
  destruct (Atoi (TrimSpace p1)), (Atoi (TrimSpace p2));
    destruct (ParseFloat32 (TrimSpace p1)) as [f1 [|]];
    destruct (ParseFloat32 (TrimSpace p2)) as [f2 [|]];
    simpl in Hname; destruct Hname as [<- | [<- | [<- | []]]]; reflexivity.
Qed.

Lemma numeric_narrowing_witness :
  numericalFunctions powInt "power" ["5"; " 2"] = Ok (VInt 25)
  /\ numericalFunctions powInt "floor" ["7.5"; " 2.5"]
     = Ok (VFloat (F64.ofZ 3)).
Proof.
  split.
  - exact (numeric_narrowing powInt "power" "5" " 2" (or_introl eq_refl)).
  - exact (numeric_narrowing powInt "floor" "7.5" " 2.5" (or_intror (or_introl eq_refl))).
Defined.

(* ------------------------------------------------------------------ *)
(** ** Float literals (C5) *)

(** Number of characters after the first decimal point of a text. *)
Fixpoint decimalDigits (s : string) : Z :=
  match s with
  | EmptyString => 0
  | String c s' => if Ascii.eqb c "." then len s' else decimalDigits s'
  end.

(** The rounding as the specification words it: to the number of decimal
    digits present in the text. *)
Definition roundToDecimalDigits (pow : float64 -> float64 -> float64)
    (text : string) (val : float64) : float64 :=
  let precision := pow (F64.ofZ 10) (F64.ofZ (decimalDigits text)) in
  F64.div (F64.Round (F64.mul val precision)) precision.

(** The claim as the specification words it fails: the text 123.456 has
    three decimal digits and seven characters; the code rounds at six
    places, where the error of the 32-bit parse is still visible, and
    produces 123.456001 instead of 123.456. *)
Lemma float_rounding_not_decimal_digits :
  decimalDigits "123.456" = 3
  /\ transformItem powInt "123.456" keyFloat
     = Ok (VFloat (fst (ParseFloat64 "123.456001")))
  /\ roundToDecimalDigits powInt "123.456" (fst (ParseFloat32 "123.456"))
     = fst (ParseFloat64 "123.456")
  /\ transformItem powInt "123.456" keyFloat
     <> Ok (VFloat (roundToDecimalDigits powInt "123.456" (fst (ParseFloat32 "123.456")))).
Proof.
  repeat split; try (vm_compute; reflexivity).
  vm_compute. discriminate.
Qed.

(** C5 (amended).  A float-kind text that parses produces the parsed 32-bit
    value multiplied by 10^(n-1), rounded to the nearest integer and divided
    by 10^(n-1), where n is the length of the whole text (not the number of
    its decimal digits); a text that does not parse fails.  The text 10.10
    is rounded at 4 places and gives the binary64 value nearest to 10.1. *)
Theorem float_literal_rounding (pow : float64 -> float64 -> float64) (item : string) :
  (forall val, ParseFloat32 item = (val, true) ->
     let precision := pow (F64.ofZ 10) (F64.ofZ (len item - 1)) in
     transformItem pow item keyFloat
     = Ok (VFloat (F64.div (F64.Round (F64.mul val precision)) precision)))
  /\ (snd (ParseFloat32 item) = false ->
      transformItem pow item keyFloat
      = Panic (ParserError "non float item tried to be parsed as float"))
  /\ len "10.10" - 1 = 4
  /\ transformItem powInt "10.10" keyFloat = Ok (VFloat (fst (ParseFloat64 "10.1"))).
Proof.
  repeat split.
  - intros val H. unfold transformItem. rewrite H. reflexivity.
  - intros H. unfold transformItem. destruct (ParseFloat32 item) as [v [|]].
    + discriminate.
    + reflexivity.
Qed.

Lemma float_literal_rounding_witness :
  transformItem powInt "3.14159" keyFloat = Ok (VFloat (fst (ParseFloat64 "3.14159")))
  /\ transformItem powInt "1.5.2" keyFloat
     = Panic (ParserError "non float item tried to be parsed as float").
Proof.
  destruct (float_literal_rounding powInt "3.14159") as (H & _).
  destruct (float_literal_rounding powInt "1.5.2") as (_ & H' & _).
  split.
  - rewrite (H (fst (ParseFloat32 "3.14159"))) by (vm_compute; reflexivity).
    vm_compute. reflexivity.
  - apply H'. vm_compute. reflexivity.
Defined.

(* ------------------------------------------------------------------ *)
(** ** The tab rule (C8) *)

(** Every element of the slice and of its backing array holds at most one
    character, as the runes that [readCAFEFile] stores do. *)
Definition singleRunes (s : strSlice) : Prop :=
  Forall (fun x => (String.length x <= 1)%nat) (elems s ++ slack s).

Lemma length_app (s t : string) :
  String.length (s ++ t) = (String.length s + String.length t)%nat.
Proof. induction s as [| c s IH]; simpl; [reflexivity | now rewrite IH]. Qed.

Lemma Join_length_le (l : list string) :
  Forall (fun x => (String.length x <= 1)%nat) l ->
  (String.length (Join l "") <= List.length l)%nat.
Proof.
  induction l as [| x l IH]; intros H.
  - simpl. lia.
  - inversion H as [| ? ? Hx Hl]; subst. specialize (IH Hl).
    destruct l as [| y l'].
    + simpl. lia.
    + change (Join (x :: y :: l') "") with (x ++ "" ++ Join (y :: l') "").
      rewrite !length_app. simpl String.length at 2.
      simpl List.length in *. lia.
Qed.

Lemma Forall_firstn_skipn {A : Type} (P : A -> Prop) (l : list A) (a b : nat) :
  Forall P l -> Forall P (List.firstn b (List.skipn a l)).
Proof.
  intros H.
  rewrite <- (List.firstn_skipn a l) in H. apply Forall_app in H. destruct H as [_ H].
  rewrite <- (List.firstn_skipn b (List.skipn a l)) in H. apply Forall_app in H.
  exact (proj1 H).
Qed.

(** The three elements that [lexTab] joins never spell four spaces. *)
Lemma lexTab_never_matches (l : lexer) :
  singleRunes (input l) ->
  lexTab l = Ok (false, l) \/ lexTab l = Panic SliceBoundsOutOfRange.
Proof.
  intros Hs. unfold lexTab, subSlice.
  destruct ((0 <=? currentByteIndex l) && (currentByteIndex l <=? currentByteIndex l + 3)
            && (currentByteIndex l + 3 <=? sliceCap (input l))) eqn:E.
  - left. unfold bind.
    set (s := List.firstn _ _).
    assert (Hlen : (String.length (Join s "") <= 3)%nat).
    { etransitivity.
      - apply Join_length_le. subst s. apply Forall_firstn_skipn. exact Hs.
      - subst s. etransitivity; [apply List.firstn_le_length |].
        replace (currentByteIndex l + 3 - currentByteIndex l) with 3 by lia.
        simpl. lia. }
    destruct (String.eqb_spec (Join s "") "    ") as [Heq | Hne].
    + rewrite Heq in Hlen. simpl in Hlen. lia.
    + reflexivity.
  - right. reflexivity.
Qed.

(** The lexer after the comment line of the text
    #<code>// c\n    x = 1\n</code>#: its cursor is on the first of four
    spaces. *)
Definition atFourSpaces : result lexer :=
  do l <- lexerOn ("// c" ++ newline ++ "    x = 1" ++ newline) 1 ;; lexByte l.

(** C8 (code defect).  [lexTab] joins [input[i:i+3]], three elements, and
    compares the result with four spaces: on an input of single runes the
    rule never matches.  At a cursor that begins a run of exactly four
    spaces it returns false and leaves the lexer where it was; the spaces
    are then taken one at a time by the whitespace rule. *)
Theorem lexTab_declines_four_spaces (l : lexer) :
  singleRunes (input l) ->
  (lexTab l = Ok (false, l) \/ lexTab l = Panic SliceBoundsOutOfRange)
  /\ (exists l4,
        atFourSpaces = Ok l4
        /\ currentByteIndex l4 = 5
        /\ subSlice (input l4) 5 9 = Ok [" "; " "; " "; " "]
        /\ idx (elems (input l4)) 9 = Ok "x"
        /\ lexTab l4 = Ok (false, l4)
        /\ (do l5 <- lexByte l4 ;; Ok (currentByteIndex l5)) = Ok 6).
Proof.
  intros Hs. split.
  - exact (lexTab_never_matches l Hs).
  - eexists. repeat split; vm_compute; reflexivity.
Qed.

(** A lexer on four spaces alone, with no spare capacity and with some. *)
Definition onFourSpaces (spare : list string) : lexer :=
  mkLexer (mkSlice [" "; " "; " "; " "] spare) [] nilProto 1 0 " " 0 false.

Lemma lexTab_declines_four_spaces_witness :
  lexTab (onFourSpaces [""]) = Ok (false, onFourSpaces [""])
  /\ lexTab (onFourSpaces []) = Ok (false, onFourSpaces []).
Proof.
  split.
  - destruct (lexTab_declines_four_spaces (onFourSpaces [""])) as [[H | H] _].
    + unfold singleRunes. simpl. repeat constructor.
    + exact H.
    + vm_compute in H. discriminate.
  - destruct (lexTab_declines_four_spaces (onFourSpaces [])) as [[H | H] _].
    + unfold singleRunes. simpl. repeat constructor.
    + exact H.
    + vm_compute in H. discriminate.
Defined.

(* ------------------------------------------------------------------ *)
(** ** Block ends (C9) *)

Lemma keyKind_eqb_eq (a b : keyKind) : keyKind_eqb a b = true <-> a = b.
Proof. destruct a, b; simpl; split; intros H; try reflexivity; discriminate. Qed.

Lemma removelast_length {A : Type} (l : list A) :
  l <> [] -> S (List.length (List.removelast l)) = List.length l.
Proof.
  intros H. destruct (exists_last H) as (l' & a & ->).
  rewrite List.removelast_last, List.length_app. simpl. lia.
Qed.

(** The parser's cursor stands on an item of the list. *)
Definition cursorInRange (p : Parser) : Prop :=
  0 <= currentItemIndex p < lenL (items (lx p)).

(** C9.  On a block-end item: with an open block, [parseBlockEnd] removes
    the last name of [currentBlocks] and moves to the next item, leaving
    the attributes, the blocks and the lexer as they were; with no open
    block the slice expression [currentBlocks[:len-1]] panics, and so do
    [parseItem] and [parseItems], before any error path.  An input whose
    first brace closes a block makes [Decode] panic. *)
Theorem parseBlockEnd_pops_one (pow : float64 -> float64 -> float64) (p : Parser) :
  item_kind (currentItem p) = keyBlockEnd ->
  cursorInRange p ->
  (currentBlocks p <> [] ->
   exists p',
     parseBlockEnd p = Ok (true, p')
     /\ parseItem pow p = Ok p'
     /\ currentBlocks p' = List.removelast (currentBlocks p)
     /\ S (List.length (currentBlocks p')) = List.length (currentBlocks p)
     /\ Attributes p' = Attributes p
     /\ Blocks p' = Blocks p
     /\ lx p' = lx p
     /\ currentItemIndex p' = currentItemIndex p + 1)
  /\ (currentBlocks p = [] ->
      parseBlockEnd p = Panic SliceBoundsOutOfRange
      /\ parseItem pow p = Panic SliceBoundsOutOfRange
      /\ (atLastItem p = false ->
          forall fuel, parseItems pow (S fuel) p = Panic SliceBoundsOutOfRange))
  /\ Decode pow 10 (oneFile "a.cafe" ("}" ++ newline)) 2 "a.cafe"
     = Panic SliceBoundsOutOfRange.
Proof.
  intros Hk Hr.
  assert (Hitem : parseItem pow p = do (m, p') <- parseBlockEnd p ;;
                                    if m then Ok p' else
                                    do (m6, p6) <- parseOthers p' ;;
                                    if m6 then Ok p6 else nextItem p6 1).
  { unfold parseItem.
    unfold parseEOF. rewrite Hk. cbn [keyKind_eqb negb bind].
    unfold parseAttribute. rewrite Hk. cbn [keyKind_eqb negb bind].
    unfold parseArrayElement. rewrite Hk. cbn [keyKind_eqb negb bind].
    unfold parseBlockStart. rewrite Hk. cbn [keyKind_eqb negb bind].
    reflexivity. }
  split; [| split].
  - intros Hne.
    assert (Hlen : (lenL (currentBlocks p) - 1 <? 0) = false).
    { apply Z.ltb_ge. unfold lenL. destruct (currentBlocks p); [congruence | simpl List.length; lia]. }
    assert (Hnext : exists p',
               nextItem (mkParser (lx p) (currentItem p) (currentItemIndex p) (Attributes p)
                           (List.removelast (currentBlocks p)) (Blocks p) (atLastItem p)) 1
               = Ok p'
               /\ currentBlocks p' = List.removelast (currentBlocks p)
               /\ Attributes p' = Attributes p /\ Blocks p' = Blocks p /\ lx p' = lx p
               /\ currentItemIndex p' = currentItemIndex p + 1).
    { unfold nextItem. simpl.
      destruct (currentItemIndex p + 1 =? lenL (items (lx p))) eqn:E.
      - eexists. split; [reflexivity |]. simpl. repeat split.
      - unfold idx. apply Z.eqb_neq in E. unfold cursorInRange in Hr.
        assert (Hin : (0 <=? currentItemIndex p + 1)
                      && (currentItemIndex p + 1 <? Z.of_nat (List.length (items (lx p))))
                      = true).
        { unfold lenL in *. apply andb_true_iff. split; [apply Z.leb_le | apply Z.ltb_lt]; lia. }
        rewrite Hin.
        destruct (nth_error (items (lx p)) (Z.to_nat (currentItemIndex p + 1))) eqn:En.
        + eexists. split; [reflexivity |]. simpl. repeat split.
        + apply nth_error_None in En. unfold lenL in *. lia. }
    destruct Hnext as (p' & Hn & H1 & H2 & H3 & H4 & H5).
    assert (Hpe : parseBlockEnd p = Ok (true, p')).
    { unfold parseBlockEnd. rewrite Hk. simpl negb. cbv iota. rewrite Hlen, Hn. reflexivity. }
    exists p'. repeat split; try assumption.
    + rewrite Hitem, Hpe. reflexivity.
    + rewrite H1. apply removelast_length. exact Hne.
  - intros Hnil.
    assert (Hpe : parseBlockEnd p = Panic SliceBoundsOutOfRange).
    { unfold parseBlockEnd. rewrite Hk, Hnil. reflexivity. }
    repeat split.
    + exact Hpe.
    + rewrite Hitem, Hpe. reflexivity.
    + intros Hlast fuel. simpl. rewrite Hlast, Hitem, Hpe. reflexivity.
  - vm_compute. reflexivity.
Qed.

(** The parser on the items of #<code>b {\n}\n</code># after its block
    start, and the parser on a lone block end. *)
Definition parserOn (text : string) (spare : nat) : result Parser :=
  newParser 50 (mkSlice (runesOf text) (List.repeat "" spare)).

Lemma parseBlockEnd_pops_one_witness :
  (exists p p',
     (do p0 <- parserOn ("b {" ++ newline ++ "}" ++ newline) 2 ;; parseItem powInt p0) = Ok p
     /\ currentBlocks p = ["b"]
     /\ parseBlockEnd p = Ok (true, p')
     /\ currentBlocks p' = [])
  /\ (exists p,
        parserOn ("}" ++ newline) 2 = Ok p
        /\ parseBlockEnd p = Panic SliceBoundsOutOfRange).
Proof.
  split.
  - destruct (do p0 <- parserOn ("b {" ++ newline ++ "}" ++ newline) 2 ;; parseItem powInt p0)
      as [p | |] eqn:E; try (vm_compute in E; discriminate).
    assert (Hk : item_kind (currentItem p) = keyBlockEnd).
    { vm_compute in E. injection E as <-. reflexivity. }
    assert (Hr : cursorInRange p).
    { vm_compute in E. injection E as <-. unfold cursorInRange. vm_compute.
      split; [discriminate | reflexivity]. }
    assert (Hb : currentBlocks p = ["b"]).
    { vm_compute in E. injection E as <-. reflexivity. }
    destruct (parseBlockEnd_pops_one powInt p Hk Hr) as (H & _).
    destruct H as (p' & Hp & _ & Hc & _); [rewrite Hb; discriminate |].
    exists p, p'. repeat split; try assumption.
    rewrite Hc, Hb. reflexivity.
  - destruct (parserOn ("}" ++ newline) 2) as [p | |] eqn:E;
      try (vm_compute in E; discriminate).
    assert (Hk : item_kind (currentItem p) = keyBlockEnd).
    { vm_compute in E. injection E as <-. reflexivity. }
    assert (Hr : cursorInRange p).
    { vm_compute in E. injection E as <-. unfold cursorInRange. vm_compute.
      split; [discriminate | reflexivity]. }
    assert (Hb : currentBlocks p = []).
    { vm_compute in E. injection E as <-. reflexivity. }
    destruct (parseBlockEnd_pops_one powInt p Hk Hr) as (_ & H & _).
    exists p. split; [reflexivity |]. apply H. exact Hb.
Defined.

(* ------------------------------------------------------------------ *)
(** ** Empty input (C10) *)

(** C10.  [newLexer] reads element 0 of its input: it is defined exactly on
    the non-empty inputs.  A .cafe file that exists and holds no character
    is read as an empty slice with a nil error, and [Decode] then panics
    with an index out of range instead of returning a document. *)
Theorem empty_input_panics (pow : float64 -> float64 -> float64) (fuel : nat)
    (fs : fileSystem) (spare : nat) (filename : string) :
  (forall inp, newLexer inp = Panic IndexOutOfRange <-> elems inp = [])
  /\ (forall inp, elems inp <> [] -> exists l, newLexer inp = Ok l)
  /\ (HasSuffix filename ".cafe" = true ->
      fs filename = Some [] ->
      (exists inp, readCAFEFile fs spare filename = inl inp /\ elems inp = [])
      /\ Decode pow fuel fs spare filename = Panic IndexOutOfRange).
Proof.
  assert (Hnew : forall inp, newLexer inp = Panic IndexOutOfRange <-> elems inp = []).
  { intros inp. unfold newLexer, idx. destruct (elems inp) as [| x t].
    - simpl. tauto.
    - replace ((0 <=? 0) && (0 <? Z.of_nat (List.length (x :: t)))) with true.
      + simpl. split; discriminate.
      + symmetry. apply andb_true_iff. split; [reflexivity |].
        apply Z.ltb_lt. simpl List.length. lia. }
  split; [exact Hnew | split].
  - intros inp Hne. unfold newLexer, idx. destruct (elems inp) as [| x t]; [congruence |].
    replace ((0 <=? 0) && (0 <? Z.of_nat (List.length (x :: t)))) with true.
    + simpl. eexists. reflexivity.
    + symmetry. apply andb_true_iff. split; [reflexivity |].
      apply Z.ltb_lt. simpl List.length. lia.
  - intros Hs Hf. split.
    + unfold readCAFEFile. rewrite Hs, Hf. simpl. eexists. split; reflexivity.
    + unfold Decode, readCAFEFile. rewrite Hs, Hf. simpl. reflexivity.
Qed.

Lemma empty_input_panics_witness :
  Decode powInt 100 (oneFile "empty.cafe" "") 0 "empty.cafe" = Panic IndexOutOfRange.
Proof.
  apply (proj2 (proj2 (empty_input_panics powInt 100 (oneFile "empty.cafe" "") 0
                         "empty.cafe"))); reflexivity.
Defined.

(* ------------------------------------------------------------------ *)
(** ** Facts on strings and slices *)

Lemma len_app (s t : string) : len (s ++ t) = len s + len t.
Proof. unfold len. rewrite length_app. lia. Qed.

Lemma len_nonneg (s : string) : 0 <= len s.
Proof. unfold len. lia. Qed.

Lemma len_String (c : ascii) (s : string) : len (String c s) = 1 + len s.
Proof. unfold len. simpl String.length. lia. Qed.

Lemma app_assoc_str (s t u : string) : (s ++ t) ++ u = s ++ t ++ u.
Proof. induction s as [| c s IH]; simpl; [reflexivity | now rewrite IH]. Qed.

Lemma app_empty_r (s : string) : s ++ "" = s.
Proof. induction s as [| c s IH]; simpl; [reflexivity | now rewrite IH]. Qed.

Lemma skipn_app_exact (p s : string) : GoStrings.skipn (String.length p) (p ++ s) = s.
Proof. induction p as [| c p IH]; simpl; [destruct s; reflexivity | exact IH]. Qed.

Lemma firstn_app_exact (m s : string) : GoStrings.firstn (String.length m) (m ++ s) = m.
Proof. induction m as [| c m IH]; simpl; [destruct s; reflexivity | now rewrite IH]. Qed.

(** The slice that lies between a prefix and a suffix. *)
Lemma slice_middle (pre m post : string) :
  slice (pre ++ m ++ post) (len pre) (len pre + len m) = Ok m.
Proof.
  unfold slice.
  assert (H : (0 <=? len pre) && (len pre <=? len pre + len m)
              && (len pre + len m <=? len (pre ++ m ++ post)) = true).
  { rewrite !len_app.
    pose proof (len_nonneg pre). pose proof (len_nonneg m). pose proof (len_nonneg post).
    rewrite !andb_true_iff, !Z.leb_le. lia. }
  rewrite H.
  replace (Z.to_nat (len pre + len m - len pre)) with (String.length m) by (unfold len; lia).
  replace (Z.to_nat (len pre)) with (String.length pre) by (unfold len; lia).
  now rewrite skipn_app_exact, firstn_app_exact.
Qed.




(** Every character of a text satisfies a test. *)
Fixpoint allChars (p : ascii -> bool) (s : string) : bool :=
  match s with
  | EmptyString => true
  | String c s' => p c && allChars p s'
  end.





(* ------------------------------------------------------------------ *)
(** ** Comparisons (C3) *)

























(* ------------------------------------------------------------------ *)
(** ** Arithmetic (C1) *)






(** *** Printed numbers are never symbols *)


Lemma dropWhileEnd_keeps_head (c : ascii) (r : string) :
  isSpace c = false -> exists r', dropWhileEnd isSpace (String c r) = String c r'.
Proof.
  intros H. simpl. rewrite H.
  destruct (dropWhileEnd isSpace r); eexists; reflexivity.
Qed.

Lemma TrimSpace_keeps_head (c : ascii) (r : string) :
  isSpace c = false -> exists r', TrimSpace (String c r) = String c r'.
Proof.
  intros H. unfold TrimSpace. simpl dropWhile. rewrite H.
  now apply dropWhileEnd_keeps_head.
Qed.
















(** *** The scan of a text with two operands *)













(** *** The evaluation of three scanned elements *)









(* ------------------------------------------------------------------ *)
(** ** Quoted values (C6) *)

(** *** Facts on the peek loops *)

Lemma lenL_app {A : Type} (a b : list A) : lenL (a ++ b) = lenL a + lenL b.
Proof. unfold lenL. rewrite List.length_app. lia. Qed.

Lemma lenL_cons {A : Type} (x : A) (a : list A) : lenL (x :: a) = 1 + lenL a.
Proof. unfold lenL. simpl List.length. lia. Qed.

Lemma lenL_nonneg {A : Type} (a : list A) : 0 <= lenL a.
Proof. unfold lenL. lia. Qed.

Lemma idx_middle {A : Type} (a : list A) (x : A) (b : list A) :
  idx (a ++ x :: b) (lenL a) = Ok x.
Proof.
  unfold idx.
  assert (H : (0 <=? lenL a) && (lenL a <? Z.of_nat (List.length (a ++ x :: b))) = true).
  { apply andb_true_iff. split; [apply Z.leb_le | apply Z.ltb_lt].
    - apply lenL_nonneg.
    - rewrite List.length_app. unfold lenL. simpl List.length. lia. }
  rewrite H.
  replace (Z.to_nat (lenL a)) with (List.length a) by (unfold lenL; lia).
  rewrite List.nth_error_app2 by lia. rewrite Nat.sub_diag. reflexivity.
Qed.

Lemma idx_last {A : Type} (a : list A) (x : A) :
  idx (a ++ [x]) (lenL (a ++ [x]) - 1) = Ok x.
Proof.
  replace (lenL (a ++ [x]) - 1) with (lenL a)
    by (rewrite lenL_app, lenL_cons; unfold lenL; simpl; lia).
  apply idx_middle.
Qed.

(** The slice expression that starts after a prefix of the elements and
    ends inside them. *)
Lemma subSlice_after (s : strSlice) (pre X : list string) (e : Z) :
  elems s = (pre ++ X)%list ->
  lenL pre <= e <= lenL pre + lenL X ->
  subSlice s (lenL pre) e = Ok (List.firstn (Z.to_nat (e - lenL pre)) X).
Proof.
  intros Hel He. unfold subSlice, sliceCap. rewrite Hel.
  assert (H : (0 <=? lenL pre) && (lenL pre <=? e)
              && (e <=? lenL (pre ++ X) + lenL (slack s)) = true).
  { rewrite lenL_app. pose proof (lenL_nonneg pre). pose proof (lenL_nonneg (slack s)).
    rewrite !andb_true_iff, !Z.leb_le. lia. }
  rewrite H. f_equal.
  replace (Z.to_nat (lenL pre)) with (List.length pre) by (unfold lenL; lia).
  rewrite <- List.app_assoc.
  assert (Hs : List.skipn (List.length pre) (pre ++ X ++ slack s) = (X ++ slack s)%list).
  { rewrite List.skipn_app, List.skipn_all, Nat.sub_diag. reflexivity. }
  rewrite Hs, List.firstn_app.
  replace (Z.to_nat (e - lenL pre) - List.length X)%nat with 0%nat
    by (unfold lenL in *; lia).
  rewrite List.firstn_0. apply List.app_nil_r.
Qed.

(** Elements at or before the cursor are not looked at. *)
Lemma peekAndFindAfterLoop_skip (sk r : list string) (j cur after : Z) (key : string) :
  j + lenL sk <= cur + 1 ->
  peekAndFindAfterLoop (sk ++ r) j cur after key
  = peekAndFindAfterLoop r (j + lenL sk) cur after key.
Proof.
  revert j. induction sk as [| x sk IH]; intros j H.
  - simpl. f_equal. unfold lenL. simpl. lia.
  - rewrite lenL_cons in H. pose proof (lenL_nonneg sk).
    simpl. replace (cur <? j) with false by (symmetry; apply Z.ltb_ge; lia).
    simpl. rewrite IH by lia. f_equal. rewrite lenL_cons. lia.
Qed.

(** A key that does not occur before the end of the line is not found. *)
Lemma peekAndFindAfterLoop_none (seg rest2 : list string) (j cur after : Z) (key : string) :
  cur < j -> after < j ->
  String.eqb key newline = false ->
  forallb (fun s => negb (String.eqb s key)) seg = true ->
  peekAndFindAfterLoop (seg ++ newline :: rest2) j cur after key = (false, 0).
Proof.
  intros Hc Ha Hk. revert j Hc Ha. induction seg as [| x seg IH]; intros j Hc Ha Hseg.
  - simpl.
    replace (cur <? j) with true by (symmetry; apply Z.ltb_lt; lia).
    replace (after <? j) with true by (symmetry; apply Z.ltb_lt; lia).
    rewrite Hk. reflexivity.
  - simpl in Hseg. apply andb_true_iff in Hseg. destruct Hseg as [Hx Hseg].
    apply negb_true_iff in Hx. simpl.
    replace (cur <? j) with true by (symmetry; apply Z.ltb_lt; lia).
    replace (after <? j) with true by (symmetry; apply Z.ltb_lt; lia).
    rewrite Hx, Hk. simpl.
    destruct (String.eqb x newline); [reflexivity |].
    apply IH; try assumption; lia.
Qed.

(** A key is found at its first occurrence on the line. *)
Lemma peekAndFindAfterLoop_found (seg rest : list string) (j cur after : Z) (key : string) :
  cur < j -> after < j ->
  forallb (fun s => negb (String.eqb s key) && negb (String.eqb s newline)) seg = true ->
  peekAndFindAfterLoop (seg ++ key :: rest) j cur after key = (true, j + lenL seg).
Proof.
  revert j. induction seg as [| x seg IH]; intros j Hc Ha Hseg.
  - simpl.
    replace (cur <? j) with true by (symmetry; apply Z.ltb_lt; lia).
    replace (after <? j) with true by (symmetry; apply Z.ltb_lt; lia).
    rewrite String.eqb_refl. simpl.
    destruct (String.eqb key newline); simpl; f_equal; unfold lenL; simpl; lia.
  - simpl in Hseg. apply andb_true_iff in Hseg. destruct Hseg as [Hx Hseg].
    apply andb_true_iff in Hx. destruct Hx as [Hx Hn].
    apply negb_true_iff in Hx. apply negb_true_iff in Hn. simpl.
    replace (cur <? j) with true by (symmetry; apply Z.ltb_lt; lia).
    replace (after <? j) with true by (symmetry; apply Z.ltb_lt; lia).
    rewrite Hx, Hn. simpl.
    rewrite IH by (try assumption; lia). f_equal. rewrite lenL_cons. lia.
Qed.

Lemma peekEOLLoop_skip (sk r : list string) (j cur n : Z) :
  j + lenL sk <= cur + 1 ->
  peekEOLLoop (sk ++ r) j cur n = peekEOLLoop r (j + lenL sk) cur n.
Proof.
  revert j. induction sk as [| x sk IH]; intros j H.
  - simpl. f_equal. unfold lenL. simpl. lia.
  - rewrite lenL_cons in H. pose proof (lenL_nonneg sk).
    simpl. replace (cur <? j) with false by (symmetry; apply Z.ltb_ge; lia).
    rewrite IH by lia. f_equal. rewrite lenL_cons. lia.
Qed.

(** The end of the line is its newline. *)
Lemma peekEOLLoop_line (seg rest2 : list string) (j cur n : Z) :
  cur < j ->
  j + lenL seg < n ->
  forallb (fun s => negb (String.eqb s newline)) seg = true ->
  peekEOLLoop (seg ++ newline :: rest2) j cur n = j + lenL seg.
Proof.
  revert j. induction seg as [| x seg IH]; intros j Hc Hn Hseg.
  - cbn [app peekEOLLoop].
    replace (cur <? j) with true by (symmetry; apply Z.ltb_lt; lia).
    change (String.eqb newline newline) with true. cbv iota.
    unfold lenL. simpl. lia.
  - simpl in Hseg. apply andb_true_iff in Hseg. destruct Hseg as [Hx Hseg].
    apply negb_true_iff in Hx. rewrite lenL_cons in Hn. pose proof (lenL_nonneg seg).
    simpl.
    replace (cur <? j) with true by (symmetry; apply Z.ltb_lt; lia).
    rewrite Hx.
    replace (j =? n - 1) with false by (symmetry; apply Z.eqb_neq; lia).
    rewrite IH by (try assumption; lia). rewrite lenL_cons. lia.
Qed.

Lemma peekCommentLoop_skip (all sk r : list string) (j cur after : Z) :
  j + lenL sk <= cur + 1 ->
  peekCommentLoop all (sk ++ r) j cur after = peekCommentLoop all r (j + lenL sk) cur after.
Proof.
  revert j. induction sk as [| x sk IH]; intros j H.
  - simpl. f_equal. unfold lenL. simpl. lia.
  - rewrite lenL_cons in H. pose proof (lenL_nonneg sk).
    simpl. replace (cur <? j) with false by (symmetry; apply Z.ltb_ge; lia).
    simpl. rewrite IH by lia. f_equal. rewrite lenL_cons. lia.
Qed.

(** On a line that ends with a newline the search for a comment does not
    panic, and a comment it finds starts on the line. *)
Lemma peekCommentLoop_line (pfx seg rest2 : list string) (cur after : Z) :
  cur < lenL pfx -> after < lenL pfx ->
  exists hc ci,
    peekCommentLoop (pfx ++ seg ++ newline :: rest2) (seg ++ newline :: rest2)
      (lenL pfx) cur after = Ok (hc, ci)
    /\ (hc = true -> lenL pfx <= ci < lenL pfx + lenL seg).
Proof.
  revert pfx. induction seg as [| x seg IH]; intros pfx Hc Ha.
  - exists false, 0. split; [| discriminate]. simpl.
    replace (cur <? lenL pfx) with true by (symmetry; apply Z.ltb_lt; lia).
    replace (after <? lenL pfx) with true by (symmetry; apply Z.ltb_lt; lia).
    reflexivity.
  - assert (Hrec : exists hc ci,
               peekCommentLoop (pfx ++ (x :: seg) ++ newline :: rest2)
                 (seg ++ newline :: rest2) (lenL pfx + 1) cur after = Ok (hc, ci)
               /\ (hc = true -> lenL pfx <= ci < lenL pfx + lenL (x :: seg))).
    { destruct (IH (pfx ++ [x])%list) as (hc & ci & E & B).
      - rewrite lenL_app, lenL_cons. unfold lenL at 2. simpl. lia.
      - rewrite lenL_app, lenL_cons. unfold lenL at 2. simpl. lia.
      - exists hc, ci. split.
        + rewrite <- E. rewrite lenL_app, lenL_cons. unfold lenL at 3. simpl.
          replace (lenL pfx + (1 + 0)) with (lenL pfx + 1) by lia.
          rewrite <- List.app_assoc. reflexivity.
        + intros H. specialize (B H). rewrite lenL_app, !lenL_cons in B.
          rewrite lenL_cons. unfold lenL at 2 in B. simpl in B. lia. }
    cbn [app peekCommentLoop].
    replace (cur <? lenL pfx) with true by (symmetry; apply Z.ltb_lt; lia).
    replace (after <? lenL pfx) with true by (symmetry; apply Z.ltb_lt; lia).
    cbn [andb].
    destruct (String.eqb x newline).
    + exists false, 0. split; [reflexivity | discriminate].
    + destruct (String.eqb x "/"); [| exact Hrec].
      assert (Hnext : exists y,
                 idx (pfx ++ x :: seg ++ newline :: rest2) (lenL pfx + 1) = Ok y).
      { replace (pfx ++ x :: seg ++ newline :: rest2)%list
          with ((pfx ++ [x]) ++ seg ++ newline :: rest2)%list
          by (rewrite <- List.app_assoc; reflexivity).
        replace (lenL pfx + 1) with (lenL (pfx ++ [x]))
          by (rewrite lenL_app, lenL_cons; unfold lenL at 2; simpl; lia).
        destruct seg as [| y seg'].
        - exists newline. apply idx_middle.
        - exists y. apply (idx_middle (pfx ++ [x]) y). }
      destruct Hnext as [y Hy]. rewrite Hy. cbn [bind].
      destruct (String.eqb y "/"); [| exact Hrec].
      exists true, (lenL pfx). split; [reflexivity |].
      intros _. rewrite lenL_cons. pose proof (lenL_nonneg seg). lia.
Qed.

(** *** Runes and quoted texts *)

Definition qs : string := str1 quote.

Definition backslashChar : ascii := Eval cbv in ascii_of_nat 92.

(** A value text enclosed in double quotes. *)
Definition quoted (payload : string) : string := String quote (payload ++ qs).

(** A character of a payload that no earlier rule reacts to: not a quote,
    a brace, a backslash or a newline. *)
Definition plainChar (c : ascii) : bool :=
  negb (Ascii.eqb c quote || Ascii.eqb c "{" || Ascii.eqb c "}"
        || Ascii.eqb c backslashChar || Ascii.eqb c nlChar).

(** A rune that may follow the closing quote on its line. *)
Definition plainRune (s : string) : bool :=
  negb (String.eqb s "{" || String.eqb s "}" || String.eqb s backslash
        || String.eqb s newline).

Lemma eqb_str1 (c d : ascii) : String.eqb (str1 c) (str1 d) = Ascii.eqb c d.
Proof. unfold str1. simpl. destruct (Ascii.eqb c d); reflexivity. Qed.

Lemma runesOf_cons (c : ascii) (s : string) : runesOf (String c s) = str1 c :: runesOf s.
Proof. reflexivity. Qed.

Lemma lenL_runesOf (s : string) : lenL (runesOf s) = len s.
Proof.
  induction s as [| c s IH]; [reflexivity |].
  rewrite runesOf_cons, lenL_cons, len_String, IH. reflexivity.
Qed.

Lemma Join_cons (x : string) (l : list string) : Join (x :: l) "" = x ++ Join l "".
Proof. destruct l; simpl; [now rewrite app_empty_r | reflexivity]. Qed.

Lemma Join_app (a b : list string) : Join (a ++ b) "" = Join a "" ++ Join b "".
Proof.
  induction a as [| x a IH]; [reflexivity |].
  change ((x :: a) ++ b)%list with (x :: (a ++ b))%list.
  rewrite !Join_cons, IH. now rewrite app_assoc_str.
Qed.

Lemma Join_runesOf (s : string) : Join (runesOf s) "" = s.
Proof.
  induction s as [| c s IH]; [reflexivity |].
  rewrite runesOf_cons, Join_cons, IH. reflexivity.
Qed.

Lemma dropWhileEnd_kept (p : ascii -> bool) (s : string) (c : ascii) :
  p c = false -> dropWhileEnd p (s ++ str1 c) = s ++ str1 c.
Proof.
  intros Hc. induction s as [| x s IH].
  - simpl. now rewrite Hc.
  - change (String x s ++ str1 c) with (String x (s ++ str1 c)).
    cbn [dropWhileEnd]. rewrite IH. destruct s; reflexivity.
Qed.

Lemma dropWhileEnd_stripped (p : ascii -> bool) (s : string) (c : ascii) :
  allChars (fun x => negb (p x)) s = true -> p c = true ->
  dropWhileEnd p (s ++ str1 c) = s.
Proof.
  intros Hs Hc. induction s as [| x s IH].
  - simpl. now rewrite Hc.
  - simpl in Hs. apply andb_true_iff in Hs. destruct Hs as [Hx Hs].
    apply negb_true_iff in Hx.
    change (String x s ++ str1 c) with (String x (s ++ str1 c)).
    cbn [dropWhileEnd]. rewrite (IH Hs). destruct s; [now rewrite Hx | reflexivity].
Qed.

Lemma TrimSpace_quoted (payload : string) : TrimSpace (quoted payload) = quoted payload.
Proof.
  unfold TrimSpace, quoted. cbn [dropWhile].
  change (isSpace quote) with false. cbv iota.
  change (String quote (payload ++ qs)) with (String quote payload ++ str1 quote).
  apply dropWhileEnd_kept. reflexivity.
Qed.

(** Stripping the quotes of a quoted text gives back a payload that holds
    no quote. *)
Lemma Trim_quoted (payload : string) :
  allChars (fun c => negb (Ascii.eqb quote c)) payload = true ->
  Trim (quoted payload) quote = payload.
Proof.
  intros H. unfold Trim, quoted. cbn [dropWhile].
  change (Ascii.eqb quote quote) with true. cbv iota.
  destruct payload as [| x s]; [reflexivity |].
  pose proof H as H'. cbn [allChars] in H'. apply andb_true_iff in H'.
  destruct H' as [Hx _]. apply negb_true_iff in Hx.
  change (String x s ++ qs) with (String x (s ++ qs)). cbn [dropWhile]. rewrite Hx.
  change (String x (s ++ qs)) with (String x s ++ str1 quote).
  apply dropWhileEnd_stripped; [exact H | reflexivity].
Qed.

Lemma plainChar_facts (c : ascii) :
  plainChar c = true ->
  Ascii.eqb quote c = false
  /\ String.eqb (str1 c) qs = false
  /\ String.eqb (str1 c) "{" = false
  /\ String.eqb (str1 c) "}" = false
  /\ String.eqb (str1 c) backslash = false
  /\ String.eqb (str1 c) newline = false.
Proof.
  destruct c as [[|] [|] [|] [|] [|] [|] [|] [|]]; intros H;
    first [discriminate H | repeat split; reflexivity].
Qed.

(** The runes of a plain payload hold none of the given keys. *)
Lemma plain_payload_runes (payload : string) (key : string) :
  allChars plainChar payload = true ->
  In key [qs; "{"; "}"; backslash; newline] ->
  forallb (fun s => negb (String.eqb s key)) (runesOf payload) = true.
Proof.
  intros H Hk. induction payload as [| c s IH]; [reflexivity |].
  cbn [allChars] in H. apply andb_true_iff in H. destruct H as [Hc Hs].
  rewrite runesOf_cons. cbn [forallb]. rewrite (IH Hs), andb_true_r.
  destruct (plainChar_facts c Hc) as (_ & H1 & H2 & H3 & H4 & H5).
  simpl in Hk.
  destruct Hk as [<- | [<- | [<- | [<- | [<- | []]]]]];
    apply negb_true_iff; assumption.
Qed.

Lemma plain_payload_no_quote (payload : string) :
  allChars plainChar payload = true ->
  allChars (fun c => negb (Ascii.eqb quote c)) payload = true.
Proof.
  intros H. induction payload as [| c s IH]; [reflexivity |].
  cbn [allChars] in H. apply andb_true_iff in H. destruct H as [Hc Hs].
  cbn [allChars]. rewrite (IH Hs), andb_true_r.
  apply negb_true_iff. exact (proj1 (plainChar_facts c Hc)).
Qed.

Lemma plain_tail_runes (tail : list string) (key : string) :
  forallb plainRune tail = true ->
  In key ["{"; "}"; backslash; newline] ->
  forallb (fun s => negb (String.eqb s key)) tail = true.
Proof.
  intros H Hk. induction tail as [| x t IH]; [reflexivity |].
  cbn [forallb] in H. apply andb_true_iff in H. destruct H as [Hx Ht].
  cbn [forallb]. rewrite (IH Ht), andb_true_r.
  unfold plainRune in Hx. apply negb_true_iff in Hx.
  repeat (apply orb_false_iff in Hx; destruct Hx as [Hx ?]).
  simpl in Hk.
  destruct Hk as [<- | [<- | [<- | [<- | []]]]]; apply negb_true_iff; assumption.
Qed.

Lemma forallb_app_intro {A : Type} (p : A -> bool) (a b : list A) :
  forallb p a = true -> forallb p b = true -> forallb p (a ++ b) = true.
Proof. intros Ha Hb. rewrite forallb_app, Ha, Hb. reflexivity. Qed.

Lemma forallb_and {A : Type} (p q : A -> bool) (a : list A) :
  forallb p a = true -> forallb q a = true ->
  forallb (fun x => p x && q x) a = true.
Proof.
  intros Hp Hq. induction a as [| x a IH]; [reflexivity |].
  cbn [forallb] in *. apply andb_true_iff in Hp. apply andb_true_iff in Hq.
  destruct Hp as [Hp1 Hp2], Hq as [Hq1 Hq2]. now rewrite Hp1, Hq1, IH.
Qed.

Lemma firstn_enclosed {A : Type} (x : A) (a : list A) (y : A) (b : list A) :
  List.firstn (S (List.length a + 1)) (x :: a ++ y :: b) = (x :: a ++ [y])%list.
Proof.
  cbn [List.firstn]. f_equal.
  replace (a ++ y :: b)%list with ((a ++ [y]) ++ b)%list
    by (rewrite <- List.app_assoc; reflexivity).
  rewrite List.firstn_app.
  replace (List.length a + 1 - List.length (a ++ [y]))%nat with 0%nat
    by (rewrite List.length_app; simpl; lia).
  rewrite List.firstn_0, List.app_nil_r.
  apply List.firstn_all2. rewrite List.length_app. simpl. lia.
Qed.

(** *** [next] after a rule has set the prototype *)

Lemma next_emits (l : lexer) (k : keyKind) (v : list string) (length : Z) (b : string) :
  k <> keyNIL ->
  atEOF l = false ->
  currentByteIndex l <> sliceLen (input l) - 1 ->
  currentByteIndex l + length <> sliceLen (input l) + 1 ->
  currentByteIndex l + length + 1 <> sliceLen (input l) ->
  idx (elems (input l)) (currentByteIndex l + length + 1) = Ok b ->
  next (setProto l (protoOf k v length)) false false
  = Ok (mkLexer (input l)
          (items l ++ [mkItem k (TrimSpace (Join v ""))
                         (mkPosition (currentLine l) (currentByteIndex l) length)])
          nilProto (currentLine l) (currentByteIndex l + length + 1) b (lastEOL l) false).
Proof.
  intros Hk Heof Hlast Hend Hlen Hb.
  destruct k; try congruence;
    unfold next, setProto, protoOf;
    cbn [proto proto_kind proto_value proto_position Length items currentLine
         currentByteIndex input lastEOL atEOF currentByte];
    rewrite idx_last; cbn [bind item_position Start Length];
    replace (currentByteIndex l + length =? sliceLen (input l) + 1) with false
      by (symmetry; now apply Z.eqb_neq);
    rewrite Heof;
    replace (currentByteIndex l =? sliceLen (input l) - 1) with false
      by (symmetry; now apply Z.eqb_neq);
    cbn [orb];
    replace (currentByteIndex l + length + 1 =? sliceLen (input l)) with false
      by (symmetry; now apply Z.eqb_neq);
    rewrite Hb; reflexivity.
Qed.

(** *** The rules at the opening quote of a value *)

(** The runes of the line after the opening quote: the payload, the closing
    quote and what follows it up to the newline. *)
Definition valueLine (payload : string) (tail : list string) : list string :=
  (runesOf payload ++ qs :: tail)%list.

Section QuotedValue.

Variable l : lexer.
Variables (pre : list string) (payload : string) (tail post : list string).
Variables (its : list item) (nameItem : item).

Hypothesis Hinput :
  elems (input l) = (pre ++ qs :: valueLine payload tail ++ newline :: post)%list.
Hypothesis Hcur : currentByteIndex l = lenL pre.
Hypothesis Hbyte : currentByte l = qs.
Hypothesis Heof : atEOF l = false.
Hypothesis Hitems : items l = (its ++ [nameItem])%list.
Hypothesis Hdef : item_kind nameItem = keyAttrDef.
Hypothesis Hpayload : allChars plainChar payload = true.
Hypothesis Htail : forallb plainRune tail = true.

Lemma input_split :
  elems (input l) = ((pre ++ [qs]) ++ valueLine payload tail ++ newline :: post)%list.
Proof. rewrite Hinput, <- List.app_assoc. reflexivity. Qed.

Lemma lenL_skipped : lenL (pre ++ [qs]) = lenL pre + 1.
Proof. rewrite lenL_app, lenL_cons. unfold lenL at 2. simpl. lia. Qed.

Lemma lenL_valueLine : lenL (valueLine payload tail) = len payload + 1 + lenL tail.
Proof. unfold valueLine. rewrite lenL_app, lenL_cons, lenL_runesOf. lia. Qed.

Lemma input_length :
  sliceLen (input l) = lenL pre + len payload + lenL tail + lenL post + 3.
Proof.
  unfold sliceLen. rewrite Hinput, lenL_app, lenL_cons, lenL_app, lenL_cons, lenL_valueLine.
  lia.
Qed.

Lemma line_without (key : string) :
  In key ["{"; "}"; backslash; newline] ->
  forallb (fun s => negb (String.eqb s key)) (valueLine payload tail) = true.
Proof.
  intros Hk. unfold valueLine. apply forallb_app_intro.
  - apply plain_payload_runes; [exact Hpayload |]. simpl. simpl in Hk. tauto.
  - cbn [forallb]. rewrite (plain_tail_runes tail key Htail Hk), andb_true_r.
    simpl in Hk. destruct Hk as [<- | [<- | [<- | [<- | []]]]]; reflexivity.
Qed.

Lemma find_none (key : string) :
  In key ["{"; "}"; backslash] ->
  peekAndFindAfterLoop (elems (input l)) 0 (lenL pre) (lenL pre) key = (false, 0).
Proof.
  intros Hk. rewrite input_split.
  rewrite peekAndFindAfterLoop_skip by (rewrite lenL_skipped; lia).
  apply peekAndFindAfterLoop_none.
  - rewrite lenL_skipped. lia.
  - rewrite lenL_skipped. lia.
  - simpl in Hk. destruct Hk as [<- | [<- | [<- | []]]]; reflexivity.
  - apply line_without. simpl. simpl in Hk. tauto.
Qed.

Lemma find_closing_quote :
  peekAndFindAfterLoop (elems (input l)) 0 (lenL pre) (lenL pre) qs
  = (true, lenL pre + 1 + len payload).
Proof.
  rewrite input_split. unfold valueLine.
  rewrite peekAndFindAfterLoop_skip by (rewrite lenL_skipped; lia).
  rewrite <- List.app_assoc. cbn [app].
  rewrite peekAndFindAfterLoop_found.
  - rewrite lenL_skipped, lenL_runesOf. reflexivity || (f_equal; lia).
  - rewrite lenL_skipped. lia.
  - rewrite lenL_skipped. lia.
  - apply forallb_and; apply plain_payload_runes; try exact Hpayload; simpl; tauto.
Qed.

Lemma peekEOL_value : peekEOL l = lenL pre + 1 + lenL (valueLine payload tail).
Proof.
  unfold peekEOL. rewrite Hcur, input_split.
  rewrite peekEOLLoop_skip by (rewrite lenL_skipped; lia).
  rewrite peekEOLLoop_line.
  - rewrite lenL_skipped. lia.
  - rewrite lenL_skipped. lia.
  - rewrite input_length, lenL_skipped, lenL_valueLine.
    pose proof (lenL_nonneg post). lia.
  - apply line_without. simpl. tauto.
Qed.

Lemma peekComment_value :
  exists hc ci,
    peekComment l (lenL pre) = Ok (hc, ci)
    /\ (hc = true -> lenL pre + 1 <= ci < lenL pre + 1 + lenL (valueLine payload tail)).
Proof.
  unfold peekComment. rewrite Hcur.
  destruct (peekCommentLoop_line (pre ++ [qs]) (valueLine payload tail) post
              (lenL pre) (lenL pre)) as (hc & ci & E & B);
    try (rewrite lenL_skipped; lia).
  exists hc, ci. split.
  - rewrite <- E. rewrite input_split at 2.
    rewrite peekCommentLoop_skip by (rewrite lenL_skipped; lia).
    rewrite input_split. reflexivity.
  - intros H. specialize (B H). rewrite lenL_skipped in B. exact B.
Qed.

Lemma previous_is_def : prevKindIs l keyAttrDef = Ok true.
Proof.
  unfold prevKindIs, previousItem. rewrite Hitems, idx_last. cbn [bind].
  rewrite Hdef. reflexivity.
Qed.

Lemma not_after_array : afterArrayItem l = Ok false.
Proof.
  unfold afterArrayItem, previousItem. rewrite Hitems, idx_last. cbn [bind].
  rewrite Hdef. reflexivity.
Qed.

(** The elements from the cursor on start with the quote. *)
Lemma slice_from_quote (e : Z) :
  lenL pre < e <= lenL pre + 2 + lenL (valueLine payload tail) + lenL post ->
  exists v, subSlice (input l) (lenL pre) e = Ok (qs :: v).
Proof.
  intros He.
  rewrite (subSlice_after (input l) pre
             (qs :: valueLine payload tail ++ newline :: post) e Hinput).
  - destruct (Z.to_nat (e - lenL pre)) as [| k] eqn:E; [lia |].
    eexists. reflexivity.
  - rewrite lenL_cons, lenL_app, lenL_cons. lia.
Qed.

Lemma joined_from_quote (v : list string) :
  exists r, Join (qs :: v) "" = String quote r.
Proof. rewrite Join_cons. eexists. reflexivity. Qed.

Lemma rule_lexEOF : lexEOF l = Ok (false, l).
Proof.
  unfold lexEOF, noMatch. rewrite Hcur, input_length.
  replace (lenL pre =? lenL pre + len payload + lenL tail + lenL post + 3 - 1) with false;
    [reflexivity |].
  symmetry. apply Z.eqb_neq.
  pose proof (len_nonneg payload). pose proof (lenL_nonneg tail).
  pose proof (lenL_nonneg post). lia.
Qed.

Lemma rule_lexTab : lexTab l = Ok (false, l).
Proof.
  unfold lexTab, noMatch. rewrite Hcur.
  destruct (slice_from_quote (lenL pre + 3)) as [v E].
  { rewrite lenL_valueLine. pose proof (len_nonneg payload).
    pose proof (lenL_nonneg tail). pose proof (lenL_nonneg post). lia. }
  rewrite E. cbn [bind].
  destruct (joined_from_quote v) as [r ->]. reflexivity.
Qed.

Lemma rule_lexEOL : lexEOL l = Ok (false, l).
Proof. unfold lexEOL, noMatch. rewrite Hbyte. reflexivity. Qed.

Lemma rule_lexWhitespace : lexWhitespace l = Ok (false, l).
Proof. unfold lexWhitespace, noMatch. rewrite Hbyte. reflexivity. Qed.

Lemma rule_lexComment : lexComment l = Ok (false, l).
Proof. unfold lexComment, noMatch. rewrite Hbyte. reflexivity. Qed.

Lemma rule_lexAttributeDef : lexAttributeDef l = Ok (false, l).
Proof.
  unfold lexAttributeDef, noMatch.
  replace (negb (lenL (items l) =? 0)) with true.
  - rewrite previous_is_def. reflexivity.
  - symmetry. apply negb_true_iff, Z.eqb_neq.
    rewrite Hitems, lenL_app, lenL_cons. pose proof (lenL_nonneg its).
    unfold lenL at 2. simpl. lia.
Qed.

Lemma rule_lexBrace (k : keyKind) (brace : string) :
  In brace ["{"; "}"] -> lexBrace k brace l = Ok (false, l).
Proof.
  intros Hb. unfold lexBrace, noMatch. rewrite Hbyte.
  assert (Hne : negb (String.eqb qs brace) = true)
    by (simpl in Hb; destruct Hb as [<- | [<- | []]]; reflexivity).
  rewrite Hne. unfold peekAndFind. rewrite Hcur, find_none; [reflexivity |].
  simpl. simpl in Hb. tauto.
Qed.

Lemma quote_is_no_function (r : string) :
  hasPrefixToMany (String quote r) allFunctionNames = false.
Proof.
  unfold hasPrefixToMany.
  destruct (TrimSpace_keeps_head quote r eq_refl) as [r' ->].
  reflexivity.
Qed.

Lemma rule_lexAttrFunction : lexAttrFunction l = Ok (false, l).
Proof.
  unfold lexAttrFunction, noMatch. rewrite previous_is_def. cbn [bind negb].
  rewrite Hcur.
  destruct peekComment_value as (hc & ci & E & B). rewrite E. cbn [bind].
  destruct (slice_from_quote (if hc then ci else peekEOL l)) as [v Ev].
  { pose proof (lenL_nonneg post). destruct hc.
    - specialize (B eq_refl). lia.
    - rewrite peekEOL_value, lenL_valueLine. pose proof (len_nonneg payload).
      pose proof (lenL_nonneg tail). lia. }
  rewrite Ev. cbn [bind].
  destruct (joined_from_quote v) as [r ->].
  rewrite quote_is_no_function. reflexivity.
Qed.

Lemma rule_lexArrayStart : lexArrayStart l = Ok (false, l).
Proof.
  unfold lexArrayStart, noMatch. rewrite previous_is_def. cbn [bind negb].
  rewrite Hbyte. reflexivity.
Qed.

Lemma rule_lexArrayEnd : lexArrayEnd l = Ok (false, l).
Proof. unfold lexArrayEnd, noMatch. rewrite not_after_array. reflexivity. Qed.

Lemma rule_lexArrayElem : lexArrayElem l = Ok (false, l).
Proof. unfold lexArrayElem, noMatch. rewrite not_after_array. reflexivity. Qed.

Lemma open_quote_here : openQuoteIndexOf l = lenL pre.
Proof. unfold openQuoteIndexOf. rewrite Hbyte, Hcur. reflexivity. Qed.

Lemma rule_lexAttrMultiString : lexAttrMultiString l = Ok (false, l).
Proof.
  unfold lexAttrMultiString, noMatch. rewrite previous_is_def. cbn [bind negb].
  rewrite open_quote_here. unfold peekAndFindAfter. rewrite Hcur.
  change (str1 quote) with qs. rewrite find_closing_quote. cbn [fst negb].
  rewrite find_none by (simpl; tauto). reflexivity.
Qed.

(** The item that the string rule emits and the lexer it leaves. *)
Definition stringItem : item :=
  mkItem keyString (quoted payload)
    (mkPosition (currentLine l) (lenL pre) (len payload + 1)).

Lemma rule_lexAttrString :
  exists b,
    lexAttrString l
    = Ok (true, mkLexer (input l) (items l ++ [stringItem]) nilProto (currentLine l)
                  (lenL pre + len payload + 2) b (lastEOL l) false).
Proof.
  pose proof (len_nonneg payload) as Hp. pose proof (lenL_nonneg tail) as Ht.
  pose proof (lenL_nonneg post) as Hq.
  assert (Hnext : exists b, idx (elems (input l)) (lenL pre + len payload + 2) = Ok b).
  { replace (lenL pre + len payload + 2)
      with (lenL ((pre ++ [qs]) ++ runesOf payload ++ [qs]))
      by (rewrite lenL_app, lenL_skipped, lenL_app, lenL_runesOf, lenL_cons;
          unfold lenL at 2; simpl; lia).
    assert (E : elems (input l)
                = (((pre ++ [qs]) ++ runesOf payload ++ [qs]) ++ tail ++ newline :: post)%list).
    { rewrite Hinput. unfold valueLine. rewrite <- !List.app_assoc. reflexivity. }
    rewrite E. destruct tail as [| t0 tail'].
    - exists newline. apply idx_middle.
    - exists t0. apply (idx_middle _ t0). }
  destruct Hnext as [b Hb]. exists b.
  unfold lexAttrString. rewrite previous_is_def. cbn [bind negb].
  rewrite open_quote_here. unfold peekAndFindAfter. rewrite Hcur.
  change (str1 quote) with qs. rewrite find_closing_quote. cbn [negb].
  rewrite (subSlice_after (input l) pre
             (qs :: valueLine payload tail ++ newline :: post)
             (lenL pre + 1 + len payload + 1) Hinput)
    by (rewrite lenL_cons, lenL_app, lenL_cons, lenL_valueLine; lia).
  replace (Z.to_nat (lenL pre + 1 + len payload + 1 - lenL pre))
    with (S (List.length (runesOf payload) + 1))
    by (pose proof (lenL_runesOf payload) as E; unfold lenL in E; lia).
  unfold valueLine. rewrite <- List.app_assoc. cbn [app].
  rewrite firstn_enclosed. cbn [bind].
  unfold emit.
  rewrite (next_emits l keyString _ (lenL pre + 1 + len payload - lenL pre) b).
  - cbn [bind]. unfold stringItem. rewrite Hcur.
    replace (lenL pre + 1 + len payload - lenL pre) with (len payload + 1) by lia.
    replace (lenL pre + (len payload + 1) + 1) with (lenL pre + len payload + 2) by lia.
    change (qs :: runesOf payload ++ [qs])%list with ([qs] ++ runesOf payload ++ [qs])%list.
    rewrite !Join_app, Join_runesOf. change (Join [qs] "") with qs.
    change (qs ++ payload ++ qs) with (quoted payload).
    rewrite TrimSpace_quoted. reflexivity.
  - discriminate.
  - exact Heof.
  - rewrite Hcur, input_length. lia.
  - rewrite Hcur, input_length. lia.
  - rewrite Hcur, input_length. lia.
  - rewrite Hcur. rewrite <- Hb. f_equal. lia.
Qed.

(** At the opening quote of a value, [lexByte] is the string rule. *)
Lemma lexByte_at_quote :
  exists b,
    lexByte l
    = Ok (mkLexer (input l) (items l ++ [stringItem]) nilProto (currentLine l)
            (lenL pre + len payload + 2) b (lastEOL l) false).
Proof.
  destruct rule_lexAttrString as [b Hs]. exists b.
  unfold lexByte, lexRules. cbn [firstMatch].
  rewrite rule_lexEOF. cbn [bind].
  rewrite rule_lexTab. cbn [bind].
  rewrite rule_lexEOL. cbn [bind].
  rewrite rule_lexWhitespace. cbn [bind].
  rewrite rule_lexComment. cbn [bind].
  rewrite rule_lexAttributeDef. cbn [bind].
  unfold lexBlockStart. rewrite rule_lexBrace by (simpl; tauto). cbn [bind].
  unfold lexBlockEnd. rewrite rule_lexBrace by (simpl; tauto). cbn [bind].
  rewrite rule_lexAttrFunction. cbn [bind].
  rewrite rule_lexArrayStart. cbn [bind].
  rewrite rule_lexArrayEnd. cbn [bind].
  rewrite rule_lexArrayElem. cbn [bind].
  rewrite rule_lexAttrMultiString. cbn [bind].
  rewrite Hs. reflexivity.
Qed.

End QuotedValue.

(* ================================================================== *)
(** * Further properties of the lexer *)

(** ** A quoted value after an attribute definition *)

(** X1.  With the scanner on the opening quote of a value that follows an
    attribute definition, when the text between the quotes has no quote,
    brace, backslash or newline and the rest of the line has no brace or
    backslash, [lexByte] emits one string item whose value is the quoted
    text, whatever the text looks like (a number, a boolean, an operator),
    leaves the scanner after the closing quote, and [transformItem] turns
    the item into the text between the quotes. *)
Theorem quoted_value_is_string_item (pow : float64 -> float64 -> float64) (l : lexer)
    (pre : list string) (payload : string) (tail post : list string)
    (its : list item) (nameItem : item) :
  elems (input l) = (pre ++ qs :: valueLine payload tail ++ newline :: post)%list ->
  currentByteIndex l = lenL pre ->
  currentByte l = qs ->
  atEOF l = false ->
  items l = (its ++ [nameItem])%list ->
  item_kind nameItem = keyAttrDef ->
  allChars plainChar payload = true ->
  forallb plainRune tail = true ->
  exists l',
    lexByte l = Ok l'
    /\ items l' = (items l ++ [mkItem keyString (quoted payload)
                                 (mkPosition (currentLine l) (lenL pre)
                                    (len payload + 1))])%list
    /\ currentByteIndex l' = lenL pre + len payload + 2
    /\ atEOF l' = false
    /\ transformItem pow (quoted payload) keyString = Ok (VString payload)
    /\ keyKindToAttrKind keyString = attrString.
Proof.
  intros Hinput Hcur Hbyte Heof Hitems Hdef Hpayload Htail.
  destruct (lexByte_at_quote l pre payload tail post its nameItem
              Hinput Hcur Hbyte Heof Hitems Hdef Hpayload Htail) as [b Hb].
  eexists. split; [exact Hb |].
  cbn [items currentByteIndex atEOF]. unfold stringItem.
  repeat split.
  cbn [transformItem]. rewrite Trim_quoted; [reflexivity |].
  apply plain_payload_no_quote. exact Hpayload.
Qed.

(** The scanner on the quote of #<code>x = "3.14159"</code># followed by a
    newline. *)
Definition atQuoteOfPi : lexer :=
  mkLexer
    (mkSlice (runesOf "x = " ++ qs :: valueLine "3.14159" [] ++ [newline]) [""; ""])
    [mkItem keyAttrDef "x" (mkPosition 1 0 2)]
    nilProto 1 4 qs 0 false.

Lemma quoted_value_is_string_item_witness :
  exists l',
    lexByte atQuoteOfPi = Ok l'
    /\ items l' = [mkItem keyAttrDef "x" (mkPosition 1 0 2);
                   mkItem keyString (quoted "3.14159") (mkPosition 1 4 8)]
    /\ transformItem powInt (quoted "3.14159") keyString = Ok (VString "3.14159").
Proof.
  destruct (quoted_value_is_string_item powInt atQuoteOfPi (runesOf "x = ") "3.14159" [] []
              [] (mkItem keyAttrDef "x" (mkPosition 1 0 2)))
    as (l' & H1 & H2 & _ & _ & H5 & _); try reflexivity.
  exists l'. refine (conj H1 (conj _ H5)). rewrite H2. reflexivity.
Defined.

(** ** A brace between the quotes *)

Lemma runesOf_app (a b : string) : runesOf (a ++ b) = (runesOf a ++ runesOf b)%list.
Proof.
  induction a as [| c a IH]; [reflexivity |].
  cbn [append]. rewrite !runesOf_cons, IH. reflexivity.
Qed.

(** A character that the search for a brace passes over. *)
Definition beforeBrace (brace : ascii) (c : ascii) : bool :=
  negb (Ascii.eqb c brace) && negb (Ascii.eqb c nlChar).

Lemma before_brace_runes (brace : ascii) (s : string) :
  allChars (beforeBrace brace) s = true ->
  forallb (fun r => negb (String.eqb r (str1 brace)) && negb (String.eqb r newline))
    (runesOf s) = true.
Proof.
  induction s as [| c s IH]; [reflexivity |].
  cbn [allChars]. rewrite runesOf_cons. cbn [forallb].
  intros H. apply andb_true_iff in H. destruct H as [Hc Hs].
  unfold newline. rewrite !eqb_str1. unfold beforeBrace in Hc. rewrite Hc.
  apply IH. exact Hs.
Qed.

Lemma firstn_head_segment {A : Type} (x : A) (a rest : list A) :
  List.firstn (S (List.length a)) (x :: a ++ rest) = x :: a.
Proof.
  cbn [List.firstn]. f_equal.
  rewrite List.firstn_app, Nat.sub_diag, List.firstn_all. cbn [List.firstn].
  apply List.app_nil_r.
Qed.

Section BraceInValue.

Variable l : lexer.
Variables (pre : list string) (p1 p2 : string) (tail post : list string).
Variables (its : list item) (nameItem : item).

Hypothesis Hinput :
  elems (input l)
  = (pre ++ qs :: valueLine (p1 ++ "{" ++ p2) tail ++ newline :: post)%list.
Hypothesis Hcur : currentByteIndex l = lenL pre.
Hypothesis Hbyte : currentByte l = qs.
Hypothesis Heof : atEOF l = false.
Hypothesis Hitems : items l = (its ++ [nameItem])%list.
Hypothesis Hdef : item_kind nameItem = keyAttrDef.
Hypothesis Hp1 : allChars (beforeBrace "{") p1 = true.

(** What follows the brace in the input. *)
Definition afterBrace : list string :=
  (runesOf p2 ++ qs :: tail ++ newline :: post)%list.

Lemma input_around_brace :
  elems (input l) = ((pre ++ [qs]) ++ runesOf p1 ++ "{" :: afterBrace)%list.
Proof.
  rewrite Hinput. unfold valueLine, afterBrace.
  rewrite !runesOf_app. change (runesOf "{") with ["{"].
  rewrite <- !List.app_assoc. reflexivity.
Qed.

Lemma length_around_brace :
  sliceLen (input l) = lenL pre + len p1 + len p2 + lenL tail + lenL post + 4.
Proof.
  rewrite (input_length l pre (p1 ++ "{" ++ p2) tail post Hinput).
  rewrite !len_app. change (len "{") with 1. lia.
Qed.

Lemma find_brace :
  peekAndFind l "{" = (true, lenL pre + 1 + len p1).
Proof.
  unfold peekAndFind. rewrite Hcur, input_around_brace.
  rewrite peekAndFindAfterLoop_skip by (rewrite lenL_skipped; lia).
  rewrite peekAndFindAfterLoop_found.
  - rewrite lenL_skipped, lenL_runesOf. reflexivity.
  - rewrite lenL_skipped. lia.
  - rewrite lenL_skipped. lia.
  - exact (before_brace_runes "{" p1 Hp1).
Qed.

Lemma slice_to_brace :
  subSlice (input l) (lenL pre) (lenL pre + 1 + len p1) = Ok (qs :: runesOf p1).
Proof.
  assert (E : elems (input l) = (pre ++ qs :: runesOf p1 ++ "{" :: afterBrace)%list).
  { rewrite input_around_brace, <- List.app_assoc. reflexivity. }
  rewrite (subSlice_after (input l) pre _ (lenL pre + 1 + len p1) E).
  - replace (Z.to_nat (lenL pre + 1 + len p1 - lenL pre))
      with (S (List.length (runesOf p1)))
      by (pose proof (lenL_runesOf p1) as H; unfold lenL in H; lia).
    rewrite firstn_head_segment. reflexivity.
  - rewrite lenL_cons, lenL_app, lenL_runesOf, lenL_cons.
    pose proof (len_nonneg p1). pose proof (lenL_nonneg afterBrace). lia.
Qed.

Lemma rune_after_brace :
  exists b, idx (elems (input l)) (lenL pre + (1 + len p1) + 1) = Ok b.
Proof.
  assert (E : elems (input l)
              = (((pre ++ [qs]) ++ runesOf p1 ++ ["{"]) ++ afterBrace)%list).
  { rewrite input_around_brace, <- !List.app_assoc. reflexivity. }
  replace (lenL pre + (1 + len p1) + 1)
    with (lenL ((pre ++ [qs]) ++ runesOf p1 ++ ["{"]))
    by (rewrite lenL_app, lenL_skipped, lenL_app, lenL_runesOf, lenL_cons;
        change (lenL (@nil string)) with 0; lia).
  rewrite E. unfold afterBrace. destruct (runesOf p2) as [| r rs].
  - exists qs. apply idx_middle.
  - exists r. apply (idx_middle _ r).
Qed.

(** The block-start rule takes the text from the quote to the brace. *)
Lemma lexBlockStart_in_value :
  exists b,
    lexBlockStart l
    = Ok (true,
          mkLexer (input l)
            (items l ++ [mkItem keyBlockStart (TrimSpace (qs ++ p1))
                           (mkPosition (currentLine l) (lenL pre) (1 + len p1))])
            nilProto (currentLine l) (lenL pre + (1 + len p1) + 1) b (lastEOL l) false).
Proof.
  pose proof (len_nonneg p1) as H1. pose proof (len_nonneg p2) as H2.
  pose proof (lenL_nonneg tail) as Ht. pose proof (lenL_nonneg post) as Hq.
  destruct rune_after_brace as [b Hb]. exists b.
  unfold lexBlockStart, lexBrace. rewrite Hbyte.
  change (negb (String.eqb qs "{")) with true. cbv iota.
  rewrite find_brace. cbn [negb]. rewrite Hcur, slice_to_brace. cbn [bind].
  replace (lenL pre + 1 + len p1 - lenL pre) with (1 + len p1) by lia.
  unfold emit.
  rewrite (next_emits l keyBlockStart (qs :: runesOf p1) (1 + len p1) b).
  - cbn [bind]. rewrite Hcur, Join_cons, Join_runesOf. reflexivity.
  - discriminate.
  - exact Heof.
  - rewrite Hcur, length_around_brace. lia.
  - rewrite Hcur, length_around_brace. lia.
  - rewrite Hcur, length_around_brace. lia.
  - rewrite Hcur. exact Hb.
Qed.

Lemma lexByte_at_brace_in_value :
  exists b,
    lexByte l
    = Ok (mkLexer (input l)
            (items l ++ [mkItem keyBlockStart (TrimSpace (qs ++ p1))
                           (mkPosition (currentLine l) (lenL pre) (1 + len p1))])
            nilProto (currentLine l) (lenL pre + (1 + len p1) + 1) b (lastEOL l) false).
Proof.
  destruct lexBlockStart_in_value as [b Hs]. exists b.
  unfold lexByte, lexRules. cbn [firstMatch].
  rewrite (rule_lexEOF l pre _ tail post Hinput Hcur). cbn [bind].
  rewrite (rule_lexTab l pre _ tail post Hinput Hcur). cbn [bind].
  rewrite (rule_lexEOL l Hbyte). cbn [bind].
  rewrite (rule_lexWhitespace l Hbyte). cbn [bind].
  rewrite (rule_lexComment l Hbyte). cbn [bind].
  rewrite (rule_lexAttributeDef l its nameItem Hitems Hdef). cbn [bind].
  rewrite Hs. reflexivity.
Qed.

End BraceInValue.

(** X2.  The block rules come before the string rules and look for a brace
    anywhere on the line: with the scanner on the opening quote of a value
    that follows an attribute definition, an opening brace between the
    quotes makes [lexByte] emit a block-start item made of the text from
    the quote to the brace, not a string item; [transformItem] has no case
    for that kind and panics. *)
Theorem brace_in_quotes_starts_block (pow : float64 -> float64 -> float64) (l : lexer)
    (pre : list string) (p1 p2 : string) (tail post : list string)
    (its : list item) (nameItem : item) :
  elems (input l)
  = (pre ++ qs :: valueLine (p1 ++ "{" ++ p2) tail ++ newline :: post)%list ->
  currentByteIndex l = lenL pre ->
  currentByte l = qs ->
  atEOF l = false ->
  items l = (its ++ [nameItem])%list ->
  item_kind nameItem = keyAttrDef ->
  allChars (beforeBrace "{") p1 = true ->
  exists l',
    lexByte l = Ok l'
    /\ items l' = (items l ++ [mkItem keyBlockStart (TrimSpace (qs ++ p1))
                                 (mkPosition (currentLine l) (lenL pre)
                                    (1 + len p1))])%list
    /\ currentByteIndex l' = lenL pre + len p1 + 2
    /\ transformItem pow (TrimSpace (qs ++ p1)) keyBlockStart
       = Panic (ParserError "unknown item kind").
Proof.
  intros Hinput Hcur Hbyte Heof Hitems Hdef Hp1.
  destruct (lexByte_at_brace_in_value l pre p1 p2 tail post its nameItem
              Hinput Hcur Hbyte Heof Hitems Hdef Hp1) as [b Hb].
  eexists. split; [exact Hb |].
  cbn [items currentByteIndex]. repeat split. lia.
Qed.

(** The scanner on the quote of #<code>x = "a{b"</code># followed by a
    newline. *)
Definition atQuoteOfBrace : lexer :=
  mkLexer
    (mkSlice (runesOf "x = " ++ qs :: valueLine ("a" ++ "{" ++ "b") [] ++ [newline])
       [""; ""; ""; ""; ""; ""])
    [mkItem keyAttrDef "x" (mkPosition 1 0 2)]
    nilProto 1 4 qs 0 false.

Lemma brace_in_quotes_starts_block_witness :
  exists l',
    lexByte atQuoteOfBrace = Ok l'
    /\ items l' = [mkItem keyAttrDef "x" (mkPosition 1 0 2);
                   mkItem keyBlockStart (qs ++ "a") (mkPosition 1 4 2)]
    /\ currentByteIndex l' = 7.
Proof.
  destruct (brace_in_quotes_starts_block powInt atQuoteOfBrace (runesOf "x = ") "a" "b"
              [] [] [] (mkItem keyAttrDef "x" (mkPosition 1 0 2)))
    as (l' & H1 & H2 & H3 & _); try reflexivity.
  exists l'. refine (conj H1 (conj _ _)).
  - rewrite H2. reflexivity.
  - rewrite H3. reflexivity.
Defined.

(** ** A document that starts with a space *)

(** [next] reads the last item before anything else: with no item and no
    prototype it panics. *)
Lemma next_without_items (l : lexer) (whitespace eol : bool) :
  items l = [] -> proto_kind (proto l) = keyNIL ->
  next l whitespace eol = Panic IndexOutOfRange.
Proof. intros Hi Hp. unfold next. rewrite Hp, Hi. reflexivity. Qed.

Lemma lexByte_on_leading_space (l : lexer) :
  items l = [] -> proto_kind (proto l) = keyNIL -> currentByte l = " " ->
  lexByte l = Panic IndexOutOfRange \/ lexByte l = Panic SliceBoundsOutOfRange.
Proof.
  intros Hi Hp Hb.
  unfold lexByte, lexRules. cbn [firstMatch].
  assert (Hrest : forall l1,
             items l1 = [] -> proto_kind (proto l1) = keyNIL -> currentByte l1 = " " ->
             (do (matched, l') <- lexTab l1 ;;
              if matched then Ok l' else
              firstMatch
                [lexEOL; lexWhitespace; lexComment; lexAttributeDef; lexBlockStart;
                 lexBlockEnd; lexAttrFunction; lexArrayStart; lexArrayEnd; lexArrayElem;
                 lexAttrMultiString; lexAttrString; lexAttrCondition; lexAttrArithmetic;
                 lexAttrComparison; lexAttrInt; lexAttrFloat; lexAttrBool; lexAttrCall;
                 lexError] l')
             = Panic IndexOutOfRange
             \/ (do (matched, l') <- lexTab l1 ;;
                 if matched then Ok l' else
                 firstMatch
                   [lexEOL; lexWhitespace; lexComment; lexAttributeDef; lexBlockStart;
                    lexBlockEnd; lexAttrFunction; lexArrayStart; lexArrayEnd; lexArrayElem;
                    lexAttrMultiString; lexAttrString; lexAttrCondition; lexAttrArithmetic;
                    lexAttrComparison; lexAttrInt; lexAttrFloat; lexAttrBool; lexAttrCall;
                    lexError] l')
                = Panic SliceBoundsOutOfRange).
  { intros l1 Hi1 Hp1 Hb1. unfold lexTab.
    destruct (subSlice (input l1) (currentByteIndex l1) (currentByteIndex l1 + 3))
      as [s | k |] eqn:Es.
    - cbn [bind].
      destruct (String.eqb (Join s "") "    ").
      + rewrite (next_without_items l1 true false Hi1 Hp1). left. reflexivity.
      + unfold noMatch. cbn [bind firstMatch].
        unfold lexEOL. rewrite Hb1.
        change (String.eqb " " newline) with false. cbn [andb]. unfold noMatch. cbn [bind].
        unfold lexWhitespace. rewrite Hb1.
        change (String.eqb " " " ") with true. cbv iota.
        rewrite (next_without_items l1 true false Hi1 Hp1). left. reflexivity.
    - unfold subSlice in Es.
      destruct ((0 <=? currentByteIndex l1)
                && (currentByteIndex l1 <=? currentByteIndex l1 + 3)
                && (currentByteIndex l1 + 3 <=? sliceCap (input l1))); [discriminate |].
      injection Es as <-. right. reflexivity.
    - unfold subSlice in Es.
      destruct ((0 <=? currentByteIndex l1)
                && (currentByteIndex l1 <=? currentByteIndex l1 + 3)
                && (currentByteIndex l1 + 3 <=? sliceCap (input l1))); discriminate. }
  unfold lexEOF.
  destruct (currentByteIndex l =? sliceLen (input l) - 1).
  - cbn [bind]. apply Hrest; assumption.
  - unfold noMatch. cbn [bind]. apply Hrest; assumption.
Qed.

(** X3.  A file whose first rune is a space cannot be decoded: the first
    call of [lexByte] reaches [next] with an empty item list (or the slice
    expression of [lexTab] exceeds the capacity), so [Decode] panics
    whatever follows the space. *)
Theorem leading_space_panics (pow : float64 -> float64 -> float64) (fuel : nat)
    (fs : fileSystem) (spare : nat) (filename : string) (rest : list string) :
  HasSuffix filename ".cafe" = true ->
  fs filename = Some (" " :: rest) ->
  Decode pow (S fuel) fs spare filename = Panic IndexOutOfRange
  \/ Decode pow (S fuel) fs spare filename = Panic SliceBoundsOutOfRange.
Proof.
  intros Hs Hf.
  set (l := mkLexer (mkSlice (" " :: rest) (List.repeat "" spare)) [] nilProto 1 0 " " 0 false).
  assert (H : forall k, lexByte l = Panic k ->
                        Decode pow (S fuel) fs spare filename = Panic k).
  { intros k E. unfold Decode, readCAFEFile. rewrite Hs, Hf. cbn [negb].
    unfold newParser, newLexer. cbn [elems].
    change (idx (" " :: rest) 0) with (Ok (A := string) " ").
    cbn [bind lexInput atEOF]. fold l. rewrite E. reflexivity. }
  destruct (lexByte_on_leading_space l eq_refl eq_refl eq_refl) as [E | E];
    [left | right]; apply H; exact E.
Qed.

Lemma leading_space_panics_witness :
  Decode powInt 50 (oneFile "a.cafe" (" x = 1" ++ newline)) 1 "a.cafe"
  = Panic IndexOutOfRange
  \/ Decode powInt 50 (oneFile "a.cafe" (" x = 1" ++ newline)) 1 "a.cafe"
     = Panic SliceBoundsOutOfRange.
Proof.
  apply (leading_space_panics powInt 49 (oneFile "a.cafe" (" x = 1" ++ newline)) 1
           "a.cafe" (runesOf ("x = 1" ++ newline))); reflexivity.
Defined.

(** ** The peek functions *)

Lemma idx_nil {A : Type} (k : Z) : idx (@nil A) k = Panic IndexOutOfRange.
Proof.
  unfold idx. simpl. destruct (0 <=? k), (k <? 0); try reflexivity.
  destruct (Z.to_nat k); reflexivity.
Qed.

Lemma idx_head {A : Type} (v : A) (r : list A) : idx (v :: r) 0 = Ok v.
Proof. reflexivity. Qed.

Lemma idx_tail {A : Type} (v : A) (r : list A) (k : Z) :
  0 < k -> idx (v :: r) k = idx r (k - 1).
Proof.
  intros Hk. unfold idx. simpl List.length.
  replace (0 <=? k) with true by (symmetry; apply Z.leb_le; lia).
  replace (0 <=? k - 1) with true by (symmetry; apply Z.leb_le; lia).
  cbn [andb].
  replace (Z.to_nat k) with (S (Z.to_nat (k - 1))) by lia. cbn [nth_error].
  destruct (k - 1 <? Z.of_nat (List.length r)) eqn:E.
  - replace (k <? Z.of_nat (S (List.length r))) with true
      by (symmetry; apply Z.ltb_lt; apply Z.ltb_lt in E; lia).
    reflexivity.
  - replace (k <? Z.of_nat (S (List.length r))) with false
      by (symmetry; apply Z.ltb_ge; apply Z.ltb_ge in E; lia).
    reflexivity.
Qed.

Lemma idx_Ok_range {A : Type} (r : list A) (k : Z) (v : A) :
  idx r k = Ok v -> 0 <= k < lenL r.
Proof.
  unfold idx, lenL. intros H.
  destruct (0 <=? k) eqn:E1; [| discriminate].
  destruct (k <? Z.of_nat (List.length r)) eqn:E2; [| discriminate].
  apply Z.leb_le in E1. apply Z.ltb_lt in E2. lia.
Qed.

(** The position that a search started after [cur] and [after] reports. *)
Definition foundAt (rest : list string) (j cur after : Z) (key : string) (i : Z) : Prop :=
  j <= i /\ cur < i /\ after < i
  /\ idx rest (i - j) = Ok key
  /\ (forall k v, j <= k < i -> cur < k -> after < k ->
                  idx rest (k - j) = Ok v -> v <> key /\ v <> newline).

Lemma peekAndFindAfterLoop_spec (rest : list string) (j cur after : Z) (key : string) (i : Z) :
  peekAndFindAfterLoop rest j cur after key = (true, i) <-> foundAt rest j cur after key i.
Proof.
  revert j. induction rest as [| v rest IH]; intros j.
  - cbn [peekAndFindAfterLoop]. split; [discriminate |].
    intros (_ & _ & _ & H & _). rewrite idx_nil in H. discriminate.
  - cbn [peekAndFindAfterLoop].
    assert (Hstep : foundAt rest (j + 1) cur after key i ->
                    (cur < j -> after < j -> v <> key /\ v <> newline) ->
                    foundAt (v :: rest) j cur after key i).
    { intros (H1 & H2 & H3 & H4 & H5) Hv. unfold foundAt.
      split; [lia |]. split; [lia |]. split; [lia |]. split.
      - rewrite idx_tail by lia. replace (i - j - 1) with (i - (j + 1)) by lia. exact H4.
      - intros k w Hk Hc Ha Hw.
        destruct (Z.eq_dec k j) as [-> | Hne].
        + rewrite Z.sub_diag, idx_head in Hw. injection Hw as <-. apply Hv; assumption.
        + rewrite idx_tail in Hw by lia.
          replace (k - j - 1) with (k - (j + 1)) in Hw by lia.
          apply (H5 k w); try assumption. lia. }
    assert (Hback : foundAt (v :: rest) j cur after key i -> j < i ->
                    foundAt rest (j + 1) cur after key i).
    { intros (H1 & H2 & H3 & H4 & H5) Hlt. unfold foundAt.
      split; [lia |]. split; [lia |]. split; [lia |]. split.
      - rewrite idx_tail in H4 by lia.
        replace (i - (j + 1)) with (i - j - 1) by lia. exact H4.
      - intros k w Hk Hc Ha Hw. apply (H5 k w); try assumption; try lia.
        rewrite idx_tail by lia. replace (k - j - 1) with (k - (j + 1)) by lia. exact Hw. }
    destruct ((cur <? j) && (after <? j)) eqn:Ein.
    + apply andb_true_iff in Ein. destruct Ein as [Ec Ea].
      apply Z.ltb_lt in Ec. apply Z.ltb_lt in Ea.
      destruct (String.eqb v newline && negb (String.eqb key newline)) eqn:Enl.
      * apply andb_true_iff in Enl. destruct Enl as [Ev Ek].
        apply String.eqb_eq in Ev. apply negb_true_iff, String.eqb_neq in Ek.
        split; [discriminate |].
        intros (H1 & H2 & H3 & H4 & H5). exfalso.
        destruct (Z.eq_dec i j) as [-> | Hne].
        -- rewrite Z.sub_diag, idx_head in H4. injection H4 as H4. congruence.
        -- destruct (H5 j v) as [_ Hn]; try lia.
           ++ rewrite Z.sub_diag. apply idx_head.
           ++ contradiction.
      * destruct (String.eqb v key) eqn:Evk.
        -- apply String.eqb_eq in Evk. split.
           ++ intros H. injection H as <-. unfold foundAt.
              split; [lia |]. split; [lia |]. split; [lia |]. split.
              ** rewrite Z.sub_diag, idx_head, Evk. reflexivity.
              ** intros k w Hk. lia.
           ++ intros (H1 & H2 & H3 & H4 & H5).
              destruct (Z.eq_dec i j) as [-> | Hne]; [reflexivity |]. exfalso.
              destruct (H5 j v) as [Hn _]; try lia.
              ** rewrite Z.sub_diag. apply idx_head.
              ** contradiction.
        -- apply String.eqb_neq in Evk.
           assert (Hvn : v <> newline).
           { intros ->. rewrite String.eqb_refl in Enl. cbn [andb] in Enl.
             apply negb_false_iff, String.eqb_eq in Enl. congruence. }
           rewrite IH. split.
           ++ intros H. apply Hstep; [exact H |]. intros _ _. split; assumption.
           ++ intros H. apply Hback; [exact H |].
              destruct H as (H1 & _ & _ & H4 & _).
              destruct (Z.eq_dec i j) as [-> | Hne]; [| lia]. exfalso.
              rewrite Z.sub_diag, idx_head in H4. injection H4 as H4. congruence.
    + rewrite IH. split.
      * intros H. apply Hstep; [exact H |]. intros Hc Ha. exfalso.
        apply andb_false_iff in Ein. destruct Ein as [E | E]; apply Z.ltb_ge in E; lia.
      * intros H. apply Hback; [exact H |].
        destruct H as (H1 & H2 & H3 & _).
        apply andb_false_iff in Ein. destruct Ein as [E | E]; apply Z.ltb_ge in E; lia.
Qed.

Lemma peekAndFindAfterLoop_not_found (rest : list string) (j cur after : Z) (key : string) :
  fst (peekAndFindAfterLoop rest j cur after key) = false ->
  peekAndFindAfterLoop rest j cur after key = (false, 0).
Proof.
  revert j. induction rest as [| v rest IH]; intros j; cbn [peekAndFindAfterLoop].
  - reflexivity.
  - destruct ((cur <? j) && (after <? j)); [| apply IH].
    destruct (String.eqb v newline && negb (String.eqb key newline)); [reflexivity |].
    destruct (String.eqb v key); [discriminate | apply IH].
Qed.

(** X4.  [peekAndFindAfter] reports [(true, i)] exactly when i is the first
    position after both the cursor and the given index whose rune is the key
    or a newline, and that rune is the key; every other outcome is
    [(false, 0)].  [peekAndFind] is the case where the given index is the
    cursor. *)
Theorem peekAndFindAfter_first_on_line (l : lexer) (key : string) (after : Z) :
  (forall i,
     peekAndFindAfter l key after = (true, i)
     <-> (currentByteIndex l < i /\ after < i
          /\ idx (elems (input l)) i = Ok key
          /\ forall k v, currentByteIndex l < k < i -> after < k ->
                         idx (elems (input l)) k = Ok v -> v <> key /\ v <> newline))
  /\ (fst (peekAndFindAfter l key after) = false ->
      peekAndFindAfter l key after = (false, 0))
  /\ peekAndFind l key = peekAndFindAfter l key (currentByteIndex l).
Proof.
  split; [| split].
  - intros i. unfold peekAndFindAfter. rewrite peekAndFindAfterLoop_spec. unfold foundAt.
    rewrite !Z.sub_0_r. split.
    + intros (H1 & H2 & H3 & H4 & H5). repeat split; try assumption.
      * destruct (H5 k v) as [Hn _]; try lia; try assumption.
        -- pose proof (idx_Ok_range _ _ _ H6). lia.
        -- rewrite Z.sub_0_r. exact H6.
      * destruct (H5 k v) as [_ Hn]; try lia; try assumption.
        -- pose proof (idx_Ok_range _ _ _ H6). lia.
        -- rewrite Z.sub_0_r. exact H6.
    + intros (H2 & H3 & H4 & H5).
      pose proof (idx_Ok_range _ _ _ H4) as Hr.
      split; [lia |]. split; [exact H2 |]. split; [exact H3 |]. split; [exact H4 |].
      intros k v Hk Hc Ha Hv. rewrite Z.sub_0_r in Hv. apply (H5 k v); try assumption. lia.
  - apply peekAndFindAfterLoop_not_found.
  - reflexivity.
Qed.

Lemma peekEOLLoop_past_end (rest : list string) (j cur n : Z) :
  j + lenL rest = n -> n - 1 <= cur -> peekEOLLoop rest j cur n = 0.
Proof.
  revert j. induction rest as [| v rest IH]; intros j Hn Hc; [reflexivity |].
  cbn [peekEOLLoop]. rewrite lenL_cons in Hn. pose proof (lenL_nonneg rest).
  replace (cur <? j) with false by (symmetry; apply Z.ltb_ge; lia).
  apply IH; lia.
Qed.

Lemma peekEOLLoop_spec (rest : list string) (j cur n : Z) :
  j + lenL rest = n -> j <= n - 1 -> cur < n - 1 ->
  Z.max j (cur + 1) <= peekEOLLoop rest j cur n <= n - 1
  /\ (idx rest (peekEOLLoop rest j cur n - j) = Ok newline
      \/ peekEOLLoop rest j cur n = n - 1)
  /\ (forall k, Z.max j (cur + 1) <= k < peekEOLLoop rest j cur n ->
                idx rest (k - j) <> Ok newline).
Proof.
  revert j. induction rest as [| v rest IH]; intros j Hn Hj Hc.
  - change (lenL (@nil string)) with 0 in Hn. lia.
  - rewrite lenL_cons in Hn. cbn [peekEOLLoop].
    assert (Hrec : j + 1 <= n - 1 ->
                   (cur < j -> v <> newline) ->
                   Z.max j (cur + 1) <= peekEOLLoop rest (j + 1) cur n <= n - 1
                   /\ (idx (v :: rest) (peekEOLLoop rest (j + 1) cur n - j) = Ok newline
                       \/ peekEOLLoop rest (j + 1) cur n = n - 1)
                   /\ (forall k, Z.max j (cur + 1) <= k < peekEOLLoop rest (j + 1) cur n ->
                                 idx (v :: rest) (k - j) <> Ok newline)).
    { intros Hj1 Hv. destruct (IH (j + 1)) as (H1 & H2 & H3); try lia.
      split; [lia |]. split.
      - destruct H2 as [H2 | H2]; [left | right; exact H2].
        rewrite idx_tail by lia.
        replace (peekEOLLoop rest (j + 1) cur n - j - 1)
          with (peekEOLLoop rest (j + 1) cur n - (j + 1)) by lia.
        exact H2.
      - intros k Hk. destruct (Z.eq_dec k j) as [-> | Hne].
        + rewrite Z.sub_diag, idx_head. intros E. injection E as E.
          apply Hv; [lia | exact E].
        + rewrite idx_tail by lia. replace (k - j - 1) with (k - (j + 1)) by lia.
          apply H3. lia. }
    destruct (cur <? j) eqn:Ec.
    + apply Z.ltb_lt in Ec. destruct (String.eqb v newline) eqn:Ev.
      * apply String.eqb_eq in Ev. split; [lia |]. split.
        -- left. rewrite Z.sub_diag, idx_head, Ev. reflexivity.
        -- intros k Hk. lia.
      * apply String.eqb_neq in Ev. destruct (j =? n - 1) eqn:Ej.
        -- apply Z.eqb_eq in Ej. split; [lia |]. split; [right; exact Ej |].
           intros k Hk. lia.
        -- apply Z.eqb_neq in Ej. apply Hrec; [lia |]. intros _. exact Ev.
    + apply Z.ltb_ge in Ec. apply Hrec; [lia |]. intros H. lia.
Qed.

(** X5.  With the cursor before the last rune, [peekEOL] returns the index
    of the first newline after the cursor, or the last index of the input
    when the rest has no newline; with the cursor on the last rune it
    returns 0. *)
Theorem peekEOL_next_newline_or_last (l : lexer) :
  0 <= currentByteIndex l ->
  (currentByteIndex l < sliceLen (input l) - 1 ->
   currentByteIndex l < peekEOL l <= sliceLen (input l) - 1
   /\ (idx (elems (input l)) (peekEOL l) = Ok newline
       \/ peekEOL l = sliceLen (input l) - 1)
   /\ (forall k, currentByteIndex l < k < peekEOL l ->
                 idx (elems (input l)) k <> Ok newline))
  /\ (sliceLen (input l) - 1 <= currentByteIndex l -> peekEOL l = 0).
Proof.
  intros H0. split.
  - intros Hc. unfold peekEOL.
    destruct (peekEOLLoop_spec (elems (input l)) 0 (currentByteIndex l) (sliceLen (input l)))
      as (H1 & H2 & H3); try (unfold sliceLen in *; lia).
    split; [lia |]. split.
    + rewrite Z.sub_0_r in H2. exact H2.
    + intros k Hk. specialize (H3 k). rewrite Z.sub_0_r in H3. apply H3. lia.
  - intros Hc. unfold peekEOL. apply peekEOLLoop_past_end; [unfold sliceLen; lia | exact Hc].
Qed.

(** The scanner at the start of a comment line followed by an attribute. *)
Definition atCommentStart : lexer :=
  mkLexer (mkSlice (runesOf ("// c" ++ newline ++ "x = 1" ++ newline)) [""; ""; ""; ""])
    [] nilProto 1 0 "/" 0 false.

Lemma peekEOL_next_newline_or_last_witness :
  peekEOL atCommentStart = 4
  /\ idx (elems (input atCommentStart)) (peekEOL atCommentStart) = Ok newline.
Proof.
  destruct (peekEOL_next_newline_or_last atCommentStart) as [H _]; [vm_compute; discriminate |].
  assert (Hc : currentByteIndex atCommentStart < sliceLen (input atCommentStart) - 1)
    by reflexivity.
  destruct (H Hc) as (_ & [E | E] & _).
  - split; [reflexivity | exact E].
  - vm_compute in E. discriminate.
Defined.

(* ================================================================== *)
(** * Further properties of the parser *)

(** ** Maps and the cursor *)

Lemma mapGet_mapSet_same {A : Type} (m : list (string * A)) (k : string) (a : A) :
  mapGet (mapSet m k a) k = Some a.
Proof.
  induction m as [| [k' a'] m IH]; cbn [mapSet mapGet].
  - rewrite String.eqb_refl. reflexivity.
  - destruct (String.eqb k k') eqn:E; cbn [mapGet].
    + rewrite String.eqb_refl. reflexivity.
    + rewrite E. exact IH.
Qed.

Lemma mapGet_mapSet_other {A : Type} (m : list (string * A)) (k k' : string) (a : A) :
  k' <> k -> mapGet (mapSet m k a) k' = mapGet m k'.
Proof.
  intros Hne. induction m as [| [k0 a0] m IH]; cbn [mapSet mapGet].
  - apply String.eqb_neq in Hne. rewrite Hne. reflexivity.
  - destruct (String.eqb k k0) eqn:E; cbn [mapGet].
    + apply String.eqb_eq in E. subst k0.
      apply String.eqb_neq in Hne. rewrite Hne. reflexivity.
    + destruct (String.eqb k' k0); [reflexivity | exact IH].
Qed.

(** [nextItem] keeps everything but the cursor, and succeeds exactly when
    the new index is at most the number of items. *)
Lemma nextItem_in_range (p : Parser) (n : Z) :
  0 <= currentItemIndex p + n <= lenL (items (lx p)) ->
  exists p',
    nextItem p n = Ok p'
    /\ lx p' = lx p /\ Attributes p' = Attributes p
    /\ currentBlocks p' = currentBlocks p /\ Blocks p' = Blocks p
    /\ currentItemIndex p' = currentItemIndex p + n
    /\ (atLastItem p' = true \/ currentItemIndex p' < lenL (items (lx p'))).
Proof.
  intros Hr. unfold nextItem.
  destruct (currentItemIndex p + n =? lenL (items (lx p))) eqn:E.
  - eexists. split; [reflexivity |]. cbn. repeat split. left. reflexivity.
  - apply Z.eqb_neq in E. unfold idx.
    replace ((0 <=? currentItemIndex p + n)
             && (currentItemIndex p + n <? Z.of_nat (List.length (items (lx p)))))
      with true
      by (symmetry; apply andb_true_iff; unfold lenL in *;
          split; [apply Z.leb_le | apply Z.ltb_lt]; lia).
    destruct (nth_error (items (lx p)) (Z.to_nat (currentItemIndex p + n))) eqn:En.
    + eexists. split; [reflexivity |]. cbn. repeat split. right. lia.
    + apply nth_error_None in En. unfold lenL in *. lia.
Qed.

Lemma nextItem_past_end (p : Parser) (n : Z) :
  lenL (items (lx p)) < currentItemIndex p + n ->
  nextItem p n = Panic IndexOutOfRange.
Proof.
  intros Hr. unfold nextItem.
  replace (currentItemIndex p + n =? lenL (items (lx p))) with false
    by (symmetry; apply Z.eqb_neq; lia).
  unfold idx.
  replace (currentItemIndex p + n <? Z.of_nat (List.length (items (lx p)))) with false
    by (symmetry; apply Z.ltb_ge; unfold lenL in *; lia).
  rewrite andb_false_r. reflexivity.
Qed.

Lemma nextItem_fields (p p' : Parser) (n : Z) :
  nextItem p n = Ok p' ->
  lx p' = lx p /\ Attributes p' = Attributes p
  /\ currentBlocks p' = currentBlocks p /\ Blocks p' = Blocks p
  /\ currentItemIndex p' = currentItemIndex p + n
  /\ (atLastItem p' = true \/ currentItemIndex p' < lenL (items (lx p'))).
Proof.
  unfold nextItem.
  destruct (currentItemIndex p + n =? lenL (items (lx p))) eqn:E.
  - intros H. injection H as <-. cbn. repeat split. left. reflexivity.
  - destruct (idx (items (lx p)) (currentItemIndex p + n)) as [it | k |] eqn:Ei;
      cbn [bind]; try discriminate.
    intros H. injection H as <-. cbn. repeat split. right.
    apply idx_Ok_range in Ei. lia.
Qed.

(** ** Attributes *)

(** The block under the names of [currentBlocks], read from the root. *)
Fixpoint lookupBlock (path : list string) (blocks : list (string * block)) : option block :=
  match path with
  | [] => None
  | [b] => mapGet blocks b
  | b :: rest =>
      match mapGet blocks b with
      | Some blk => lookupBlock rest (block_Blocks blk)
      | None => None
      end
  end.

Lemma lookupBlock_nested (b b2 : string) (rest : list string)
    (blocks : list (string * block)) :
  lookupBlock (b :: b2 :: rest) blocks
  = match mapGet blocks b with
    | Some blk => lookupBlock (b2 :: rest) (block_Blocks blk)
    | None => None
    end.
Proof. reflexivity. Qed.

Lemma updateCurrentBlock_nested (b b2 : string) (rest : list string) (f : block -> block)
    (blocks : list (string * block)) :
  updateCurrentBlock (b :: b2 :: rest) f blocks
  = match mapGet blocks b with
    | Some (mkBlock n attrs sub) =>
        do sub' <- updateCurrentBlock (b2 :: rest) f sub ;;
        Ok (mapSet blocks b (mkBlock n attrs sub'))
    | None => Panic AssignToNilMap
    end.
Proof. reflexivity. Qed.

Lemma updateCurrentBlock_found (path : list string) (f : block -> block)
    (blocks : list (string * block)) (blk : block) :
  lookupBlock path blocks = Some blk ->
  exists blocks',
    updateCurrentBlock path f blocks = Ok blocks'
    /\ lookupBlock path blocks' = Some (f blk).
Proof.
  revert blocks. induction path as [| b rest IH]; intros blocks H; [discriminate |].
  destruct rest as [| b2 rest].
  - cbn [lookupBlock] in H. cbn [updateCurrentBlock]. rewrite H.
    eexists. split; [reflexivity |]. cbn [lookupBlock]. apply mapGet_mapSet_same.
  - rewrite lookupBlock_nested in H. rewrite updateCurrentBlock_nested.
    destruct (mapGet blocks b) as [[n attrs sub] |] eqn:Eb; [| discriminate].
    cbn [block_Blocks] in H.
    destruct (IH sub H) as (sub' & Hu & Hl). rewrite Hu. cbn [bind].
    eexists. split; [reflexivity |].
    rewrite lookupBlock_nested, mapGet_mapSet_same. cbn [block_Blocks]. exact Hl.
Qed.

Lemma updateCurrentBlock_missing (path : list string) (f : block -> block)
    (blocks : list (string * block)) :
  path <> [] -> lookupBlock path blocks = None ->
  updateCurrentBlock path f blocks = Panic AssignToNilMap.
Proof.
  revert blocks. induction path as [| b rest IH]; intros blocks Hne H; [congruence |].
  destruct rest as [| b2 rest].
  - cbn [lookupBlock] in H. cbn [updateCurrentBlock]. rewrite H. reflexivity.
  - rewrite lookupBlock_nested in H. rewrite updateCurrentBlock_nested.
    destruct (mapGet blocks b) as [[n attrs sub] |] eqn:Eb; [| reflexivity].
    cbn [block_Blocks] in H. rewrite (IH sub); [reflexivity | discriminate | exact H].
Qed.

(** The item that follows the cursor is a value that is not an array. *)
Definition scalarValueFollows (p : Parser) (it : item) : Prop :=
  item_kind (currentItem p) = keyAttrDef
  /\ 0 <= currentItemIndex p
  /\ currentItemIndex p + 2 <= lenL (items (lx p))
  /\ idx (items (lx p)) (currentItemIndex p + 1) = Ok it
  /\ item_kind it <> keyArrayStart.

Section AttributeRules.

Variable pow : float64 -> float64 -> float64.

(** What [parseAttribute] does up to the point where it stores the new
    attribute. *)
Lemma parseAttribute_scalar (p : Parser) (it : item) :
  scalarValueFollows p it ->
  parseAttribute pow p
  = do attrvalue <- transformItem pow (item_value it) (item_kind it) ;;
    let newAttr := mkAttribute (item_value (currentItem p)) attrvalue
                     (keyKindToAttrKind (item_kind it)) in
    do p1 <-
       match currentBlocks p with
       | [] =>
           Ok (mkParser (lx p) (currentItem p) (currentItemIndex p)
                 (mapSet (Attributes p) (attr_Name newAttr) newAttr)
                 (currentBlocks p) (Blocks p) (atLastItem p))
       | path =>
           do blocks' <- updateCurrentBlock path (addAttribute newAttr) (Blocks p) ;;
           Ok (mkParser (lx p) (currentItem p) (currentItemIndex p) (Attributes p)
                 (currentBlocks p) blocks' (atLastItem p))
       end ;;
    do p2 <- nextItem p1 2 ;;
    Ok (true, p2).
Proof.
  intros (Hk & H0 & Hr & Hi & Hn). unfold parseAttribute.
  rewrite Hk. cbn [keyKind_eqb negb].
  unfold peekNextItem.
  replace (currentItemIndex p =? lenL (items (lx p)) - 1) with false
    by (symmetry; apply Z.eqb_neq; lia).
  rewrite Hi. cbn [bind].
  replace (keyKind_eqb (item_kind it) keyArrayStart) with false
    by (destruct (item_kind it); try reflexivity; congruence).
  reflexivity.
Qed.

End AttributeRules.

(** The parser at the first item of #<code>x = 1</code># and of
    #<code>x = }</code>#, each followed by a newline. *)
Definition parserAtX : Parser :=
  Eval vm_compute in
    match parserOn ("x = 1" ++ newline) 2 with
    | Ok p => p
    | _ => mkParser (mkLexer (mkSlice [] []) [] nilProto 0 0 "" 0 true) zeroItem 0 [] [] [] true
    end.

(** X6.  Outside any block, [parseAttribute] on an attribute definition
    followed by a value item that is not an array stores the evaluated value
    under the attribute's name in the global attributes, replacing an entry
    of the same name and leaving every other name, the blocks and the open
    path as they were, and moves the cursor past the two items. *)
Theorem parseAttribute_stores_global (pow : float64 -> float64 -> float64)
    (p : Parser) (it : item) (val : value) :
  scalarValueFollows p it ->
  currentBlocks p = [] ->
  transformItem pow (item_value it) (item_kind it) = Ok val ->
  exists p',
    parseAttribute pow p = Ok (true, p')
    /\ mapGet (Attributes p') (item_value (currentItem p))
       = Some (mkAttribute (item_value (currentItem p)) val
                 (keyKindToAttrKind (item_kind it)))
    /\ (forall other, other <> item_value (currentItem p) ->
                      mapGet (Attributes p') other = mapGet (Attributes p) other)
    /\ Blocks p' = Blocks p
    /\ currentBlocks p' = []
    /\ currentItemIndex p' = currentItemIndex p + 2.
Proof.
  intros Hs Hb Hv. rewrite (parseAttribute_scalar pow p it Hs), Hv, Hb. cbn [bind attr_Name].
  destruct Hs as (Hk & H0 & Hr & Hi & Hn).
  destruct (nextItem_in_range
              (mkParser (lx p) (currentItem p) (currentItemIndex p)
                 (mapSet (Attributes p) (item_value (currentItem p))
                    (mkAttribute (item_value (currentItem p)) val
                       (keyKindToAttrKind (item_kind it))))
                 [] (Blocks p) (atLastItem p)) 2)
    as (p' & Hp & H1 & H2 & H3 & H4 & H5 & _); [cbn; lia |].
  rewrite Hp. cbn [bind]. exists p'. split; [reflexivity |].
  cbn in H2, H3, H4, H5. rewrite H2. repeat split; try assumption.
  - apply mapGet_mapSet_same.
  - intros other Ho. apply mapGet_mapSet_other. exact Ho.
Qed.

Lemma parseAttribute_stores_global_witness :
  parserOn ("x = 1" ++ newline) 2 = Ok parserAtX
  /\ exists p',
       parseAttribute powInt parserAtX = Ok (true, p')
       /\ mapGet (Attributes p') "x" = Some (mkAttribute "x" (VInt 1) attrInt)
       /\ currentItemIndex p' = 2.
Proof.
  split; [vm_compute; reflexivity |].
  destruct (parseAttribute_stores_global powInt parserAtX
              (mkItem keyInt "1" (mkPosition 1 4 1)) (VInt 1))
    as (p' & H1 & H2 & _ & _ & _ & H6).
  - unfold scalarValueFollows. vm_compute.
    repeat split; try reflexivity; discriminate.
  - reflexivity.
  - reflexivity.
  - exists p'. refine (conj H1 (conj H2 H6)).
Defined.

(** X7.  Inside an open block whose path resolves, [parseAttribute] stores
    the attribute in the attributes of the innermost open block and leaves
    the global attributes and the open path as they were; when the path does
    not resolve, the store is an assignment to the nil map of a zero block
    and panics. *)
Theorem parseAttribute_stores_in_block (pow : float64 -> float64 -> float64)
    (p : Parser) (it : item) (val : value) :
  scalarValueFollows p it ->
  currentBlocks p <> [] ->
  transformItem pow (item_value it) (item_kind it) = Ok val ->
  (forall blk,
     lookupBlock (currentBlocks p) (Blocks p) = Some blk ->
     exists p',
       parseAttribute pow p = Ok (true, p')
       /\ lookupBlock (currentBlocks p') (Blocks p')
          = Some (mkBlock (block_Name blk)
                    (mapSet (block_Attributes blk) (item_value (currentItem p))
                       (mkAttribute (item_value (currentItem p)) val
                          (keyKindToAttrKind (item_kind it))))
                    (block_Blocks blk))
       /\ Attributes p' = Attributes p
       /\ currentBlocks p' = currentBlocks p
       /\ currentItemIndex p' = currentItemIndex p + 2)
  /\ (lookupBlock (currentBlocks p) (Blocks p) = None ->
      parseAttribute pow p = Panic AssignToNilMap).
Proof.
  intros Hs Hb Hv. rewrite (parseAttribute_scalar pow p it Hs), Hv. cbn [bind attr_Name].
  destruct Hs as (Hk & H0 & Hr & Hi & Hn).
  destruct (currentBlocks p) as [| b rest] eqn:Ep; [congruence |]. split.
  - intros blk Hl.
    destruct (updateCurrentBlock_found (b :: rest)
                (addAttribute (mkAttribute (item_value (currentItem p)) val
                                 (keyKindToAttrKind (item_kind it))))
                (Blocks p) blk Hl) as (blocks' & Hu & Hl').
    rewrite Hu. cbn [bind].
    destruct (nextItem_in_range
                (mkParser (lx p) (currentItem p) (currentItemIndex p) (Attributes p)
                   (b :: rest) blocks' (atLastItem p)) 2)
      as (p' & Hp & H1 & H2 & H3 & H4 & H5 & _); [cbn; lia |].
    rewrite Hp. cbn [bind]. exists p'. split; [reflexivity |].
    cbn in H2, H3, H4, H5. rewrite H3, H4. repeat split; assumption.
  - intros Hl. rewrite (updateCurrentBlock_missing (b :: rest) _ (Blocks p));
      [reflexivity | discriminate | exact Hl].
Qed.

(** The parser inside the block of #<code>b {</code>#, on the attribute
    definition of the next line. *)
Definition parserInBlock : Parser :=
  Eval vm_compute in
    match (do p0 <- parserOn ("b {" ++ newline ++ "x = 1" ++ newline ++ "}" ++ newline) 3 ;;
           parseItem powInt p0) with
    | Ok p => p
    | _ => mkParser (mkLexer (mkSlice [] []) [] nilProto 0 0 "" 0 true) zeroItem 0 [] [] [] true
    end.

Lemma parseAttribute_stores_in_block_witness :
  (do p0 <- parserOn ("b {" ++ newline ++ "x = 1" ++ newline ++ "}" ++ newline) 3 ;;
   parseItem powInt p0) = Ok parserInBlock
  /\ exists p',
       parseAttribute powInt parserInBlock = Ok (true, p')
       /\ lookupBlock ["b"] (Blocks p')
          = Some (mkBlock "b" [("x", mkAttribute "x" (VInt 1) attrInt)] [])
       /\ Attributes p' = [].
Proof.
  split; [vm_compute; reflexivity |].
  destruct (parseAttribute_stores_in_block powInt parserInBlock
              (mkItem keyInt "1" (mkPosition 2 8 1)) (VInt 1))
    as (H & _).
  - unfold scalarValueFollows. vm_compute.
    repeat split; try reflexivity; discriminate.
  - discriminate.
  - reflexivity.
  - destruct (H (mkBlock "b" [] []) eq_refl) as (p' & H1 & H2 & H3 & H4 & _).
    exists p'. refine (conj H1 (conj _ H3)).
    rewrite H4 in H2. exact H2.
Defined.

(** X8.  An attribute definition that is followed by no item, or by an item
    of a kind that is no value (one that [keyKindToAttrKind] maps to the nil
    kind: a block start or end, a comment, an error item, ...), makes
    [parseAttribute] panic with the unknown-item-kind error of
    [transformItem]. *)
Theorem parseAttribute_without_value (pow : float64 -> float64 -> float64)
    (p : Parser) (it : item) :
  item_kind (currentItem p) = keyAttrDef ->
  peekNextItem p = Ok it ->
  keyKindToAttrKind (item_kind it) = attrNIL ->
  parseAttribute pow p = Panic (ParserError "unknown item kind")
  /\ parseItem pow p = Panic (ParserError "unknown item kind").
Proof.
  intros Hk Hi Hn.
  assert (Hp : parseAttribute pow p = Panic (ParserError "unknown item kind")).
  { unfold parseAttribute. rewrite Hk. cbn [keyKind_eqb negb]. rewrite Hi. cbn [bind].
    destruct (item_kind it); try discriminate; reflexivity. }
  split; [exact Hp |].
  unfold parseItem, parseEOF. rewrite Hk. cbn [keyKind_eqb negb bind]. rewrite Hp.
  reflexivity.
Qed.

Definition parserAtLoneDef : Parser :=
  mkParser (mkLexer (mkSlice [] []) [mkItem keyAttrDef "x" (mkPosition 1 0 2)]
              nilProto 1 0 "" 0 true)
    (mkItem keyAttrDef "x" (mkPosition 1 0 2)) 0 [] [] [] false.

Lemma parseAttribute_without_value_witness :
  peekNextItem parserAtLoneDef = Ok zeroItem
  /\ parseAttribute powInt parserAtLoneDef = Panic (ParserError "unknown item kind").
Proof.
  split; [reflexivity |].
  apply (parseAttribute_without_value powInt parserAtLoneDef zeroItem); reflexivity.
Defined.

(** ** Blocks and the open path *)

Lemma lookupBlock_snoc (path : list string) (blocks : list (string * block))
    (blk : block) (n : string) :
  lookupBlock path blocks = Some blk ->
  lookupBlock (path ++ [n]) blocks = mapGet (block_Blocks blk) n.
Proof.
  revert blocks. induction path as [| b rest IH]; intros blocks H; [discriminate |].
  destruct rest as [| b2 rest].
  - cbn [lookupBlock] in H. cbn [app]. rewrite lookupBlock_nested, H. reflexivity.
  - rewrite lookupBlock_nested in H.
    change ((b :: b2 :: rest) ++ [n])%list with (b :: b2 :: (rest ++ [n]))%list.
    rewrite lookupBlock_nested.
    destruct (mapGet blocks b) as [bb |]; [| discriminate].
    apply (IH (block_Blocks bb) H).
Qed.

Lemma lookupBlock_removelast (path : list string) (blocks : list (string * block))
    (blk : block) :
  lookupBlock path blocks = Some blk ->
  List.removelast path = []
  \/ exists blk', lookupBlock (List.removelast path) blocks = Some blk'.
Proof.
  revert blocks blk. induction path as [| b rest IH]; intros blocks blk H; [discriminate |].
  destruct rest as [| b2 rest].
  - left. reflexivity.
  - right. rewrite lookupBlock_nested in H.
    destruct (mapGet blocks b) as [bb |] eqn:Eb; [| discriminate].
    change (List.removelast (b :: b2 :: rest)) with (b :: List.removelast (b2 :: rest)).
    destruct (IH (block_Blocks bb) blk H) as [E | (blk' & E)].
    + rewrite E. exists bb. exact Eb.
    + destruct (List.removelast (b2 :: rest)) as [| c cs] eqn:Er; [discriminate |].
      exists blk'. rewrite lookupBlock_nested, Eb. exact E.
Qed.

(** The names of [currentBlocks] lead to a block of [Blocks]. *)
Definition openResolves (p : Parser) : Prop :=
  currentBlocks p = []
  \/ exists blk, lookupBlock (currentBlocks p) (Blocks p) = Some blk.

(** The store of [parseBlockStart]: the new block is reached by the open
    path extended with its name. *)
Lemma openBlock_resolves (p : Parser) (name : string) :
  openResolves p ->
  exists blocks',
    match currentBlocks p with
    | [] => Ok (mapSet (Blocks p) name (mkBlock name [] []))
    | path => updateCurrentBlock path (addBlock (mkBlock name [] [])) (Blocks p)
    end = Ok blocks'
    /\ lookupBlock (currentBlocks p ++ [name]) blocks' = Some (mkBlock name [] []).
Proof.
  intros [E | (blk & E)].
  - rewrite E. eexists. split; [reflexivity |].
    cbn [app lookupBlock]. apply mapGet_mapSet_same.
  - destruct (currentBlocks p) as [| b rest] eqn:Ep; [discriminate |].
    destruct (updateCurrentBlock_found (b :: rest) (addBlock (mkBlock name [] []))
                (Blocks p) blk E) as (blocks' & Hu & Hl).
    exists blocks'. split; [exact Hu |].
    rewrite (lookupBlock_snoc _ _ _ _ Hl). unfold addBlock. cbn [block_Blocks block_Name].
    apply mapGet_mapSet_same.
Qed.

(** X9.  On a block-start item, with the open path resolving,
    [parseBlockStart] registers an empty block under the item's name in the
    innermost open block (in the global blocks when none is open), replacing
    a block of that name, and appends the name to the open path; the new
    path resolves to the new block and removing its last name, as
    [parseBlockEnd] does, gives back the old path. *)
Theorem parseBlockStart_opens_block (p : Parser) :
  item_kind (currentItem p) = keyBlockStart ->
  0 <= currentItemIndex p + 1 <= lenL (items (lx p)) ->
  openResolves p ->
  exists p',
    parseBlockStart p = Ok (true, p')
    /\ currentBlocks p' = (currentBlocks p ++ [item_value (currentItem p)])%list
    /\ lookupBlock (currentBlocks p') (Blocks p')
       = Some (mkBlock (item_value (currentItem p)) [] [])
    /\ List.removelast (currentBlocks p') = currentBlocks p
    /\ Attributes p' = Attributes p
    /\ currentItemIndex p' = currentItemIndex p + 1.
Proof.
  intros Hk Hr Ho. unfold parseBlockStart. rewrite Hk. cbn [keyKind_eqb negb block_Name].
  destruct (openBlock_resolves p (item_value (currentItem p)) Ho) as (blocks' & Hm & Hl).
  rewrite Hm. cbn [bind].
  destruct (nextItem_in_range
              (mkParser (lx p) (currentItem p) (currentItemIndex p) (Attributes p)
                 (currentBlocks p ++ [item_value (currentItem p)]) blocks' (atLastItem p)) 1)
    as (p' & Hp & H1 & H2 & H3 & H4 & H5 & _); [cbn; lia |].
  rewrite Hp. cbn [bind]. exists p'. split; [reflexivity |].
  cbn in H2, H3, H4, H5. rewrite H3, H4.
  repeat split; try assumption.
  apply List.removelast_last.
Qed.

Definition parserAtBlock : Parser :=
  Eval vm_compute in
    match parserOn ("b {" ++ newline ++ "}" ++ newline) 2 with
    | Ok p => p
    | _ => mkParser (mkLexer (mkSlice [] []) [] nilProto 0 0 "" 0 true) zeroItem 0 [] [] [] true
    end.

(** The same parser after its block start. *)
Definition parserInBlockB : Parser :=
  Eval vm_compute in
    match parseItem powInt parserAtBlock with
    | Ok p => p
    | _ => parserAtBlock
    end.

Lemma parseBlockStart_opens_block_witness :
  parserOn ("b {" ++ newline ++ "}" ++ newline) 2 = Ok parserAtBlock
  /\ exists p',
       parseBlockStart parserAtBlock = Ok (true, p')
       /\ currentBlocks p' = ["b"]
       /\ lookupBlock ["b"] (Blocks p') = Some (mkBlock "b" [] []).
Proof.
  split; [vm_compute; reflexivity |].
  destruct (parseBlockStart_opens_block parserAtBlock) as (p' & H1 & H2 & H3 & _).
  - reflexivity.
  - vm_compute. split; discriminate.
  - left. reflexivity.
  - exists p'. refine (conj H1 (conj H2 _)). rewrite H2 in H3. exact H3.
Defined.

(** ** One call of parseItem *)

(** A change of the maps and of the open path that keeps the path
    resolving, followed by [nextItem] with a positive count. *)
Definition movesFrom (p p' : Parser) : Prop :=
  exists p1 n,
    1 <= n /\ nextItem p1 n = Ok p'
    /\ lx p1 = lx p /\ currentItemIndex p1 = currentItemIndex p
    /\ atLastItem p1 = atLastItem p
    /\ (openResolves p -> openResolves p1).

Lemma nextItem_flag (p p' : Parser) (n : Z) :
  nextItem p n = Ok p' ->
  (atLastItem p' = true /\ currentItemIndex p' = lenL (items (lx p')))
  \/ (atLastItem p' = atLastItem p /\ currentItemIndex p' < lenL (items (lx p'))).
Proof.
  unfold nextItem.
  destruct (currentItemIndex p + n =? lenL (items (lx p))) eqn:E.
  - intros H. injection H as <-. cbn. left. apply Z.eqb_eq in E. split; [reflexivity | exact E].
  - destruct (idx (items (lx p)) (currentItemIndex p + n)) as [it | k |] eqn:Ei;
      cbn [bind]; try discriminate.
    intros H. injection H as <-. cbn. right. apply idx_Ok_range in Ei.
    split; [reflexivity | lia].
Qed.

Lemma plain_step_moves (test : bool) (p : Parser) (m : bool) (p' : Parser) :
  (if test then Ok (false, p) else do q <- nextItem p 1 ;; Ok (true, q)) = Ok (m, p') ->
  (m = false /\ p' = p) \/ (m = true /\ movesFrom p p').
Proof.
  destruct test.
  - intros H. injection H as <- <-. left. split; reflexivity.
  - destruct (nextItem p 1) as [q | k |] eqn:E; cbn [bind]; try discriminate.
    intros H. injection H as <- <-. right. split; [reflexivity |].
    exists p, 1. repeat split; try assumption; try lia. intros Ho. exact Ho.
Qed.

Lemma parseBlockStart_moves (p : Parser) (m : bool) (p' : Parser) :
  parseBlockStart p = Ok (m, p') ->
  (m = false /\ p' = p) \/ (m = true /\ movesFrom p p').
Proof.
  unfold parseBlockStart.
  destruct (negb (keyKind_eqb (item_kind (currentItem p)) keyBlockStart)).
  - intros H. injection H as <- <-. left. split; reflexivity.
  - cbn [block_Name].
    match goal with
    | |- bind ?r _ = _ -> _ => destruct r as [blocks' | k |] eqn:Eb
    end; cbn [bind]; try discriminate.
    match goal with
    | |- context [nextItem ?q 1] => destruct (nextItem q 1) as [q' | k |] eqn:En
    end; cbn [bind]; try discriminate.
    intros H. injection H as <- <-. right. split; [reflexivity |].
    eexists _, 1. split; [lia |]. split; [exact En |]. cbn.
    repeat split. intros Ho. right.
    destruct (openBlock_resolves p (item_value (currentItem p)) Ho) as (b2 & Hu & Hl).
    assert (Hsame : Ok (A := list (string * block)) b2 = Ok blocks').
    { rewrite <- Hu, <- Eb. destruct (currentBlocks p); reflexivity. }
    injection Hsame as ->. eexists. exact Hl.
Qed.

Lemma parseBlockEnd_moves (p : Parser) (m : bool) (p' : Parser) :
  parseBlockEnd p = Ok (m, p') ->
  (m = false /\ p' = p) \/ (m = true /\ movesFrom p p').
Proof.
  unfold parseBlockEnd.
  destruct (negb (keyKind_eqb (item_kind (currentItem p)) keyBlockEnd)).
  - intros H. injection H as <- <-. left. split; reflexivity.
  - destruct (lenL (currentBlocks p) - 1 <? 0) eqn:El; [discriminate |].
    match goal with
    | |- context [nextItem ?q 1] => destruct (nextItem q 1) as [q' | k |] eqn:En
    end; cbn [bind]; try discriminate.
    intros H. injection H as <- <-. right. split; [reflexivity |].
    eexists _, 1. split; [lia |]. split; [exact En |]. cbn.
    repeat split. intros [Ho | (blk & Ho)].
    + rewrite Ho in El. discriminate.
    + destruct (lookupBlock_removelast _ _ _ Ho) as [E | E]; [left | right]; exact E.
Qed.

Section ItemRules.

Variable pow : float64 -> float64 -> float64.

Lemma parseAttribute_moves (p : Parser) (m : bool) (p' : Parser) :
  parseAttribute pow p = Ok (m, p') ->
  (m = false /\ p' = p) \/ (m = true /\ movesFrom p p').
Proof.
  unfold parseAttribute.
  destruct (negb (keyKind_eqb (item_kind (currentItem p)) keyAttrDef)).
  - intros H. injection H as <- <-. left. split; reflexivity.
  - destruct (peekNextItem p) as [it | k |]; cbn [bind]; try discriminate.
    set (arr := arrayItemsLoop (items (lx p)) 0 (currentItemIndex p)).
    assert (Hn : 2 <= snd (if keyKind_eqb (item_kind it) keyArrayStart
                           then (Join arr ", ", 2 + lenL arr)
                           else (item_value it, 2))).
    { destruct (keyKind_eqb (item_kind it) keyArrayStart); cbn [snd];
        [pose proof (lenL_nonneg arr) |]; lia. }
    destruct (if keyKind_eqb (item_kind it) keyArrayStart
              then (Join arr ", ", 2 + lenL arr)
              else (item_value it, 2)) as [itemvalue nextCount].
    cbn [snd] in Hn.
    destruct (transformItem pow itemvalue (item_kind it)) as [val | k |];
      cbn [bind attr_Name]; try discriminate.
    destruct (currentBlocks p) as [| b rest] eqn:Ep.
    + cbn [bind].
      match goal with
      | |- context [nextItem ?q nextCount] =>
          destruct (nextItem q nextCount) as [q' | k |] eqn:En
      end; cbn [bind]; try discriminate.
      intros H. injection H as <- <-. right. split; [reflexivity |].
      eexists _, nextCount. split; [lia |]. split; [exact En |]. cbn.
      repeat split; try (symmetry; exact Ep). intros _. left. reflexivity.
    + destruct (updateCurrentBlock (b :: rest)
                  (addAttribute (mkAttribute (item_value (currentItem p)) val
                                   (keyKindToAttrKind (item_kind it)))) (Blocks p))
        as [blocks' | k |] eqn:Eu; cbn [bind]; try discriminate.
      match goal with
      | |- context [nextItem ?q nextCount] =>
          destruct (nextItem q nextCount) as [q' | k |] eqn:En
      end; cbn [bind]; try discriminate.
      intros H. injection H as <- <-. right. split; [reflexivity |].
      eexists _, nextCount. split; [lia |]. split; [exact En |]. cbn.
      repeat split; try (symmetry; exact Ep). intros _. right.
      destruct (lookupBlock (b :: rest) (Blocks p)) as [blk |] eqn:El.
      * destruct (updateCurrentBlock_found (b :: rest)
                    (addAttribute (mkAttribute (item_value (currentItem p)) val
                                     (keyKindToAttrKind (item_kind it))))
                    (Blocks p) blk El) as (b2 & Hu & Hl).
        rewrite Hu in Eu. injection Eu as ->. eexists. exact Hl.
      * rewrite updateCurrentBlock_missing in Eu; [discriminate | discriminate | exact El].
Qed.

Lemma parseItem_moves (p p' : Parser) :
  parseItem pow p = Ok p' -> movesFrom p p'.
Proof.
  unfold parseItem.
  destruct (parseEOF p) as [[m1 p1] | k |] eqn:E1; cbn [bind]; try discriminate.
  apply plain_step_moves in E1. destruct E1 as [[-> ->] | [-> Hm]];
    [| intros H; injection H as <-; exact Hm].
  destruct (parseAttribute pow p) as [[m2 p2] | k |] eqn:E2; cbn [bind]; try discriminate.
  apply parseAttribute_moves in E2. destruct E2 as [[-> ->] | [-> Hm]];
    [| intros H; injection H as <-; exact Hm].
  destruct (parseArrayElement p) as [[m3 p3] | k |] eqn:E3; cbn [bind]; try discriminate.
  apply plain_step_moves in E3. destruct E3 as [[-> ->] | [-> Hm]];
    [| intros H; injection H as <-; exact Hm].
  destruct (parseBlockStart p) as [[m4 p4] | k |] eqn:E4; cbn [bind]; try discriminate.
  apply parseBlockStart_moves in E4. destruct E4 as [[-> ->] | [-> Hm]];
    [| intros H; injection H as <-; exact Hm].
  destruct (parseBlockEnd p) as [[m5 p5] | k |] eqn:E5; cbn [bind]; try discriminate.
  apply parseBlockEnd_moves in E5. destruct E5 as [[-> ->] | [-> Hm]];
    [| intros H; injection H as <-; exact Hm].
  destruct (parseOthers p) as [[m6 p6] | k |] eqn:E6; cbn [bind]; try discriminate.
  apply plain_step_moves in E6. destruct E6 as [[-> ->] | [-> Hm]];
    [| intros H; injection H as <-; exact Hm].
  intros H. exists p, 1. repeat split; try assumption; try lia. intros Ho. exact Ho.
Qed.

Lemma moves_resolving (p p' : Parser) :
  movesFrom p p' -> openResolves p -> openResolves p'.
Proof.
  intros (p1 & n & _ & Hn & _ & _ & _ & Hr) Ho. specialize (Hr Ho).
  destruct (nextItem_fields _ _ _ Hn) as (_ & _ & Hc & Hb & _).
  unfold openResolves in *. rewrite Hc, Hb. exact Hr.
Qed.

Lemma moves_forward (p p' : Parser) :
  movesFrom p p' ->
  lx p' = lx p
  /\ currentItemIndex p < currentItemIndex p' <= lenL (items (lx p))
  /\ ((atLastItem p' = true /\ currentItemIndex p' = lenL (items (lx p)))
      \/ (atLastItem p' = atLastItem p /\ currentItemIndex p' < lenL (items (lx p)))).
Proof.
  intros (p1 & n & Hpos & Hn & Hl & Hi & Ha & _).
  destruct (nextItem_fields _ _ _ Hn) as (Hl' & _ & _ & _ & Hi' & _).
  pose proof (nextItem_flag _ _ _ Hn) as Hf.
  rewrite Hl', Hl in Hf. rewrite Ha in Hf.
  split; [congruence |]. split; [| exact Hf].
  destruct Hf as [[_ E] | [_ E]]; lia.
Qed.

End ItemRules.

(** ** Invariants of the parser's loop *)

Lemma parseItems_resolving (pow : float64 -> float64 -> float64) (fuel : nat)
    (p p' : Parser) :
  openResolves p -> parseItems pow fuel p = Ok p' -> openResolves p'.
Proof.
  revert p. induction fuel as [| fuel IH]; intros p Ho; cbn [parseItems].
  - destruct (atLastItem p); [| discriminate]. intros H. injection H as <-. exact Ho.
  - destruct (atLastItem p); [intros H; injection H as <-; exact Ho |].
    destruct (parseItem pow p) as [q | k |] eqn:E; cbn [bind]; try discriminate.
    apply IH. apply (moves_resolving p q); [| exact Ho].
    apply (parseItem_moves pow). exact E.
Qed.

(** X10.  The names of the open path always lead to a block: if they do
    before a call of [parseItem] that returns, they do after it, and so
    after any run of [parseItems]; the store of an attribute or a block
    through [getCurrentBlock] therefore never reaches the nil maps of a
    missing block. *)
Theorem parse_keeps_open_path (pow : float64 -> float64 -> float64) (fuel : nat)
    (p p' : Parser) :
  openResolves p ->
  (parseItem pow p = Ok p' -> openResolves p')
  /\ (parseItems pow fuel p = Ok p' -> openResolves p').
Proof.
  intros Ho. split.
  - intros E. apply (moves_resolving p p'); [| exact Ho].
    apply (parseItem_moves pow). exact E.
  - apply parseItems_resolving. exact Ho.
Qed.

Lemma parse_keeps_open_path_witness :
  parseItem powInt parserAtBlock = Ok parserInBlockB
  /\ openResolves parserInBlockB.
Proof.
  assert (E : parseItem powInt parserAtBlock = Ok parserInBlockB)
    by (vm_compute; reflexivity).
  split; [exact E |].
  destruct (parse_keeps_open_path powInt 0 parserAtBlock parserInBlockB) as [H _].
  - left. reflexivity.
  - exact (H E).
Defined.

(** X11.  A call of [parseItem] that returns has moved the cursor forward
    by at least one item, not beyond the number of items, and has left the
    lexer as it was; the last-item flag is raised exactly when the cursor
    reaches the number of items. *)
Theorem parseItem_advances (pow : float64 -> float64 -> float64) (p p' : Parser) :
  parseItem pow p = Ok p' ->
  lx p' = lx p
  /\ currentItemIndex p < currentItemIndex p' <= lenL (items (lx p))
  /\ ((atLastItem p' = true /\ currentItemIndex p' = lenL (items (lx p)))
      \/ (atLastItem p' = atLastItem p /\ currentItemIndex p' < lenL (items (lx p)))).
Proof.
  intros E. apply (moves_forward p p'). apply (parseItem_moves pow). exact E.
Qed.

Lemma parseItem_advances_witness :
  parseItem powInt parserAtBlock = Ok parserInBlockB
  /\ currentItemIndex parserAtBlock < currentItemIndex parserInBlockB.
Proof.
  assert (E : parseItem powInt parserAtBlock = Ok parserInBlockB)
    by (vm_compute; reflexivity).
  split; [exact E |].
  destruct (parseItem_advances powInt parserAtBlock parserInBlockB E) as (_ & [H _] & _).
  exact H.
Defined.

Lemma parseItems_all (pow : float64 -> float64 -> float64) (fuel : nat) (p p' : Parser) :
  (atLastItem p = true -> currentItemIndex p = lenL (items (lx p))) ->
  parseItems pow fuel p = Ok p' ->
  lx p' = lx p /\ atLastItem p' = true /\ currentItemIndex p' = lenL (items (lx p))
  /\ currentItemIndex p <= currentItemIndex p'.
Proof.
  revert p. induction fuel as [| fuel IH]; intros p Hinv; cbn [parseItems].
  - destruct (atLastItem p) eqn:Ea; [| discriminate].
    intros H. injection H as <-. repeat split; auto. lia.
  - destruct (atLastItem p) eqn:Ea.
    + intros H. injection H as <-. repeat split; auto. lia.
    + destruct (parseItem pow p) as [q | k |] eqn:E; cbn [bind]; try discriminate.
      intros H.
      destruct (moves_forward p q (parseItem_moves pow p q E)) as (Hl & Hi & Hf).
      destruct (IH q) as (H1 & H2 & H3 & H4); [| exact H |].
      * intros Hq. destruct Hf as [[_ Hx] | [Hx _]]; [rewrite Hl; exact Hx | congruence].
      * rewrite Hl in H1, H3. repeat split; try assumption. lia.
Qed.

(** X12.  When [parseItems] returns, every item has been consumed: the
    cursor equals the number of items, the last-item flag is raised and the
    lexer is the one the parser started with. *)
Theorem parseItems_consumes_all (pow : float64 -> float64 -> float64) (fuel : nat)
    (p p' : Parser) :
  atLastItem p = false ->
  parseItems pow fuel p = Ok p' ->
  lx p' = lx p
  /\ atLastItem p' = true
  /\ currentItemIndex p' = lenL (items (lx p)).
Proof.
  intros Ha E. destruct (parseItems_all pow fuel p p') as (H1 & H2 & H3 & _).
  - rewrite Ha. discriminate.
  - exact E.
  - repeat split; assumption.
Qed.

Lemma parseItems_consumes_all_witness :
  exists p',
    parseItems powInt 10 parserAtX = Ok p'
    /\ atLastItem p' = true
    /\ currentItemIndex p' = 2.
Proof.
  destruct (parseItems powInt 10 parserAtX) as [p' | k |] eqn:E;
    try (vm_compute in E; discriminate).
  destruct (parseItems_consumes_all powInt 10 parserAtX p' eq_refl E) as (_ & H2 & H3).
  exists p'. refine (conj eq_refl (conj H2 H3)).
Defined.

(* ================================================================== *)
(** * The lexer never rewrites what it has read *)

(** What a call of [next] that returns has done: with no prototype it
    leaves the items; with one it appends the item made from it, at the
    position of the cursor, and clears the prototype. *)
Lemma next_spec (l l' : lexer) (w e : bool) :
  next l w e = Ok l' ->
  input l' = input l
  /\ ((proto_kind (proto l) = keyNIL /\ items l' = items l /\ proto l' = proto l)
      \/ (proto_kind (proto l) <> keyNIL /\ proto l' = nilProto
          /\ items l' = (items l ++
               [mkItem (proto_kind (proto l)) (TrimSpace (Join (proto_value (proto l)) ""))
                  (mkPosition (currentLine l) (currentByteIndex l)
                     (Length (proto_position (proto l))))])%list)).
Proof.
  intros H. unfold next in H.
  set (items1 := match proto_kind (proto l) with keyNIL => items l | _ => _ end) in H.
  set (proto1 := match proto_kind (proto l) with keyNIL => proto l | _ => _ end) in H.
  assert (Hshape :
    (proto_kind (proto l) = keyNIL /\ items1 = items l /\ proto1 = proto l)
    \/ (proto_kind (proto l) <> keyNIL /\ proto1 = nilProto
        /\ items1 = (items l ++
               [mkItem (proto_kind (proto l)) (TrimSpace (Join (proto_value (proto l)) ""))
                  (mkPosition (currentLine l) (currentByteIndex l)
                     (Length (proto_position (proto l))))])%list)).
  { subst items1 proto1. destruct (proto_kind (proto l));
      first [left; repeat split; reflexivity
            | right; repeat split; try reflexivity; discriminate]. }
  clearbody items1 proto1.
  destruct (idx items1 (lenL items1 - 1)) as [lastItem | k |]; cbn [bind] in H;
    try discriminate.
  repeat match type of H with
         | context [if ?b then _ else _] => destruct b
         end; try discriminate H;
  try (destruct (idx (elems (input l)) _) as [b | k |]; cbn [bind] in H; try discriminate H);
  injection H as <-; cbn [input items proto]; split; try reflexivity; exact Hshape.
Qed.

(** The input is kept and the items are kept or extended by one item that
    starts at the cursor. *)
Definition keepsOrAppends (l l' : lexer) : Prop :=
  input l' = input l
  /\ (items l' = items l
      \/ exists it, items l' = (items l ++ [it])%list
                    /\ Start (item_position it) = currentByteIndex l).

(** A rule that does not match leaves the lexer as it was, but for the
    end-of-file flag. *)
Definition ruleSpec (r : rule) : Prop :=
  forall l m l',
    r l = Ok (m, l') ->
    keepsOrAppends l l'
    /\ (m = false -> l' = l \/ l' = setAtEOF l).

Lemma stepped (l l0 : lexer) (w e : bool) :
  next l w e = Ok l0 -> keepsOrAppends l l0.
Proof.
  intros H. apply next_spec in H.
  destruct H as (Hi & [(_ & Hs & _) | (_ & _ & Hs)]); split; try assumption.
  - left. exact Hs.
  - right. eexists. split; [exact Hs | reflexivity].
Qed.

Lemma emitted (l l0 : lexer) (p : prototype) (w e : bool) :
  next (setProto l p) w e = Ok l0 -> keepsOrAppends l l0.
Proof. intros H. apply stepped in H. exact H. Qed.

Lemma kept (l : lexer) : keepsOrAppends l l.
Proof. split; [reflexivity | left; reflexivity]. Qed.

Ltac split_rule H :=
  repeat (match type of H with
          | context [match ?x with _ => _ end] => destruct x eqn:?
          | context [bind ?r _] => destruct r eqn:?
          end; cbn [bind] in H; try discriminate H).

Ltac finish_rule H :=
  injection H as <- <-;
  first
    [ split; [apply kept | intros _; left; reflexivity]
    | split; [eapply emitted; eassumption | discriminate]
    | split; [eapply stepped; eassumption | discriminate] ].

Lemma spec_lexEOF : ruleSpec lexEOF.
Proof.
  intros l m l' H. unfold lexEOF, noMatch in H. split_rule H; injection H as <- <-.
  - split; [split; [reflexivity | left; reflexivity] | intros _; right; reflexivity].
  - split; [apply kept | intros _; left; reflexivity].
Qed.

Lemma next_clears (l l' : lexer) (w e : bool) :
  next l w e = Ok l' -> proto_kind (proto l') = keyNIL.
Proof.
  intros H. apply next_spec in H.
  destruct H as (_ & [(Hk & _ & Hp) | (_ & Hp & _)]); rewrite Hp; [exact Hk | reflexivity].
Qed.

Lemma next_idle (l l' : lexer) (w e : bool) :
  proto_kind (proto l) = keyNIL -> next l w e = Ok l' ->
  input l' = input l /\ items l' = items l.
Proof.
  intros Hk H. apply next_spec in H.
  destruct H as (Hi & [(_ & Hs & _) | (Hn & _)]); [split; assumption | contradiction].
Qed.

Lemma spec_lexTab : ruleSpec lexTab.
Proof.
  intros l m l' H. unfold lexTab, noMatch in H. split_rule H.
  - injection H as <- <-. split; [| discriminate].
    match goal with
    | E1 : next l true false = Ok ?a, E2 : next ?a true false = Ok ?b,
      E3 : next ?b true false = Ok ?c, E4 : next ?c true false = Ok ?d |- _ =>
        destruct (next_idle a b true false (next_clears _ _ _ _ E1) E2) as [Hi2 Hs2];
        destruct (next_idle b c true false (next_clears _ _ _ _ E2) E3) as [Hi3 Hs3];
        destruct (next_idle c d true false (next_clears _ _ _ _ E3) E4) as [Hi4 Hs4];
        destruct (stepped _ _ _ _ E1) as [Hi1 Hs1]
    end.
    unfold keepsOrAppends. rewrite Hi4, Hi3, Hi2, Hs4, Hs3, Hs2. split; assumption.
  - finish_rule H.
Qed.

Lemma spec_lexEOL : ruleSpec lexEOL.
Proof. intros l m l' H. unfold lexEOL, emit, noMatch in H. split_rule H; finish_rule H. Qed.

Lemma spec_lexWhitespace : ruleSpec lexWhitespace.
Proof.
  intros l m l' H. unfold lexWhitespace, emit, noMatch in H. split_rule H; finish_rule H.
Qed.

Lemma spec_lexComment : ruleSpec lexComment.
Proof. intros l m l' H. unfold lexComment, emit, noMatch in H. split_rule H; finish_rule H. Qed.

Lemma spec_lexAttributeDef : ruleSpec lexAttributeDef.
Proof.
  intros l m l' H. unfold lexAttributeDef, emit, noMatch in H. split_rule H; finish_rule H.
Qed.

Lemma spec_lexBrace (k : keyKind) (brace : string) : ruleSpec (lexBrace k brace).
Proof. intros l m l' H. unfold lexBrace, emit, noMatch in H. split_rule H; finish_rule H. Qed.

Lemma spec_lexAttrFunction : ruleSpec lexAttrFunction.
Proof.
  intros l m l' H. unfold lexAttrFunction, emit, noMatch in H. split_rule H; finish_rule H.
Qed.

Lemma spec_lexArrayStart : ruleSpec lexArrayStart.
Proof.
  intros l m l' H. unfold lexArrayStart, emit, noMatch in H. split_rule H; finish_rule H.
Qed.

Lemma spec_lexArrayEnd : ruleSpec lexArrayEnd.
Proof. intros l m l' H. unfold lexArrayEnd, emit, noMatch in H. split_rule H; finish_rule H. Qed.

Lemma spec_lexArrayElem : ruleSpec lexArrayElem.
Proof. intros l m l' H. unfold lexArrayElem, emit, noMatch in H. split_rule H; finish_rule H. Qed.

Lemma spec_lexAttrMultiString : ruleSpec lexAttrMultiString.
Proof.
  intros l m l' H. unfold lexAttrMultiString, noMatch in H. split_rule H;
    injection H as <- <-;
    first
      [ split; [apply kept | intros _; left; reflexivity]
      | split; [| discriminate];
        match goal with
        | E : next _ false true = Ok _ |- _ => apply stepped in E; exact E
        end ].
Qed.

Lemma spec_lexAttrString : ruleSpec lexAttrString.
Proof.
  intros l m l' H. unfold lexAttrString, emit, noMatch in H. split_rule H; finish_rule H.
Qed.

Lemma spec_lexAttrCondition : ruleSpec lexAttrCondition.
Proof.
  intros l m l' H. unfold lexAttrCondition, emitExpression, emit, noMatch in H.
  split_rule H; finish_rule H.
Qed.

Lemma spec_lexAttrArithmetic : ruleSpec lexAttrArithmetic.
Proof.
  intros l m l' H. unfold lexAttrArithmetic, emitExpression, emit, noMatch in H.
  split_rule H; finish_rule H.
Qed.

Lemma spec_lexAttrComparison : ruleSpec lexAttrComparison.
Proof.
  intros l m l' H. unfold lexAttrComparison, emitExpression, emit, noMatch in H.
  split_rule H; finish_rule H.
Qed.

Lemma spec_lexLiteral (k : keyKind) (accepts : string -> bool) (lengthFix : Z) :
  ruleSpec (lexLiteral k accepts lengthFix).
Proof. intros l m l' H. unfold lexLiteral, emit, noMatch in H. split_rule H; finish_rule H. Qed.

Lemma spec_lexAttrCall : ruleSpec lexAttrCall.
Proof. intros l m l' H. unfold lexAttrCall, emit, noMatch in H. split_rule H; finish_rule H. Qed.

Lemma spec_lexError : ruleSpec lexError.
Proof. intros l m l' H. unfold lexError, emit, noMatch in H. split_rule H; finish_rule H. Qed.

Lemma spec_lexRules : Forall ruleSpec lexRules.
Proof.
  unfold lexRules.
  repeat (apply Forall_cons;
          [first [ exact spec_lexEOF | exact spec_lexTab | exact spec_lexEOL
                 | exact spec_lexWhitespace | exact spec_lexComment
                 | exact spec_lexAttributeDef | apply spec_lexBrace
                 | exact spec_lexAttrFunction | exact spec_lexArrayStart
                 | exact spec_lexArrayEnd | exact spec_lexArrayElem
                 | exact spec_lexAttrMultiString | exact spec_lexAttrString
                 | exact spec_lexAttrCondition | exact spec_lexAttrArithmetic
                 | exact spec_lexAttrComparison | apply spec_lexLiteral
                 | exact spec_lexAttrCall | exact spec_lexError ] |]).
  apply Forall_nil.
Qed.

Lemma firstMatch_spec (rules : list rule) (l l' : lexer) :
  Forall ruleSpec rules -> firstMatch rules l = Ok l' -> keepsOrAppends l l'.
Proof.
  intros Hr. revert l. induction Hr as [| r rules Hs Hr IH]; intros l H; cbn [firstMatch] in H.
  - injection H as <-. apply kept.
  - destruct (r l) as [[m l1] | k |] eqn:E; cbn [bind] in H; try discriminate.
    destruct (Hs l m l1 E) as [Hk Hm]. destruct m.
    + injection H as <-. exact Hk.
    + specialize (IH l1 H). destruct (Hm eq_refl) as [-> | ->]; exact IH.
Qed.

Lemma lexByte_spec (l l' : lexer) : lexByte l = Ok l' -> keepsOrAppends l l'.
Proof. apply firstMatch_spec. exact spec_lexRules. Qed.

Lemma lexInput_spec (fuel : nat) (l l' : lexer) :
  lexInput fuel l = Ok l' ->
  input l' = input l
  /\ (atEOF l' = true)
  /\ exists more, items l' = (items l ++ more)%list.
Proof.
  revert l. induction fuel as [| fuel IH]; intros l; cbn [lexInput].
  - destruct (atEOF l) eqn:Ea; [| discriminate].
    intros H. injection H as <-. repeat split; try assumption.
    exists []. symmetry. apply List.app_nil_r.
  - destruct (atEOF l) eqn:Ea.
    + intros H. injection H as <-. repeat split; try assumption.
      exists []. symmetry. apply List.app_nil_r.
    + destruct (lexByte l) as [l1 | k |] eqn:E; cbn [bind]; try discriminate.
      intros H. destruct (IH l1 H) as (Hi & He & more & Hm).
      destruct (lexByte_spec l l1 E) as [Hi1 Hs1].
      split; [congruence |]. split; [exact He |].
      destruct Hs1 as [E1 | (it & E1 & _)]; rewrite E1 in Hm.
      * exists more. exact Hm.
      * exists (it :: more). rewrite Hm, <- List.app_assoc. reflexivity.
Qed.

(** X13.  A call of [lexByte] that returns has left the input as it was and
    has either left the items as they were or appended exactly one item,
    whose recorded start is the position the cursor had; no rule removes or
    rewrites an item that was emitted before. *)
Theorem lexByte_appends_at_most_one (l l' : lexer) :
  lexByte l = Ok l' ->
  input l' = input l
  /\ (items l' = items l
      \/ exists it, items l' = (items l ++ [it])%list
                    /\ Start (item_position it) = currentByteIndex l).
Proof. intros H. exact (lexByte_spec l l' H). Qed.

Lemma lexByte_appends_at_most_one_witness :
  exists l',
    lexByte atQuoteOfPi = Ok l'
    /\ input l' = input atQuoteOfPi
    /\ List.length (items l') = 2%nat.
Proof.
  destruct (lexByte atQuoteOfPi) as [l' | k |] eqn:E; try (vm_compute in E; discriminate).
  destruct (lexByte_appends_at_most_one atQuoteOfPi l' E) as [Hi Hs].
  exists l'. refine (conj eq_refl (conj Hi _)).
  vm_compute in E. injection E as <-. reflexivity.
Defined.

(** X14.  When [lexInput] returns, the end-of-file flag is raised, the
    input is the one it started with, and the items it started with are a
    prefix of the final items. *)
Theorem lexInput_extends_items (fuel : nat) (l l' : lexer) :
  lexInput fuel l = Ok l' ->
  input l' = input l
  /\ atEOF l' = true
  /\ exists more, items l' = (items l ++ more)%list.
Proof. apply lexInput_spec. Qed.

Lemma lexInput_extends_items_witness :
  exists l',
    lexInput 50 atQuoteOfPi = Ok l'
    /\ atEOF l' = true
    /\ input l' = input atQuoteOfPi.
Proof.
  destruct (lexInput 50 atQuoteOfPi) as [l' | k |] eqn:E; try (vm_compute in E; discriminate).
  destruct (lexInput_extends_items 50 atQuoteOfPi l' E) as (Hi & He & _).
  exists l'. refine (conj eq_refl (conj He Hi)).
Defined.

(* ================================================================== *)
(** * Decode as a whole *)

(** X15.  [Decode] returns an error, without reading anything, when the
    file name does not end in [.cafe] or the file cannot be opened.  When it
    returns a parser, the name has the suffix, the lexer holds the runes of
    the file unchanged and has reached the end of the file, there is at
    least one item, every item has been consumed and the open path leads to
    a block. *)
Theorem Decode_outcomes (pow : float64 -> float64 -> float64) (fuel : nat)
    (fs : fileSystem) (spare : nat) (filename : string) :
  (HasSuffix filename ".cafe" = false ->
   Decode pow fuel fs spare filename = Ok (inr (filename ++ " is not a .cafe file")))
  /\ (HasSuffix filename ".cafe" = true -> fs filename = None ->
      exists err, Decode pow fuel fs spare filename = Ok (inr err))
  /\ (forall p,
        Decode pow fuel fs spare filename = Ok (inl p) ->
        HasSuffix filename ".cafe" = true
        /\ fs filename = Some (elems (input (lx p)))
        /\ atEOF (lx p) = true
        /\ 0 < lenL (items (lx p))
        /\ atLastItem p = true
        /\ currentItemIndex p = lenL (items (lx p))
        /\ openResolves p).
Proof.
  split; [| split].
  - intros Hs. unfold Decode, readCAFEFile. rewrite Hs. reflexivity.
  - intros Hs Hf. unfold Decode, readCAFEFile. rewrite Hs, Hf. eexists. reflexivity.
  - intros p. unfold Decode, readCAFEFile.
    destruct (HasSuffix filename ".cafe") eqn:Hs; cbn [negb]; [| discriminate].
    destruct (fs filename) as [runes |] eqn:Hf; [| discriminate].
    unfold newParser, newLexer. cbn [elems].
    destruct (idx runes 0) as [first | k |]; cbn [bind]; try discriminate.
    match goal with
    | |- context [lexInput fuel ?l0] => destruct (lexInput fuel l0) as [l | k |] eqn:El
    end; cbn [bind]; try discriminate.
    destruct (idx (items l) 0) as [it | k |] eqn:Ei; cbn [bind]; try discriminate.
    match goal with
    | |- context [parseItems pow fuel ?q] =>
        destruct (parseItems pow fuel q) as [p' | k |] eqn:Ep
    end; cbn [bind]; try discriminate.
    intros H. injection H as <-.
    destruct (lexInput_spec _ _ _ El) as (Hin & Heof & _). cbn [input] in Hin.
    match type of Ep with
    | parseItems pow fuel ?q = _ =>
        assert (Hinv : atLastItem q = true -> currentItemIndex q = lenL (items (lx q)))
          by (cbn [atLastItem]; discriminate);
        destruct (parseItems_all pow fuel q p' Hinv Ep) as (Hl & Hlast & Hidx & _)
    end.
    cbn [lx] in Hl, Hidx. rewrite Hl.
    split; [reflexivity |]. split; [rewrite Hin; reflexivity |].
    split; [exact Heof |]. split; [pose proof (idx_Ok_range _ _ _ Ei); lia |].
    split; [exact Hlast |]. split; [exact Hidx |].
    eapply parseItems_resolving; [| exact Ep]. left. reflexivity.
Qed.

Lemma Decode_outcomes_witness :
  exists p,
    Decode powInt 50 (oneFile "a.cafe" ("x = 1" ++ newline)) 2 "a.cafe" = Ok (inl p)
    /\ atLastItem p = true
    /\ currentItemIndex p = 2
    /\ mapGet (Attributes p) "x" = Some (mkAttribute "x" (VInt 1) attrInt).
Proof.
  destruct (Decode powInt 50 (oneFile "a.cafe" ("x = 1" ++ newline)) 2 "a.cafe")
    as [[p | err] | k |] eqn:E; try (vm_compute in E; discriminate).
  destruct (Decode_outcomes powInt 50 (oneFile "a.cafe" ("x = 1" ++ newline)) 2 "a.cafe")
    as (_ & _ & H).
  destruct (H p E) as (_ & _ & _ & _ & Hlast & Hidx & _).
  exists p. refine (conj eq_refl (conj Hlast _)).
  vm_compute in E. injection E as <-. split; reflexivity.
Defined.

(* ================================================================== *)
(** * Further properties of the evaluators *)

(** ** The text of a function call *)

Definition noParen (c : ascii) : bool := negb (Ascii.eqb c "(").
Definition noComma (c : ascii) : bool := negb (Ascii.eqb c ",").

Lemma IndexFrom_paren (name rest : string) (i : Z) :
  allChars noParen name = true ->
  IndexFrom (name ++ String "(" rest) "(" i = i + len name.
Proof.
  revert i. induction name as [| c name IH]; intros i H.
  - cbn [append IndexFrom String.prefix].
    destruct (Ascii.ascii_dec "(" "(") as [_ | Hn]; [| congruence].
    replace (String.prefix "" rest) with true by (destruct rest; reflexivity).
    unfold len. cbn [String.length Z.of_nat]. lia.
  - cbn [allChars] in H. apply andb_true_iff in H. destruct H as [Hc Hs].
    cbn [append IndexFrom String.prefix].
    destruct (Ascii.ascii_dec "(" c) as [<- | Hn]; [discriminate Hc |].
    cbv iota. rewrite IH by exact Hs. rewrite len_String. lia.
Qed.

Lemma firstComma_skip (pre rest : string) (i f : Z) :
  i + len pre <= f ->
  firstComma (pre ++ rest) i f = firstComma rest (i + len pre) f.
Proof.
  revert i. induction pre as [| c pre IH]; intros i H.
  - cbn [append]. change (len "") with 0. rewrite Z.add_0_r. reflexivity.
  - rewrite len_String in H. pose proof (len_nonneg pre).
    cbn [append firstComma].
    replace (i <? f) with true by (symmetry; apply Z.ltb_lt; lia).
    rewrite IH by lia. rewrite len_String. f_equal. lia.
Qed.

Lemma firstComma_scan (seg rest : string) (i f : Z) :
  f <= i -> allChars noComma seg = true ->
  firstComma (seg ++ rest) i f = firstComma rest (i + len seg) f.
Proof.
  revert i. induction seg as [| c seg IH]; intros i Hf H.
  - cbn [append]. change (len "") with 0. rewrite Z.add_0_r. reflexivity.
  - cbn [allChars] in H. apply andb_true_iff in H. destruct H as [Hc Hs].
    cbn [append firstComma].
    replace (i <? f) with false by (symmetry; apply Z.ltb_ge; lia).
    unfold noComma in Hc. apply negb_true_iff in Hc. rewrite Hc.
    rewrite IH by (try lia; exact Hs). rewrite len_String. f_equal. lia.
Qed.

Section CallText.

Variables (name : string).
Hypothesis Hname : allChars noParen name = true.

Lemma call_name (args : string) :
  Index (name ++ "(" ++ args) "(" = len name
  /\ slice (name ++ "(" ++ args) 0 (len name) = Ok name.
Proof.
  split.
  - unfold Index. change ("(" ++ args) with (String "(" args).
    rewrite IndexFrom_paren by exact Hname. lia.
  - exact (slice_middle "" name ("(" ++ args)).
Qed.


Lemma call_without_comma (args : string) :
  allChars noComma args = true ->
  firstComma (name ++ "(" ++ args ++ ")") 0 (len name) = None.
Proof.
  intros Ha. rewrite firstComma_skip by lia.
  change ("(" ++ args ++ ")") with ("(" ++ (args ++ ")")).
  rewrite (firstComma_scan "(" (args ++ ")")) by (try lia; reflexivity).
  rewrite firstComma_scan by (try (change (len "(") with 1; lia); exact Ha).
  cbn [firstComma].
  destruct (0 + len name + len "(" + len args <? len name); reflexivity.
Qed.

Lemma call_two_arguments (a b : string) :
  allChars noComma a = true ->
  firstComma (name ++ "(" ++ a ++ "," ++ b ++ ")") 0 (len name)
  = Some (len name + 1 + len a)
  /\ slice (name ++ "(" ++ a ++ "," ++ b ++ ")") (len name + 1) (len name + 1 + len a)
     = Ok a
  /\ slice (name ++ "(" ++ a ++ "," ++ b ++ ")") (len name + 1 + len a + 1)
       (len (name ++ "(" ++ a ++ "," ++ b ++ ")") - 1)
     = Ok b.
Proof.
  intros Ha. pose proof (len_nonneg name). pose proof (len_nonneg a). split; [| split].
  - rewrite firstComma_skip by lia.
    change ("(" ++ a ++ "," ++ b ++ ")") with ("(" ++ (a ++ "," ++ b ++ ")")).
    rewrite (firstComma_scan "(" (a ++ "," ++ b ++ ")")) by (try lia; reflexivity).
    rewrite firstComma_scan by (try (change (len "(") with 1; lia); exact Ha).
    change ("," ++ b ++ ")") with (String "," (b ++ ")")). cbn [firstComma].
    replace (0 + len name + len "(" + len a <? len name) with false
      by (symmetry; apply Z.ltb_ge; change (len "(") with 1; lia).
    change (Ascii.eqb "," ",") with true. cbv iota.
    f_equal; change (len "(") with 1; lia.
  - replace (len name + 1) with (len (name ++ "(")) by (rewrite len_app; reflexivity).
    rewrite <- (app_assoc_str name "(" (a ++ "," ++ b ++ ")")).
    apply slice_middle.
  - replace (len name + 1 + len a + 1) with (len (name ++ "(" ++ a ++ ","))
      by (rewrite !len_app; change (len ",") with 1; change (len "(") with 1; lia).
    replace (len (name ++ "(" ++ a ++ "," ++ b ++ ")") - 1)
      with (len (name ++ "(" ++ a ++ ",") + len b)
      by (rewrite !len_app; change (len ")") with 1; change (len ",") with 1;
          change (len "(") with 1; lia).
    replace (name ++ "(" ++ a ++ "," ++ b ++ ")")
      with ((name ++ "(" ++ a ++ ",") ++ b ++ ")")
      by (rewrite !app_assoc_str; reflexivity).
    apply slice_middle.
Qed.

End CallText.

(** ** Calls of the built-in functions *)


Ltac open_call name rest :=
  unfold transformItemFunction;
  destruct (call_name name eq_refl rest) as [Hindex Hslice];
  rewrite Hindex, Hslice; cbn [bind].


Ltac two_params name a b Ha :=
  open_call name (a ++ "," ++ b ++ ")");
  destruct (call_two_arguments name a b Ha) as (Hcomma & Hfirst & Hsecond);
  match goal with
  | |- context [equalsToMany (TrimSpace name) ["upper"; "lower"; "length"]] =>
      change (equalsToMany (TrimSpace name) ["upper"; "lower"; "length"]) with false
  end;
  cbv iota; rewrite Hcomma, Hfirst; cbn [bind]; rewrite Hsecond; cbn [bind].



Definition gateNames : list string := ["and"; "or"; "nand"; "nor"; "xor"; "xnor"].

(** X18.  A call of a numeric function or of a gate is split at the first
    comma after the opening parenthesis and handed to [numericalFunctions]
    or [gateLogicFunctions] with exactly these two parameter texts. *)
Theorem numeric_and_gate_calls (pow : float64 -> float64 -> float64)
    (name a b : string) :
  allChars noComma a = true ->
  (In name numericNames ->
   transformItemFunction pow (name ++ "(" ++ a ++ "," ++ b ++ ")")
   = numericalFunctions pow name [a; b])
  /\ (In name gateNames ->
      transformItemFunction pow (name ++ "(" ++ a ++ "," ++ b ++ ")")
      = gateLogicFunctions name [a; b]).
Proof.
  intros Ha. split; intros Hin; cbn [In numericNames gateNames] in Hin.
  - destruct Hin as [<- | [<- | [<- | []]]].
    + two_params "power" a b Ha. reflexivity.
    + two_params "floor" a b Ha. reflexivity.
    + two_params "remainder" a b Ha. reflexivity.
  - destruct Hin as [<- | [<- | [<- | [<- | [<- | [<- | []]]]]]].
    + two_params "and" a b Ha. reflexivity.
    + two_params "or" a b Ha. reflexivity.
    + two_params "nand" a b Ha. reflexivity.
    + two_params "nor" a b Ha. reflexivity.
    + two_params "xor" a b Ha. reflexivity.
    + two_params "xnor" a b Ha. reflexivity.
Qed.

Lemma numeric_and_gate_calls_witness :
  transformItemFunction powInt ("power" ++ "(" ++ "5" ++ "," ++ " 2" ++ ")") = Ok (VInt 25)
  /\ transformItemFunction powInt ("xor" ++ "(" ++ "true" ++ "," ++ " false" ++ ")")
     = Ok (VBool true).
Proof.
  split.
  - destruct (numeric_and_gate_calls powInt "power" "5" " 2") as [H _]; [reflexivity |].
    rewrite H; [vm_compute; reflexivity | left; reflexivity].
  - destruct (numeric_and_gate_calls powInt "xor" "true" " false") as [_ H]; [reflexivity |].
    rewrite H; [vm_compute; reflexivity |].
    right. right. right. right. left. reflexivity.
Defined.

Ltac no_params name args Ha :=
  open_call name (args ++ ")");
  match goal with
  | |- context [equalsToMany (TrimSpace name) ["upper"; "lower"; "length"]] =>
      change (equalsToMany (TrimSpace name) ["upper"; "lower"; "length"]) with false
  end;
  cbv iota; rewrite (call_without_comma name args Ha); cbn [bind].

(** X19.  A call of a two-parameter function whose text has no comma gets
    an empty parameter list: every such function except [concat] then reads
    its first parameter out of range and panics; [concat] returns nil. *)
Theorem call_without_comma_panics (pow : float64 -> float64 -> float64)
    (name args : string) :
  allChars noComma args = true ->
  In name (["append"; "contains"] ++ numericNames ++ gateNames)%list ->
  transformItemFunction pow (name ++ "(" ++ args ++ ")") = Panic IndexOutOfRange
  /\ transformItemFunction pow ("concat" ++ "(" ++ args ++ ")") = Ok VNil.
Proof.
  intros Ha Hin. split.
  - cbn [In numericNames gateNames app] in Hin.
    destruct Hin as [<- | [<- | [<- | [<- | [<- | [<- | [<- | [<- | [<- | [<- | [<- | []]]]]]]]]]]].
    + no_params "append" args Ha. reflexivity.
    + no_params "contains" args Ha. reflexivity.
    + no_params "power" args Ha. reflexivity.
    + no_params "floor" args Ha. reflexivity.
    + no_params "remainder" args Ha. reflexivity.
    + no_params "and" args Ha. reflexivity.
    + no_params "or" args Ha. reflexivity.
    + no_params "nand" args Ha. reflexivity.
    + no_params "nor" args Ha. reflexivity.
    + no_params "xor" args Ha. reflexivity.
    + no_params "xnor" args Ha. reflexivity.
  - no_params "concat" args Ha. reflexivity.
Qed.

Lemma call_without_comma_panics_witness :
  transformItemFunction powInt ("append" ++ "(" ++ quoted "foo" ++ ")")
  = Panic IndexOutOfRange.
Proof.
  destruct (call_without_comma_panics powInt "append" (quoted "foo")) as [H _].
  - reflexivity.
  - left. reflexivity.
  - exact H.
Defined.

(** ** The text of an array *)

Lemma splitAux_piece (v rest : string) (cur : list ascii) (fuel : nat) :
  allChars noComma v = true ->
  splitAux (String.length v + fuel) (v ++ rest) ", " cur
  = splitAux fuel rest ", " (rev (chars v) ++ cur)%list.
Proof.
  revert cur. induction v as [| c v IH]; intros cur H; [reflexivity |].
  cbn [allChars] in H. apply andb_true_iff in H. destruct H as [Hc Hv].
  cbn [String.length Nat.add append splitAux String.prefix].
  destruct (Ascii.ascii_dec "," c) as [<- | Hn]; [discriminate Hc |].
  rewrite (IH (c :: cur) Hv). unfold chars. cbn [list_ascii_of_string rev].
  rewrite <- List.app_assoc. reflexivity.
Qed.

Lemma splitAux_separator (rest : string) (cur : list ascii) (fuel : nat) :
  splitAux (S fuel) (", " ++ rest) ", " cur
  = ofChars (rev cur) :: splitAux fuel rest ", " [].
Proof.
  cbn [append splitAux String.prefix].
  destruct (Ascii.ascii_dec "," ",") as [_ | Hn]; [| congruence].
  destruct (Ascii.ascii_dec " " " ") as [_ | Hn]; [| congruence].
  replace (String.prefix "" rest) with true by (destruct rest; reflexivity).
  reflexivity.
Qed.

Lemma ofChars_piece (v : string) : ofChars (rev (rev (chars v) ++ [])) = v.
Proof.
  rewrite List.app_nil_r, List.rev_involutive. unfold ofChars, chars.
  apply string_of_list_ascii_of_string.
Qed.

Lemma splitAux_Join (v : string) (vs : list string) (fuel : nat) :
  forallb (allChars noComma) (v :: vs) = true ->
  (String.length (Join (v :: vs) ", ") < fuel)%nat ->
  splitAux fuel (Join (v :: vs) ", ") ", " [] = v :: vs.
Proof.
  revert v fuel. induction vs as [| w vs IH]; intros v fuel H Hf.
  - cbn [forallb] in H. apply andb_true_iff in H. destruct H as [Hv _].
    cbn [Join] in *.
    replace fuel with (String.length v + (fuel - String.length v))%nat by lia.
    pose proof (splitAux_piece v "" [] (fuel - String.length v) Hv) as E.
    rewrite app_empty_r in E. rewrite E. clear E.
    destruct (fuel - String.length v)%nat as [| f] eqn:Ef; [lia |].
    cbn [splitAux String.prefix]. rewrite ofChars_piece. reflexivity.
  - cbn [forallb] in H. apply andb_true_iff in H. destruct H as [Hv Hrest].
    change (Join (v :: w :: vs) ", ") with (v ++ ", " ++ Join (w :: vs) ", ") in *.
    rewrite !length_app in Hf. change (String.length ", ") with 2%nat in Hf.
    replace fuel with (String.length v + (fuel - String.length v))%nat by lia.
    rewrite (splitAux_piece v _ [] _ Hv).
    destruct (fuel - String.length v)%nat as [| f] eqn:Ef; [lia |].
    rewrite splitAux_separator, ofChars_piece. f_equal.
    apply IH; [exact Hrest | lia].
Qed.

Lemma Split_Join (v : string) (vs : list string) :
  forallb (allChars noComma) (v :: vs) = true ->
  Split (Join (v :: vs) ", ") ", " = v :: vs.
Proof. intros H. unfold Split. apply splitAux_Join; [exact H | lia]. Qed.

Lemma dropWhile_head (p : ascii -> bool) (s : string) :
  match s with EmptyString => true | String c _ => negb (p c) end = true ->
  dropWhile p s = s.
Proof.
  destruct s as [| c s]; [reflexivity |]. cbn [dropWhile]. intros H.
  apply negb_true_iff in H. rewrite H. reflexivity.
Qed.

Lemma dropWhileEnd_none (p : ascii -> bool) (s : string) :
  allChars (fun c => negb (p c)) s = true -> dropWhileEnd p s = s.
Proof.
  induction s as [| c s IH]; [reflexivity |].
  cbn [allChars]. intros H. apply andb_true_iff in H. destruct H as [Hc Hs].
  cbn [dropWhileEnd]. rewrite (IH Hs). apply negb_true_iff in Hc.
  destruct s; [rewrite Hc |]; reflexivity.
Qed.

Lemma allChars_app (p : ascii -> bool) (s t : string) :
  allChars p (s ++ t) = allChars p s && allChars p t.
Proof.
  induction s as [| c s IH]; [reflexivity |].
  cbn [append allChars]. rewrite IH, andb_assoc. reflexivity.
Qed.

Lemma allChars_Join (p : ascii -> bool) (vs : list string) (sep : string) :
  allChars p sep = true -> forallb (allChars p) vs = true ->
  allChars p (Join vs sep) = true.
Proof.
  intros Hsep. induction vs as [| v vs IH]; [reflexivity |].
  cbn [forallb]. intros H. apply andb_true_iff in H. destruct H as [Hv Hvs].
  destruct vs as [| w vs]; [exact Hv |].
  change (Join (v :: w :: vs) sep) with (v ++ sep ++ Join (w :: vs) sep).
  rewrite !allChars_app, Hv, Hsep, (IH Hvs). reflexivity.
Qed.

Lemma sliceFromL_tail {A : Type} (x : A) (l : list A) : sliceFromL (x :: l) 1 = Ok l.
Proof.
  unfold sliceFromL.
  replace ((0 <=? 1) && (1 <=? Z.of_nat (List.length (x :: l)))) with true
    by (symmetry; apply andb_true_iff; split; apply Z.leb_le; cbn [List.length]; lia).
  reflexivity.
Qed.

(** A character of an array item: no comma and no bracket. *)
Definition elemChar (c : ascii) : bool :=
  noComma c && negb (Ascii.eqb "[" c) && negb (Ascii.eqb "]" c).

(** X20.  [parseAttribute] joins the values of the array items with a comma
    and a space and [transformItemArray] splits the text there again and
    drops the first piece: for values without commas and brackets the
    result is the array of the values after the first (the value of the
    array-start item), each turned into an integer, a float, a boolean or
    an unquoted string, in this order of preference. *)
Theorem array_text_round_trip (pow : float64 -> float64 -> float64)
    (start : string) (vs : list string) :
  forallb (allChars elemChar) (start :: vs) = true ->
  transformItemArray pow (Join (start :: vs) ", ")
  = Ok (VArray (map (transformArrayElem pow) vs)).
Proof.
  intros H.
  assert (Hc : forallb (allChars noComma) (start :: vs) = true).
  { rewrite forallb_forall in *. intros x Hx. specialize (H x Hx).
    revert H. clear. induction x as [| c x IH]; [reflexivity |].
    cbn [allChars]. unfold elemChar at 1. intros H.
    apply andb_true_iff in H. destruct H as [Hc Hx].
    apply andb_true_iff in Hc. destruct Hc as [Hc _].
    apply andb_true_iff in Hc. destruct Hc as [Hc _].
    rewrite Hc. exact (IH Hx). }
  assert (Hb : forall b, b = "["%char \/ b = "]"%char ->
                         allChars (fun c => negb (Ascii.eqb b c)) (Join (start :: vs) ", ")
                         = true).
  { intros b Hbr. apply allChars_Join.
    - destruct Hbr as [-> | ->]; reflexivity.
    - rewrite forallb_forall in *. intros x Hx. specialize (H x Hx).
      revert H. clear - Hbr. induction x as [| c x IH]; [reflexivity |].
      cbn [allChars]. unfold elemChar at 1. intros H.
      apply andb_true_iff in H. destruct H as [Hc Hx].
      apply andb_true_iff in Hc. destruct Hc as [Hc H2].
      apply andb_true_iff in Hc. destruct Hc as [_ H1].
      rewrite (IH Hx), andb_true_r. destruct Hbr as [-> | ->]; assumption. }
  unfold transformItemArray, TrimLeft, TrimRight.
  rewrite (dropWhile_head (Ascii.eqb "[")).
  - rewrite (dropWhileEnd_none (Ascii.eqb "]")) by (apply Hb; right; reflexivity).
    rewrite (Split_Join start vs Hc), sliceFromL_tail. reflexivity.
  - specialize (Hb "["%char (or_introl eq_refl)).
    destruct (Join (start :: vs) ", ") as [| c s]; [reflexivity |].
    cbn [allChars] in Hb. apply andb_true_iff in Hb. destruct Hb as [Hb _]. exact Hb.
Qed.

Lemma array_text_round_trip_witness :
  transformItemArray powInt (Join [""; quoted "a"; "10"; "false"] ", ")
  = Ok (VArray [VString "a"; VInt 10; VBool false]).
Proof.
  rewrite (array_text_round_trip powInt "" [quoted "a"; "10"; "false"]); reflexivity.
Defined.

(** ** Array attributes *)

Lemma arrayItemsLoop_skip (sk r : list item) (i cur : Z) :
  i + lenL sk <= cur + 1 ->
  arrayItemsLoop (sk ++ r) i cur = arrayItemsLoop r (i + lenL sk) cur.
Proof.
  revert i. induction sk as [| x sk IH]; intros i H.
  - cbn [app]. change (lenL (@nil item)) with 0. rewrite Z.add_0_r. reflexivity.
  - rewrite lenL_cons in H. pose proof (lenL_nonneg sk).
    cbn [app arrayItemsLoop].
    replace (cur <? i) with false by (symmetry; apply Z.ltb_ge; lia).
    rewrite IH by lia. rewrite lenL_cons. f_equal. lia.
Qed.

Definition notArrayEnd (e : item) : bool := negb (keyKind_eqb (item_kind e) keyArrayEnd).

Lemma arrayItemsLoop_collect (seg : list item) (e : item) (post : list item) (i cur : Z) :
  cur < i -> forallb notArrayEnd seg = true -> item_kind e = keyArrayEnd ->
  arrayItemsLoop (seg ++ e :: post) i cur = map item_value seg.
Proof.
  revert i. induction seg as [| x seg IH]; intros i Hi Hs He.
  - cbn [app arrayItemsLoop map].
    replace (cur <? i) with true by (symmetry; apply Z.ltb_lt; lia).
    rewrite He. reflexivity.
  - cbn [forallb] in Hs. apply andb_true_iff in Hs. destruct Hs as [Hx Hs].
    cbn [app arrayItemsLoop map].
    replace (cur <? i) with true by (symmetry; apply Z.ltb_lt; lia).
    unfold notArrayEnd in Hx. apply negb_true_iff in Hx. rewrite Hx.
    rewrite IH by (try lia; assumption). reflexivity.
Qed.

Lemma arrayItemsLoop_open (seg : list item) (i cur : Z) :
  cur < i -> forallb notArrayEnd seg = true ->
  arrayItemsLoop seg i cur = map item_value seg.
Proof.
  revert i. induction seg as [| x seg IH]; intros i Hi Hs; [reflexivity |].
  cbn [forallb] in Hs. apply andb_true_iff in Hs. destruct Hs as [Hx Hs].
  cbn [arrayItemsLoop map].
  replace (cur <? i) with true by (symmetry; apply Z.ltb_lt; lia).
  unfold notArrayEnd in Hx. apply negb_true_iff in Hx. rewrite Hx.
  rewrite IH by (try lia; assumption). reflexivity.
Qed.

(** X21.  For an attribute definition followed by an array-start item, the
    value is computed by [transformItemArray] from the values of the items
    after the definition up to, and without, the first array-end item,
    joined by a comma and a space; the value of the array-end item itself is
    not read, whatever it is, and the cursor moves past that item. *)
Theorem parseAttribute_array (pow : float64 -> float64 -> float64) (p : Parser)
    (pre : list item) (def start : item) (es : list item) (endItem : item)
    (post : list item) (arr : value) :
  items (lx p) = (pre ++ def :: start :: es ++ endItem :: post)%list ->
  currentItemIndex p = lenL pre ->
  currentItem p = def ->
  item_kind def = keyAttrDef ->
  item_kind start = keyArrayStart ->
  forallb notArrayEnd es = true ->
  item_kind endItem = keyArrayEnd ->
  currentBlocks p = [] ->
  transformItemArray pow (Join (item_value start :: map item_value es) ", ") = Ok arr ->
  exists p',
    parseAttribute pow p = Ok (true, p')
    /\ mapGet (Attributes p') (item_value def)
       = Some (mkAttribute (item_value def) arr attrArray)
    /\ currentItemIndex p' = lenL pre + 3 + lenL es.
Proof.
  intros Hitems Hcur Hdef Hk Hstart Hes Hend Hblocks Harr.
  pose proof (lenL_nonneg pre) as Hp0. pose proof (lenL_nonneg es) as He0.
  pose proof (lenL_nonneg post) as Hq0.
  assert (Hlen : lenL (items (lx p)) = lenL pre + lenL es + lenL post + 3).
  { rewrite Hitems, lenL_app, !lenL_cons, lenL_app, lenL_cons. lia. }
  assert (Hnext : idx (items (lx p)) (lenL pre + 1) = Ok start).
  { rewrite Hitems.
    replace (pre ++ def :: start :: es ++ endItem :: post)%list
      with ((pre ++ [def]) ++ start :: es ++ endItem :: post)%list
      by (rewrite <- List.app_assoc; reflexivity).
    replace (lenL pre + 1) with (lenL (pre ++ [def]))
      by (rewrite lenL_app, lenL_cons; change (lenL (@nil item)) with 0; lia).
    apply idx_middle. }
  assert (Hloop : arrayItemsLoop (items (lx p)) 0 (lenL pre)
                  = item_value start :: map item_value es).
  { rewrite Hitems.
    replace (pre ++ def :: start :: es ++ endItem :: post)%list
      with ((pre ++ [def]) ++ (start :: es) ++ endItem :: post)%list
      by (rewrite <- List.app_assoc; reflexivity).
    rewrite arrayItemsLoop_skip
      by (rewrite lenL_app, lenL_cons; change (lenL (@nil item)) with 0; lia).
    rewrite arrayItemsLoop_collect; [reflexivity | | | exact Hend].
    - rewrite lenL_app, lenL_cons. change (lenL (@nil item)) with 0. lia.
    - cbn [forallb]. unfold notArrayEnd at 1. rewrite Hstart. exact Hes. }
  unfold parseAttribute. rewrite Hdef, Hk. cbn [keyKind_eqb negb].
  unfold peekNextItem. rewrite Hcur.
  replace (lenL pre =? lenL (items (lx p)) - 1) with false
    by (symmetry; apply Z.eqb_neq; lia).
  rewrite Hnext. cbn [bind]. rewrite Hstart. cbn [keyKind_eqb keyKindToAttrKind].
  rewrite Hloop. cbn [transformItem]. rewrite Harr, Hblocks. cbn [bind attr_Name].
  match goal with
  | |- context [nextItem ?q ?n] =>
      destruct (nextItem_in_range q n) as (p' & Hp & _ & H2 & _ & _ & H5 & _)
  end.
  - cbn [currentItemIndex lx]. rewrite Hlen, lenL_cons.
    replace (lenL (map item_value es)) with (lenL es)
      by (unfold lenL; rewrite List.length_map; reflexivity).
    lia.
  - rewrite Hp. cbn [bind]. exists p'. split; [reflexivity |].
    cbn [Attributes currentItemIndex] in H2, H5. rewrite H2, H5.
    split; [apply mapGet_mapSet_same |].
    rewrite lenL_cons.
    replace (lenL (map item_value es)) with (lenL es)
      by (unfold lenL; rewrite List.length_map; reflexivity).
    lia.
Qed.

(** The parser on the items of #<code>x = [1, 2]</code>#. *)
Definition parserAtArray : Parser :=
  Eval vm_compute in
    match parserOn ("x = [1, 2]" ++ newline) 5 with
    | Ok p => p
    | _ => mkParser (mkLexer (mkSlice [] []) [] nilProto 0 0 "" 0 true) zeroItem 0 [] [] [] true
    end.

Lemma parseAttribute_array_witness :
  parserOn ("x = [1, 2]" ++ newline) 5 = Ok parserAtArray
  /\ map (fun e => (item_kind e, item_value e)) (items (lx parserAtArray))
     = [(keyAttrDef, "x"); (keyArrayStart, ""); (keyArrayElem, "1"); (keyArrayEnd, "2")]
  /\ exists p',
       parseAttribute powInt parserAtArray = Ok (true, p')
       /\ mapGet (Attributes p') "x" = Some (mkAttribute "x" (VArray [VInt 1]) attrArray)
       /\ currentItemIndex p' = 4.
Proof.
  split; [vm_compute; reflexivity |]. split; [reflexivity |].
  destruct (parseAttribute_array powInt parserAtArray []
              (mkItem keyAttrDef "x" (mkPosition 1 0 2))
              (mkItem keyArrayStart "" (mkPosition 1 4 0))
              [mkItem keyArrayElem "1" (mkPosition 1 5 1)]
              (mkItem keyArrayEnd "2" (mkPosition 1 8 1)) [] (VArray [VInt 1]))
    as (p' & H1 & H2 & H3); try reflexivity.
  exists p'. refine (conj H1 (conj H2 H3)).
Defined.

(* ================================================================== *)
(** * The last element of an array *)

(** A rune of the last element and of the rest of its line: no newline,
    comma, equals sign or brace. *)
Definition lineRune (s : string) : bool :=
  negb (String.eqb s newline || String.eqb s "," || String.eqb s "="
        || String.eqb s "{" || String.eqb s "}").

(** A rune of the element before its closing bracket. *)
Definition elemRune (s : string) : bool := lineRune s && negb (String.eqb s "]").

(** The first character of an element that is not quoted. *)
Definition bareStart (c : ascii) : bool :=
  lineRune (str1 c) && negb (String.eqb (str1 c) "]")
  && negb (String.eqb (str1 c) " ") && negb (String.eqb (str1 c) "/")
  && negb (String.eqb (str1 c) qs).

Lemma lineRune_not (key : string) (line : list string) :
  In key [newline; ","; "="; "{"; "}"] ->
  forallb lineRune line = true ->
  forallb (fun s => negb (String.eqb s key)) line = true.
Proof.
  intros Hk H. rewrite forallb_forall in *. intros x Hx. specialize (H x Hx).
  unfold lineRune in H. apply negb_true_iff in H.
  repeat (apply orb_false_iff in H; destruct H as [H ?]).
  cbn [In] in Hk.
  destruct Hk as [<- | [<- | [<- | [<- | [<- | []]]]]]; apply negb_true_iff; assumption.
Qed.

Lemma lenL_snoc {A : Type} (a : list A) (x : A) : lenL (a ++ [x]) = lenL a + 1.
Proof. rewrite lenL_app, lenL_cons. change (lenL (@nil A)) with 0. lia. Qed.

Section LastElement.

Variable l : lexer.
Variables (pre : list string) (ch : ascii) (seg tail post : list string).
Variables (its : list item) (prevItem : item).

Hypothesis Hinput :
  elems (input l) = (pre ++ str1 ch :: (seg ++ "]" :: tail) ++ newline :: post)%list.
Hypothesis Hcur : currentByteIndex l = lenL pre.
Hypothesis Hbyte : currentByte l = str1 ch.
Hypothesis Heof : atEOF l = false.
Hypothesis Hitems : items l = (its ++ [prevItem])%list.
Hypothesis Hprev :
  item_kind prevItem = keyArrayStart \/ item_kind prevItem = keyArrayElem.
Hypothesis Hch : bareStart ch = true.
Hypothesis Hseg : forallb elemRune seg = true.
Hypothesis Htail : forallb lineRune tail = true.

Lemma bare_facts :
  String.eqb (str1 ch) newline = false /\ String.eqb (str1 ch) " " = false
  /\ String.eqb (str1 ch) "/" = false /\ String.eqb (str1 ch) qs = false
  /\ String.eqb (str1 ch) "]" = false /\ String.eqb (str1 ch) "{" = false
  /\ String.eqb (str1 ch) "}" = false /\ Ascii.eqb ch " " = false.
Proof.
  unfold bareStart, lineRune in Hch.
  repeat (apply andb_true_iff in Hch; destruct Hch as [Hch ?]).
  apply negb_true_iff in Hch.
  repeat (apply orb_false_iff in Hch; destruct Hch as [Hch ?]).
  repeat match goal with H : negb _ = true |- _ => apply negb_true_iff in H end.
  repeat split; try assumption.
  - unfold newline. rewrite eqb_str1. exact Hch.
  - rewrite <- (eqb_str1 ch " "). assumption.
Qed.

Lemma element_line : forallb lineRune (seg ++ "]" :: tail) = true.
Proof.
  apply forallb_app_intro.
  - rewrite forallb_forall in *. intros x Hx. specialize (Hseg x Hx).
    unfold elemRune in Hseg. apply andb_true_iff in Hseg. tauto.
  - cbn [forallb]. rewrite Htail. reflexivity.
Qed.

Lemma element_input :
  elems (input l)
  = ((pre ++ [str1 ch]) ++ (seg ++ "]" :: tail) ++ newline :: post)%list.
Proof. rewrite Hinput, <- (List.app_assoc pre [str1 ch]). reflexivity. Qed.

Lemma element_length :
  sliceLen (input l) = lenL pre + lenL seg + lenL tail + lenL post + 3.
Proof.
  unfold sliceLen. rewrite Hinput, lenL_app, lenL_cons, lenL_app, lenL_app, !lenL_cons. lia.
Qed.

Lemma nothing_on_line (key : string) :
  In key [","; "="; "{"; "}"] -> peekAndFind l key = (false, 0).
Proof.
  intros Hk. unfold peekAndFind. rewrite Hcur, element_input.
  rewrite peekAndFindAfterLoop_skip by (rewrite lenL_snoc; lia).
  apply peekAndFindAfterLoop_none.
  - rewrite lenL_snoc. lia.
  - rewrite lenL_snoc. lia.
  - cbn [In] in Hk. destruct Hk as [<- | [<- | [<- | [<- | []]]]]; reflexivity.
  - apply lineRune_not; [| exact element_line]. cbn [In] in *. tauto.
Qed.

Lemma bracket_on_line : peekAndFind l "]" = (true, lenL pre + 1 + lenL seg).
Proof.
  unfold peekAndFind. rewrite Hcur, element_input.
  rewrite peekAndFindAfterLoop_skip by (rewrite lenL_snoc; lia).
  rewrite <- List.app_assoc. cbn [app].
  rewrite peekAndFindAfterLoop_found.
  - rewrite lenL_snoc. reflexivity.
  - rewrite lenL_snoc. lia.
  - rewrite lenL_snoc. lia.
  - rewrite forallb_forall in *. intros x Hx. specialize (Hseg x Hx).
    unfold elemRune, lineRune in Hseg. apply andb_true_iff in Hseg.
    destruct Hseg as [H1 H2]. apply negb_true_iff in H1.
    repeat (apply orb_false_iff in H1; destruct H1 as [H1 ?]).
    rewrite H2, H1. reflexivity.
Qed.

Lemma end_of_element_line : peekEOL l = lenL pre + 1 + lenL (seg ++ "]" :: tail).
Proof.
  unfold peekEOL. rewrite Hcur, element_input.
  rewrite peekEOLLoop_skip by (rewrite lenL_snoc; lia).
  rewrite peekEOLLoop_line.
  - rewrite lenL_snoc. lia.
  - rewrite lenL_snoc. lia.
  - rewrite element_length, lenL_snoc, lenL_app, lenL_cons.
    pose proof (lenL_nonneg post). lia.
  - apply lineRune_not; [left; reflexivity | exact element_line].
Qed.

Lemma previous_is_array_item :
  prevKindIs l keyAttrDef = Ok false /\ afterArrayItem l = Ok true.
Proof.
  unfold prevKindIs, afterArrayItem, previousItem. rewrite Hitems, idx_last. cbn [bind].
  destruct Hprev as [-> | ->]; split; reflexivity.
Qed.

Lemma element_slice (n : Z) :
  0 < n <= lenL seg + 1 ->
  exists v, subSlice (input l) (lenL pre) (lenL pre + n) = Ok (str1 ch :: v).
Proof.
  intros Hn.
  rewrite (subSlice_after (input l) pre _ (lenL pre + n) Hinput).
  - destruct (Z.to_nat (lenL pre + n - lenL pre)) as [| k] eqn:E; [lia |].
    eexists. reflexivity.
  - rewrite lenL_cons, lenL_app, lenL_app, !lenL_cons.
    pose proof (lenL_nonneg tail). pose proof (lenL_nonneg post). lia.
Qed.

Lemma last_lexEOF : lexEOF l = Ok (false, l).
Proof.
  unfold lexEOF, noMatch. rewrite Hcur, element_length.
  replace (lenL pre =? lenL pre + lenL seg + lenL tail + lenL post + 3 - 1) with false;
    [reflexivity |].
  symmetry. apply Z.eqb_neq.
  pose proof (lenL_nonneg seg). pose proof (lenL_nonneg tail).
  pose proof (lenL_nonneg post). lia.
Qed.

Lemma last_lexTab : lexTab l = Ok (false, l).
Proof.
  unfold lexTab, noMatch. rewrite Hcur.
  rewrite (subSlice_after (input l) pre _ (lenL pre + 3) Hinput).
  - replace (Z.to_nat (lenL pre + 3 - lenL pre)) with 3%nat by lia.
    cbn [List.firstn bind]. rewrite Join_cons. unfold str1 at 1. cbn [append].
    destruct bare_facts as (_ & _ & _ & _ & _ & _ & _ & Hsp).
    cbn [String.eqb]. rewrite Hsp. reflexivity.
  - rewrite lenL_cons, lenL_app, lenL_app, !lenL_cons.
    pose proof (lenL_nonneg seg). pose proof (lenL_nonneg tail).
    pose proof (lenL_nonneg post). lia.
Qed.

Lemma last_lexAttributeDef : lexAttributeDef l = Ok (false, l).
Proof.
  unfold lexAttributeDef, noMatch.
  replace (negb (lenL (items l) =? 0)) with true.
  - destruct previous_is_array_item as [-> _]. cbn [bind].
    assert (Hpb : exists pb, previousByte l = Ok pb).
    { unfold previousByte. rewrite Hcur.
      destruct (lenL pre =? 0) eqn:E; [eexists; reflexivity |].
      apply Z.eqb_neq in E. rewrite Hinput.
      destruct (List.exists_last (l := pre)) as (pre0 & x & Hx).
      - intros ->. apply E. reflexivity.
      - rewrite Hx, <- List.app_assoc. cbn [app].
        replace (lenL (pre0 ++ [x]) - 1) with (lenL pre0)
          by (rewrite lenL_app, lenL_cons; change (lenL (@nil string)) with 0; lia).
        exists x. apply idx_middle. }
    destruct Hpb as [pb ->]. cbn [bind].
    rewrite nothing_on_line by (cbn [In]; tauto). cbn [negb].
    destruct (negb (String.eqb pb newline)
              && negb (onlySpacesLoop (elems (input l)) 0 (lastEOL l) (currentByteIndex l)));
      reflexivity.
  - symmetry. apply negb_true_iff, Z.eqb_neq.
    rewrite Hitems, lenL_app, lenL_cons. pose proof (lenL_nonneg its).
    change (lenL (@nil item)) with 0. lia.
Qed.

Lemma last_lexBrace (k : keyKind) (brace : string) :
  In brace ["{"; "}"] -> lexBrace k brace l = Ok (false, l).
Proof.
  intros Hb. unfold lexBrace, noMatch. rewrite Hbyte.
  destruct bare_facts as (_ & _ & _ & _ & _ & H1 & H2 & _).
  assert (Hne : String.eqb (str1 ch) brace = false)
    by (cbn [In] in Hb; destruct Hb as [<- | [<- | []]]; assumption).
  rewrite Hne. cbn [negb]. rewrite nothing_on_line by (cbn [In] in *; tauto). reflexivity.
Qed.

(** The item that the array-end rule emits. *)
Definition endItemOf : item :=
  mkItem keyArrayEnd (TrimSpace (Join (str1 ch :: seg) ""))
    (mkPosition (currentLine l) (lenL pre) (1 + lenL seg)).

Lemma last_lexArrayEnd :
  exists b,
    lexArrayEnd l
    = Ok (true, mkLexer (input l) (items l ++ [endItemOf]) nilProto (currentLine l)
                  (lenL pre + (1 + lenL seg) + 1) b (lastEOL l) false).
Proof.
  pose proof (lenL_nonneg seg) as Hs0. pose proof (lenL_nonneg tail) as Ht0.
  pose proof (lenL_nonneg post) as Hq0.
  destruct bare_facts as (_ & _ & _ & Hq & Hbr & _).
  assert (Hnext : exists b, idx (elems (input l)) (lenL pre + (1 + lenL seg) + 1) = Ok b).
  { assert (E : elems (input l)
                = (((pre ++ [str1 ch]) ++ seg ++ ["]"]) ++ tail ++ newline :: post)%list).
    { rewrite Hinput, <- !List.app_assoc. reflexivity. }
    replace (lenL pre + (1 + lenL seg) + 1)
      with (lenL ((pre ++ [str1 ch]) ++ seg ++ ["]"]))
      by (rewrite lenL_app, lenL_snoc, lenL_app, lenL_cons;
          change (lenL (@nil string)) with 0; lia).
    rewrite E. destruct tail as [| t0 tail'].
    - exists newline. apply idx_middle.
    - exists t0. apply (idx_middle _ t0). }
  destruct Hnext as [b Hb]. exists b.
  unfold lexArrayEnd. destruct previous_is_array_item as [_ ->]. cbn [bind negb].
  rewrite Hbyte. change (str1 quote) with qs. rewrite Hq.
  rewrite nothing_on_line by (cbn [In]; tauto). cbn [fst].
  rewrite Hbr. cbn [negb]. rewrite bracket_on_line. cbn [negb].
  rewrite end_of_element_line.
  replace (lenL pre + 1 + lenL (seg ++ "]" :: tail) <? lenL pre + 1 + lenL seg) with false
    by (symmetry; apply Z.ltb_ge; rewrite lenL_app, lenL_cons; lia).
  rewrite Hcur.
  rewrite (subSlice_after (input l) pre _ (lenL pre + 1 + lenL seg) Hinput)
    by (rewrite lenL_cons, lenL_app, lenL_app, !lenL_cons; lia).
  replace (Z.to_nat (lenL pre + 1 + lenL seg - lenL pre)) with (S (List.length seg))
    by (unfold lenL; lia).
  rewrite <- List.app_assoc, firstn_head_segment. cbn [bind].
  replace (lenL pre + 1 + lenL seg - lenL pre) with (1 + lenL seg) by lia.
  unfold emit.
  rewrite (next_emits l keyArrayEnd (str1 ch :: seg) (1 + lenL seg) b).
  - cbn [bind]. rewrite Hcur. reflexivity.
  - discriminate.
  - exact Heof.
  - rewrite Hcur, element_length. lia.
  - rewrite Hcur, element_length. lia.
  - rewrite Hcur, element_length. lia.
  - rewrite Hcur. exact Hb.
Qed.

Lemma lexByte_at_last_element :
  exists b,
    lexByte l
    = Ok (mkLexer (input l) (items l ++ [endItemOf]) nilProto (currentLine l)
            (lenL pre + (1 + lenL seg) + 1) b (lastEOL l) false).
Proof.
  destruct last_lexArrayEnd as [b Hs]. exists b.
  destruct bare_facts as (Hnl & Hsp & Hsl & _).
  unfold lexByte, lexRules. cbn [firstMatch].
  rewrite last_lexEOF. cbn [bind].
  rewrite last_lexTab. cbn [bind].
  unfold lexEOL. rewrite Hbyte, Hnl. cbn [andb]. unfold noMatch at 1. cbn [bind].
  unfold lexWhitespace. rewrite Hbyte, Hsp. unfold noMatch at 1. cbn [bind].
  unfold lexComment. rewrite Hbyte, Hsl. cbn [negb]. unfold noMatch at 1. cbn [bind].
  rewrite last_lexAttributeDef. cbn [bind].
  unfold lexBlockStart. rewrite last_lexBrace by (cbn [In]; tauto). cbn [bind].
  unfold lexBlockEnd. rewrite last_lexBrace by (cbn [In]; tauto). cbn [bind].
  unfold lexAttrFunction. destruct previous_is_array_item as [Hd _].
  rewrite Hd. cbn [bind negb]. unfold noMatch at 1. cbn [bind].
  unfold lexArrayStart. rewrite Hd. cbn [bind negb]. unfold noMatch at 1. cbn [bind].
  rewrite Hs. reflexivity.
Qed.

End LastElement.

(** X22.  With the scanner on the first character of the last element of an
    array, when that element is not quoted and is followed on its line by
    the closing bracket (no comma, equals sign or brace on the line), the
    array-end rule is the first to match: [lexByte] emits an array-end item
    whose value is the text of the element, and no array-element item.
    Since [parseAttribute] does not read the value of the array-end item,
    such a last element is lost. *)
Theorem bare_last_element_is_array_end (l : lexer)
    (pre : list string) (ch : ascii) (seg tail post : list string)
    (its : list item) (prevItem : item) :
  elems (input l) = (pre ++ str1 ch :: (seg ++ "]" :: tail) ++ newline :: post)%list ->
  currentByteIndex l = lenL pre ->
  currentByte l = str1 ch ->
  atEOF l = false ->
  items l = (its ++ [prevItem])%list ->
  item_kind prevItem = keyArrayStart \/ item_kind prevItem = keyArrayElem ->
  bareStart ch = true ->
  forallb elemRune seg = true ->
  forallb lineRune tail = true ->
  exists l',
    lexByte l = Ok l'
    /\ items l' = (items l ++ [mkItem keyArrayEnd (TrimSpace (Join (str1 ch :: seg) ""))
                                 (mkPosition (currentLine l) (lenL pre)
                                    (1 + lenL seg))])%list
    /\ currentByteIndex l' = lenL pre + lenL seg + 2.
Proof.
  intros Hinput Hcur Hbyte Heof Hitems Hprev Hch Hseg Htail.
  destruct (lexByte_at_last_element l pre ch seg tail post its prevItem
              Hinput Hcur Hbyte Heof Hitems Hprev Hch Hseg Htail) as [b Hb].
  eexists. split; [exact Hb |]. cbn [items currentByteIndex].
  split; [reflexivity | lia].
Qed.

(** The scanner on the last element of #<code>x = [1, 2]</code>#. *)
Definition atLastElement : lexer :=
  mkLexer
    (mkSlice (runesOf "x = [1, " ++ str1 "2" :: ([] ++ "]" :: []) ++ [newline])
       [""; ""; ""; ""; ""])
    [mkItem keyAttrDef "x" (mkPosition 1 0 2);
     mkItem keyArrayStart "" (mkPosition 1 4 0);
     mkItem keyArrayElem "1" (mkPosition 1 5 1)]
    nilProto 1 8 "2" 0 false.

Lemma bare_last_element_is_array_end_witness :
  exists l',
    lexByte atLastElement = Ok l'
    /\ map (fun e => (item_kind e, item_value e)) (items l')
       = [(keyAttrDef, "x"); (keyArrayStart, ""); (keyArrayElem, "1"); (keyArrayEnd, "2")].
Proof.
  destruct (bare_last_element_is_array_end atLastElement (runesOf "x = [1, ") "2" [] [] []
              [mkItem keyAttrDef "x" (mkPosition 1 0 2);
               mkItem keyArrayStart "" (mkPosition 1 4 0)]
              (mkItem keyArrayElem "1" (mkPosition 1 5 1)))
    as (l' & H1 & H2 & _); try reflexivity.
  - right. reflexivity.
  - exists l'. split; [exact H1 |]. rewrite H2. reflexivity.
Defined.

(* ================================================================== *)
(** * Multi-line strings *)


Section MultiString.

Variable item : string.






End MultiString.








(* ================================================================== *)
(** * Comments *)

(** [next] after a rule that has set a prototype and ends a line. *)
Lemma next_emits_line (l : lexer) (k : keyKind) (v : list string) (length : Z) (b : string) :
  k <> keyNIL -> atEOF l = false ->
  currentByteIndex l <> sliceLen (input l) - 1 ->
  currentByteIndex l + length <> sliceLen (input l) + 1 ->
  currentByteIndex l + length + 1 <> sliceLen (input l) ->
  idx (elems (input l)) (currentByteIndex l + length + 1) = Ok b ->
  next (setProto l (protoOf k v length)) false true
  = Ok (mkLexer (input l)
          (items l ++ [mkItem k (TrimSpace (Join v ""))
                         (mkPosition (currentLine l) (currentByteIndex l) length)])
          nilProto (currentLine l + 1) (currentByteIndex l + length + 1) b
          (snd (peekAndFind l newline)) false).
Proof.
  intros Hk Heof Hlast Hend Hlen Hb.
  destruct k; try congruence;
    unfold next, setProto, protoOf;
    cbn [proto proto_kind proto_value proto_position Length items currentLine
         currentByteIndex input lastEOL atEOF currentByte];
    rewrite idx_last; cbn [bind item_position Start Length];
    replace (currentByteIndex l + length =? sliceLen (input l) + 1) with false
      by (symmetry; now apply Z.eqb_neq);
    rewrite Heof;
    replace (currentByteIndex l =? sliceLen (input l) - 1) with false
      by (symmetry; now apply Z.eqb_neq);
    cbn [orb];
    replace (currentByteIndex l + length + 1 =? sliceLen (input l)) with false
      by (symmetry; now apply Z.eqb_neq);
    rewrite Hb; reflexivity.
Qed.

Definition notNewline (s : string) : bool := negb (String.eqb s newline).

(** X24.  With the scanner on the first of two slashes, [lexByte] emits one
    comment item that holds the text from the slashes to the end of the
    line, counts one more line, records the index of that newline as the
    last end of line and moves to the rune after the newline.  This holds
    also when no item has been emitted before, as on the first line of a
    file. *)
Theorem comment_runs_to_end_of_line (l : lexer)
    (pre seg : list string) (b : string) (post : list string) :
  elems (input l) = (pre ++ "/" :: "/" :: seg ++ newline :: b :: post)%list ->
  currentByteIndex l = lenL pre ->
  currentByte l = "/" ->
  atEOF l = false ->
  forallb notNewline seg = true ->
  lexByte l
  = Ok (mkLexer (input l)
          (items l ++ [mkItem keyComment (TrimSpace (Join ("/" :: "/" :: seg) ""))
                         (mkPosition (currentLine l) (lenL pre) (2 + lenL seg))])
          nilProto (currentLine l + 1) (lenL pre + lenL seg + 3) b
          (lenL pre + 2 + lenL seg) false).
Proof.
  intros Hinput Hcur Hbyte Heof Hseg.
  pose proof (lenL_nonneg pre) as Hp0. pose proof (lenL_nonneg seg) as Hs0.
  pose proof (lenL_nonneg post) as Hq0.
  assert (Hlen : sliceLen (input l) = lenL pre + lenL seg + lenL post + 4).
  { unfold sliceLen. rewrite Hinput, lenL_app, !lenL_cons, lenL_app, !lenL_cons. lia. }
  assert (Hsplit : elems (input l)
                   = ((pre ++ ["/"]) ++ ("/" :: seg) ++ newline :: b :: post)%list).
  { rewrite Hinput, <- (List.app_assoc pre ["/"]). reflexivity. }
  assert (Hline : forallb (fun s => negb (String.eqb s newline)) ("/" :: seg) = true).
  { cbn [forallb]. exact Hseg. }
  assert (Heol : peekEOL l = lenL pre + 2 + lenL seg).
  { unfold peekEOL. rewrite Hcur, Hsplit.
    rewrite peekEOLLoop_skip by (rewrite lenL_snoc; lia).
    rewrite peekEOLLoop_line.
    - rewrite lenL_snoc, lenL_cons. lia.
    - rewrite lenL_snoc. lia.
    - rewrite Hlen, lenL_snoc, lenL_cons. lia.
    - exact Hline. }
  assert (Hfind : peekAndFind l newline = (true, lenL pre + 2 + lenL seg)).
  { unfold peekAndFind. rewrite Hcur, Hsplit.
    rewrite peekAndFindAfterLoop_skip by (rewrite lenL_snoc; lia).
    rewrite peekAndFindAfterLoop_found.
    - rewrite lenL_snoc, lenL_cons. f_equal; lia.
    - rewrite lenL_snoc. lia.
    - rewrite lenL_snoc. lia.
    - apply forallb_and; exact Hline. }
  assert (Hpeek : peek l = Ok "/").
  { unfold peek. rewrite Hcur, Hsplit, <- (lenL_snoc pre "/"). apply idx_middle. }
  assert (Hb : idx (elems (input l)) (lenL pre + (2 + lenL seg) + 1) = Ok b).
  { replace (lenL pre + (2 + lenL seg) + 1)
      with (lenL (pre ++ "/" :: "/" :: seg ++ [newline]))
      by (rewrite lenL_app, !lenL_cons, lenL_snoc; lia).
    rewrite Hinput.
    replace (pre ++ "/" :: "/" :: seg ++ newline :: b :: post)%list
      with ((pre ++ "/" :: "/" :: seg ++ [newline]) ++ b :: post)%list.
    - apply idx_middle.
    - rewrite <- List.app_assoc. cbn [app]. rewrite <- List.app_assoc. reflexivity. }
  assert (Hslice3 : exists v, subSlice (input l) (lenL pre) (lenL pre + 3) = Ok ("/" :: v)).
  { rewrite (subSlice_after (input l) pre _ (lenL pre + 3) Hinput).
    - replace (Z.to_nat (lenL pre + 3 - lenL pre)) with 3%nat by lia.
      eexists. reflexivity.
    - rewrite !lenL_cons, lenL_app, !lenL_cons. lia. }
  unfold lexByte, lexRules. cbn [firstMatch].
  unfold lexEOF. rewrite Hcur, Hlen.
  replace (lenL pre =? lenL pre + lenL seg + lenL post + 4 - 1) with false
    by (symmetry; apply Z.eqb_neq; lia).
  unfold noMatch at 1. cbn [bind].
  unfold lexTab. rewrite Hcur. destruct Hslice3 as [v3 ->]. cbn [bind].
  rewrite Join_cons. change (String.eqb ("/" ++ Join v3 "") "    ") with false.
  unfold noMatch at 1. cbn [bind].
  unfold lexEOL. rewrite Hbyte. change (String.eqb "/" newline) with false.
  cbn [andb]. unfold noMatch at 1. cbn [bind].
  unfold lexWhitespace. rewrite Hbyte. change (String.eqb "/" " ") with false.
  unfold noMatch at 1. cbn [bind].
  unfold lexComment. rewrite Hbyte, Hpeek. cbn [bind String.eqb Ascii.eqb Bool.eqb negb].
  rewrite Heol, Hcur.
  rewrite (subSlice_after (input l) pre _ (lenL pre + 2 + lenL seg) Hinput)
    by (rewrite !lenL_cons, lenL_app, !lenL_cons; lia).
  replace (Z.to_nat (lenL pre + 2 + lenL seg - lenL pre)) with (S (S (List.length seg)))
    by (unfold lenL; lia).
  cbn [List.firstn]. rewrite List.firstn_app, Nat.sub_diag, List.firstn_all.
  cbn [List.firstn]. rewrite List.app_nil_r. cbn [bind].
  replace (lenL pre + 2 + lenL seg - lenL pre) with (2 + lenL seg) by lia.
  unfold emit.
  rewrite (next_emits_line l keyComment ("/" :: "/" :: seg) (2 + lenL seg) b).
  - cbn [bind]. rewrite Hfind, Hcur. cbn [snd].
    replace (lenL pre + (2 + lenL seg) + 1) with (lenL pre + lenL seg + 3) by lia.
    reflexivity.
  - discriminate.
  - exact Heof.
  - rewrite Hcur, Hlen. lia.
  - rewrite Hcur, Hlen. lia.
  - rewrite Hcur, Hlen. lia.
  - rewrite Hcur. exact Hb.
Qed.

Lemma comment_runs_to_end_of_line_witness :
  lexByte atCommentStart
  = Ok (mkLexer (input atCommentStart)
          [mkItem keyComment "// c" (mkPosition 1 0 4)]
          nilProto 2 5 "x" 4 false).
Proof.
  exact (comment_runs_to_end_of_line atCommentStart [] (runesOf " c") "x"
           (runesOf (" = 1" ++ newline)) eq_refl eq_refl eq_refl eq_refl eq_refl).
Defined.
